(** * GeneRaxCore: dated species trees, dating search, root search and
      the extended-range scalar

    A shallow embedding of
    - [src/maths/ScaledValue.hpp]           (module [ScaledValue]),
    - [src/trees/DatedTree.{hpp,cpp}]       (module [DatedTree]),
    - [src/search/DatedSpeciesTreeSearch.cpp] and
      [src/search/SpeciesRootSearch.cpp]    (modules [Search],
                                             [TransferScore], [BestDatings]),
    together with the properties of these components.

    Conventions.
    - A C++ [double] is an IEEE-754 binary64 number, modelled by the
      Standard Library's [spec_float] at precision 53 and [emax = 1024].
    - [int] and [unsigned int] are integers in [Z]; their wrap-around is
      written out ([wrap_int], [wrap_uint]); [size_t] wraps at [2^64].
    - A [std::vector] is a list; an access outside of its bounds is
      undefined behaviour in C++ and aborts the model with [OutOfBounds].
    - A failed [assert] aborts the model with the corresponding error. *)

From Stdlib Require Import ZArith Lia Bool.
From Stdlib Require Import Floats.SpecFloat.
From stdpp Require Import base option list strings gmap sorting.

Local Open Scope Z_scope.

(** ** Outcomes of fallible code *)

Inductive error :=
| NegativeSubtraction   (* assert in ScaledValue::operator- *)
| NotDated              (* assert(_fromBL) *)
| OutOfBounds           (* vector access out of range, null dereference *)
| NotSupported          (* assert(false) of the surrogate evaluator *)
| OutOfFuel.            (* the step budget of a loop of the model is used up *)

Inductive result (A : Type) :=
| Ok (a : A)
| Abort (e : error).
Arguments Ok {A} a.
Arguments Abort {A} e.

#[global] Instance result_ret : MRet result := fun _ a => Ok a.
#[global] Instance result_bind : MBind result := fun _ _ k r =>
  match r with
  | Ok a => k a
  | Abort e => Abort e
  end.

Definition of_option {A} (o : option A) : result A :=
  match o with
  | Some a => Ok a
  | None => Abort OutOfBounds
  end.

(** ** Machine integers *)

Definition wrap_int (z : Z) : Z := (z + 2 ^ 31) mod 2 ^ 32 - 2 ^ 31.
Definition wrap_uint (z : Z) : Z := z mod 2 ^ 32.
Definition wrap_size (z : Z) : Z := z mod 2 ^ 64.

Definition INT_MAX : Z := 2147483647.

(** ** Binary64 *)

Module Double.

Definition prec : Z := 53.
Definition emax : Z := 1024.

Definition double := spec_float.

Definition zero : double := S754_zero false.
Definition one : double := S754_finite false 4503599627370496 (-52).
(* std::numeric_limits<double>::epsilon() = 2^-52 *)
Definition epsilon : double := S754_finite false 4503599627370496 (-104).
(* std::numeric_limits<double>::max() = (2^53 - 1) * 2^971 *)
Definition DBL_MAX : double := S754_finite false 9007199254740991 971.

Definition add : double -> double -> double := SFadd prec emax.
Definition sub : double -> double -> double := SFsub prec emax.
Definition mul : double -> double -> double := SFmul prec emax.
Definition div : double -> double -> double := SFdiv prec emax.
Definition sqrt : double -> double := SFsqrt prec emax.
Definition fabs : double -> double := SFabs.

Definition eqb : double -> double -> bool := SFeqb.
Definition ltb : double -> double -> bool := SFltb.
Definition leb : double -> double -> bool := SFleb.
Definition gtb (x y : double) : bool := SFltb y x.
Definition geb (x y : double) : bool := SFleb y x.

Definition is_nan (x : double) : bool :=
  match x with S754_nan => true | _ => false end.

(** The values of the type: [spec_float]s in canonical form. *)
Definition valid (x : double) : bool := valid_binary prec emax x.

(* std::isfinite *)
Definition is_finite (x : double) : bool :=
  match x with S754_zero _ | S754_finite _ _ _ => true | _ => false end.

End Double.

Import Double.

(** ** ScaledValue.hpp *)

Module ScaledValue.

(* 2**256 (exactly) *)
Definition JS_SCALE_FACTOR : double :=
  S754_finite false 4503599627370496 204.
Definition JS_SCALE_THRESHOLD : double := div one JS_SCALE_FACTOR.

Definition NULL_SCALER : Z := INT_MAX ÷ 2 - 1.

(* the literal 0.0000000001, rounded to binary64 *)
Definition tolerance : double := S754_finite false 7737125245533627 (-86).

Record t := mk { value : double; scaler : Z }.

(* ScaledValue() *)
Definition null : t := mk zero NULL_SCALER.
(* explicit ScaledValue(double v) *)
Definition of_double (v : double) : t := mk v 0.

(* operator double() *)
Definition to_double (x : t) : double :=
  if scaler x =? NULL_SCALER then zero
  else if scaler x =? 0 then value x
  else zero.

Definition setNull (x : t) : t := mk zero NULL_SCALER.

Definition checkNull (x : t) : t :=
  if eqb (value x) zero then mk (value x) NULL_SCALER else x.

Definition scale (x : t) : t :=
  if ltb (value x) JS_SCALE_THRESHOLD
  then checkNull (mk (mul (value x) JS_SCALE_FACTOR) (wrap_int (scaler x + 1)))
  else x.

(* bool isNull() const *)
Definition isNull (x : t) : bool := eqb (value x) zero.

(* operator+ (this = x) *)
Definition plus (x v : t) : t :=
  if scaler v =? scaler x then mk (add (value v) (value x)) (scaler x)
  else if scaler v <? scaler x then v
  else x.

(* operator- (this = x) *)
Definition minus (x v : t) : result t :=
  if scaler v =? scaler x then
    (* assert(value - v.value >= 0); res.scale(); return res; *)
    let checked :=
      if geb (sub (value x) (value v)) zero
      then Ok (scale (mk (sub (value x) (value v)) (scaler x)))
      else Abort NegativeSubtraction in
    if ltb (sub (value x) (value v)) zero then
      if ltb (fabs (sub (value x) (value v))) tolerance then Ok null
      else checked
    else checked
  else if scaler v <? scaler x then Abort NegativeSubtraction
  else Ok x.

(* operator*(const ScaledValue&) *)
Definition times (x v : t) : t :=
  mk (mul (value v) (value x)) (wrap_int (scaler v + scaler x)).

(* operator*(double) *)
Definition times_double (x : t) (v : double) : t :=
  mk (mul v (value x)) (scaler x).

(* operator/(double) *)
Definition div_double (x : t) (v : double) : t :=
  mk (div (value x) v) (scaler x).

(* operator< (this = x) *)
Definition lt (x v : t) : bool :=
  if isNull x then negb (isNull v)
  else if negb (scaler x =? scaler v) then scaler x >? scaler v
  else ltb (value x) (value v).

(* operator<= *)
Definition le (x v : t) : bool :=
  if isNull x then true
  else if negb (scaler x =? scaler v) then scaler x >? scaler v
  else leb (value x) (value v).

(* operator> *)
Definition gt (x v : t) : bool := negb (le x v).

(* operator>= *)
Definition ge (x v : t) : bool := negb (lt x v).

(* operator== *)
Definition eq (x v : t) : bool :=
  (scaler x =? scaler v) && leb (fabs (sub (value v) (value x))) epsilon.

(* operator!= *)
Definition ne (x v : t) : bool := negb (eq x v).

Definition isProba (x : t) : bool := le x (of_double one) && le null x.

(** The square of the threshold, [2^-512]: the least value that one call
    of [scale] lifts to the threshold. *)
Definition JS_SCALE_THRESHOLD_SQUARED : double :=
  mul JS_SCALE_THRESHOLD JS_SCALE_THRESHOLD.

(* operator+= (this = x) *)
Definition plus_assign (x v : t) : t :=
  if scaler v =? scaler x then mk (add (value x) (value v)) (scaler x)
  else if scaler v <? scaler x then mk (value v) (scaler v)
  else x.

(* operator*=(const ScaledValue&) *)
Definition times_assign (x v : t) : t :=
  mk (mul (value x) (value v)) (wrap_int (scaler x + scaler v)).

(* operator*=(double) *)
Definition times_double_assign (x : t) (v : double) : t :=
  mk (mul (value x) v) (scaler x).

(* operator/=(double) *)
Definition div_double_assign (x : t) (v : double) : t :=
  mk (div (value x) v) (scaler x).

(** The convention of the class: the value is a number, a null value has
    the scaler [NULL_SCALER] and any other value a smaller scaler. *)
Definition well_formed (x : t) : bool :=
  negb (is_nan (value x))
  && (if isNull x then scaler x =? NULL_SCALER else scaler x <? NULL_SCALER).

End ScaledValue.

(** ** std::vector *)

Definition vec_get {A} (v : list A) (i : Z) : result A :=
  if i <? 0 then Abort OutOfBounds else of_option (v !! Z.to_nat i).

Definition vec_set {A} (v : list A) (i : Z) (a : A) : result (list A) :=
  if (0 <=? i) && (i <? Z.of_nat (length v))
  then Ok (<[Z.to_nat i := a]> v)
  else Abort OutOfBounds.

(* v.size(), a size_t *)
Definition vec_size {A} (v : list A) : Z := wrap_size (Z.of_nat (length v)).

(** ** DatedTree.hpp, DatedTree.cpp *)

Module DatedTree.

(** [corax_rnode_t]. A node is identified with its [node_index], so a
    [corax_rnode_t *] is a node index and the null pointer is [None]. *)
Record rnode := mk_rnode {
  parent : option Z;
  left : option Z;
  right : option Z
}.

(** [PLLRootedTree], as far as the dated tree uses it: [getNode(i)] is
    [nodes !! i] and [getRoot()] is [root]. *)
Record PLLRootedTree := mk_rooted {
  nodes : list rnode;
  root : Z
}.

Definition getNode (tr : PLLRootedTree) (i : Z) : result rnode :=
  vec_get (nodes tr) i.

Definition DatedBackup := list Z.

Record t := mk {
  fromBL : bool;
  rootedTree : PLLRootedTree;
  (* all nodes, from the root to the most recent speciation followed by leaves *)
  orderedSpeciations : list Z;
  (* ranks for all nodes, parents always have a lower rank than their children *)
  ranks : list Z
}.

Definition isDated (d : t) : bool := fromBL d.
Definition getBackup (d : t) : DatedBackup := ranks d.
(* getRank(node) *)
Definition getRank (d : t) (node : Z) : result Z := vec_get (ranks d) node.

Definition moveDown (d : t) (rank : Z) : result (bool * t) :=
  if negb (fromBL d) then Abort NotDated else
  if rank >? wrap_size (vec_size (orderedSpeciations d) - 2) then Ok (false, d) else
  n1 ← vec_get (orderedSpeciations d) rank;
  n2 ← vec_get (orderedSpeciations d) (wrap_uint (rank + 1));
  (* n1 has a lower rank than n2. We want to swap them *)
  nd1 ← getNode (rootedTree d) n1;
  if bool_decide (left nd1 = None) then Ok (false, d) else
  nd2 ← getNode (rootedTree d) n2;
  if bool_decide (left nd2 = None) then Ok (false, d) else
  if bool_decide (parent nd2 = Some n1) then Ok (false, d) else
  os1 ← vec_set (orderedSpeciations d) (wrap_uint (rank + 1)) n1;
  os2 ← vec_set os1 rank n2;
  r1 ← vec_get (ranks d) n1;
  rk1 ← vec_set (ranks d) n1 (wrap_uint (r1 + 1));
  r2 ← vec_get rk1 n2;
  rk2 ← vec_set rk1 n2 (wrap_uint (r2 - 1));
  Ok (true, mk (fromBL d) (rootedTree d) os2 rk2).

Definition moveUp (d : t) (rank : Z) : result (bool * t) :=
  if negb (fromBL d) then Abort NotDated else
  if rank =? 0 then Ok (false, d) else
  (* move the previous node one rank away from the root *)
  moveDown d (wrap_uint (rank - 1)).

(* the loop of restore: _orderedSpeciations[_ranks[node->node_index]] = node *)
Fixpoint restore_loop (rk : list Z) (speciations : list Z) (os : list Z)
  : result (list Z) :=
  match speciations with
  | [] => Ok os
  | node :: rest =>
      r ← vec_get rk node;
      os' ← vec_set os r node;
      restore_loop rk rest os'
  end.

Definition restore (d : t) (backup : DatedBackup) : result t :=
  os ← restore_loop backup (orderedSpeciations d) (orderedSpeciations d);
  Ok (mk (fromBL d) (rootedTree d) os backup).

Definition canTransferUnderRelDated (dt : t) (e d : Z) : result bool :=
  (* the destination species (d) should be younger than
     the parent of the source species (e) *)
  if d =? e then Ok false else
  srcSpeciesNode ← getNode (rootedTree dt) e;
  match parent srcSpeciesNode with
  | None => Ok true
  | Some p =>
      rd ← vec_get (ranks dt) d;
      rp ← vec_get (ranks dt) p;
      Ok (rd >? rp)
  end.

Section Randomize.

(** [Random::getInt()] is an external service: a generator state and the
    function that draws the next value from it. *)
Context {rng : Type} (getInt : rng -> Z * rng).

(* one iteration of the while loop of randomize; toAdd holds node pointers *)
Definition randomize_step (g : rng) (toAdd : list (option Z)) (currentRank : Z)
  (d : t) : result (rng * list (option Z) * Z * t) :=
  let '(v, g') := getInt g in
  let i := wrap_uint (wrap_size v `mod` vec_size toAdd) in
  ptr ← vec_get toAdd i;
  node ← of_option ptr;
  nd ← getNode (rootedTree d) node;
  match left nd with
  | Some l =>
      os ← vec_set (orderedSpeciations d) currentRank node;
      rk ← vec_set (ranks d) node currentRank;
      toAdd1 ← vec_set toAdd i (Some l);
      Ok (g', toAdd1 ++ [right nd], wrap_uint (currentRank + 1),
          mk (fromBL d) (rootedTree d) os rk)
  | None =>
      back ← of_option (last toAdd);
      toAdd1 ← vec_set toAdd i back;
      Ok (g', removelast toAdd1, currentRank, d)
  end.

Fixpoint randomize_loop (fuel : nat) (g : rng) (toAdd : list (option Z))
  (currentRank : Z) (d : t) : result (rng * t) :=
  match toAdd with
  | [] => Ok (g, d)
  | _ :: _ =>
      match fuel with
      | O => Abort OutOfFuel
      | S fuel' =>
          '(g', toAdd', currentRank', d') ← randomize_step g toAdd currentRank d;
          randomize_loop fuel' g' toAdd' currentRank' d'
      end
  end.

Definition randomize (fuel : nat) (g : rng) (d : t) : result (rng * t) :=
  if negb (fromBL d) then Abort NotDated else
  randomize_loop fuel g [Some (root (rootedTree d))] 0 d.

End Randomize.

(** *** The data-model invariants *)

(* number of nodes of the tree *)
Definition size (d : t) : Z := Z.of_nat (length (nodes (rootedTree d))).

(** [orderedSpeciations] and [ranks] are inverse to each other over the
    nodes of the tree. The tree has a speciation (the constructor reads
    the parent of every leaf), and its node indices and ranks fit in an
    [unsigned int]. *)
Record consistent (d : t) : Prop := mk_consistent {
  size_order : Z.of_nat (length (orderedSpeciations d)) = size d;
  size_ranks : Z.of_nat (length (ranks d)) = size d;
  size_bounds : 2 <= size d <= 2 ^ 32;
  rank_of_position : forall i n,
    vec_get (orderedSpeciations d) i = Ok n -> vec_get (ranks d) n = Ok i;
  position_of_rank : forall n r,
    vec_get (ranks d) n = Ok r -> vec_get (orderedSpeciations d) r = Ok n
}.

(** Parents always have a lower rank than their children. *)
Definition parents_first (d : t) : Prop :=
  forall c nd p, getNode (rootedTree d) c = Ok nd -> parent nd = Some p ->
    exists rp rc, vec_get (ranks d) p = Ok rp /\ vec_get (ranks d) c = Ok rc
                  /\ rp < rc.

Definition invariant (d : t) : Prop := consistent d /\ parents_first d.

(* a vector with its indices *)
Definition indexed {A} (v : list A) : list (Z * A) :=
  imap (fun i a => (Z.of_nat i, a)) v.

(* checkRanks, first loop: _ranks are consistent with _orderedSpeciations.
   [Ok false] stands for an assert that fails. *)
Fixpoint checkRanks_order (d : t) (positions : list Z) : result bool :=
  match positions with
  | [] => Ok true
  | i :: rest =>
      n1 ← vec_get (orderedSpeciations d) i;
      n2 ← vec_get (orderedSpeciations d) (wrap_uint (i + 1));
      r1 ← vec_get (ranks d) n1;
      r2 ← vec_get (ranks d) n2;
      if wrap_uint (r1 + 1) =? r2 then checkRanks_order d rest else Ok false
  end.

(* checkRanks, second loop: _ranks are consistent with the tree topology *)
Fixpoint checkRanks_topology (d : t) (nds : list (Z * rnode)) : result bool :=
  match nds with
  | [] => Ok true
  | (e, node) :: rest =>
      match parent node with
      | Some p =>
          rp ← vec_get (ranks d) p;
          re ← vec_get (ranks d) e;
          if rp <? re then checkRanks_topology d rest else Ok false
      | None => checkRanks_topology d rest
      end
  end.

(** [checkRanks]: the positions [0 .. size - 2] of [orderedSpeciations],
    then all nodes of the tree; the result tells whether every assert
    holds. *)
Definition checkRanks (d : t) : result bool :=
  ordered ←
    checkRanks_order d
      (seqZ 0 (wrap_size (vec_size (orderedSpeciations d) - 1)));
  if (ordered : bool)
  then checkRanks_topology d (indexed (nodes (rootedTree d)))
  else Ok false.

Section Update.

(** [getPostOrderNodes] and [getOrderedSpeciations] are methods of
    [PLLRootedTree]: the nodes of the tree in postorder, and sorted by
    their distance to the root. *)
Variables getPostOrderNodes getOrderedSpeciations : PLLRootedTree -> list Z.



End Update.

(** [a] is a proper ancestor of [c]: the parent of [c], or an ancestor of
    that parent. *)
Inductive ancestor (tr : PLLRootedTree) : Z -> Z -> Prop :=
| ancestor_parent (c p : Z) (node : rnode) :
    getNode tr c = Ok node -> parent node = Some p -> ancestor tr p c
| ancestor_further (a c p : Z) (node : rnode) :
    getNode tr c = Ok node -> parent node = Some p -> ancestor tr a p ->
    ancestor tr a c.

Definition is_ok {A} (eqb : A -> A -> bool) (r : result A) (a : A) : bool :=
  match r with
  | Ok a' => eqb a' a
  | Abort _ => false
  end.

(** The invariants, decided. *)
Definition consistentb (d : t) : bool :=
  (Z.of_nat (length (orderedSpeciations d)) =? size d)
  && (Z.of_nat (length (ranks d)) =? size d)
  && (2 <=? size d) && (size d <=? 2 ^ 32)
  && forallb (fun '(i, n) => is_ok Z.eqb (vec_get (ranks d) n) i)
       (indexed (orderedSpeciations d))
  && forallb (fun '(n, r) => is_ok Z.eqb (vec_get (orderedSpeciations d) r) n)
       (indexed (ranks d)).

Definition parents_firstb (d : t) : bool :=
  forallb (fun '(c, nd) =>
      match parent nd with
      | None => true
      | Some p =>
          match vec_get (ranks d) p, vec_get (ranks d) c with
          | Ok rp, Ok rc => rp <? rc
          | _, _ => false
          end
      end)
    (indexed (nodes (rootedTree d))).

Definition invariantb (d : t) : bool := consistentb d && parents_firstb d.

(** *** Sequences of rank swaps *)

Inductive move :=
| Up (rank : Z)      (* moveUp(rank) *)
| Down (rank : Z).   (* moveDown(rank) *)

Definition move_rank (m : move) : Z :=
  match m with Up r | Down r => r end.

Definition apply_move (d : t) (m : move) : result (bool * t) :=
  match m with
  | Up r => moveUp d r
  | Down r => moveDown d r
  end.

(* the calls made one after the other, their return values dropped *)
Fixpoint apply_moves (d : t) (ms : list move) : result t :=
  match ms with
  | [] => Ok d
  | m :: ms' => '(_, d') ← apply_move d m; apply_moves d' ms'
  end.

(* an argument of type unsigned int *)
Definition is_uint (z : Z) : Prop := 0 <= z < 2 ^ 32.

(** *** The shape of the rooted tree

    The node table of a rooted binary tree lays out a binary tree of node
    indices: a leaf has no child, an inner node has two, and each child
    points back to its parent. *)

Inductive shape :=
| SLeaf (n : Z)
| SInner (n : Z) (l r : shape).

Definition label (s : shape) : Z :=
  match s with SLeaf n | SInner n _ _ => n end.

Fixpoint embeds (tr : PLLRootedTree) (p : option Z) (s : shape) : Prop :=
  match s with
  | SLeaf n => getNode tr n = Ok (mk_rnode p None None)
  | SInner n l r =>
      getNode tr n = Ok (mk_rnode p (Some (label l)) (Some (label r)))
      /\ embeds tr (Some n) l /\ embeds tr (Some n) r
  end.

(* the speciations, in preorder *)
Fixpoint inners (s : shape) : list Z :=
  match s with
  | SLeaf _ => []
  | SInner n l r => n :: inners l ++ inners r
  end.

(* all nodes, in preorder *)
Fixpoint labels (s : shape) : list Z :=
  match s with
  | SLeaf n => [n]
  | SInner n l r => n :: labels l ++ labels r
  end.

Definition tree_shape (tr : PLLRootedTree) (s : shape) : Prop :=
  embeds tr None s /\ label s = root tr
  /\ NoDup (labels s) /\ length (labels s) = length (nodes tr).

(** The first positions of [orderedSpeciations] are exactly the inner
    nodes. *)
Definition internals_first (d : t) (s : shape) : Prop :=
  Forall (fun '(i, n) =>
      match getNode (rootedTree d) n with
      | Ok nd => i < Z.of_nat (length (inners s)) <-> left nd <> None
      | Abort _ => False
      end)
    (indexed (orderedSpeciations d)).

(* the number of nodes of a shape, and of a list of shapes *)
Fixpoint weight (s : shape) : nat :=
  match s with
  | SLeaf _ => 1
  | SInner _ l r => S (weight l + weight r)
  end.

Definition total_weight (ps : list shape) : nat := sum_list_with weight ps.

(** *** Sequences of mutations of the dating *)

Inductive mutation :=
| Swap (m : move)     (* moveUp or moveDown *)
| Randomize.          (* randomize() *)

Definition mutation_typed (op : mutation) : Prop :=
  match op with
  | Swap m => is_uint (move_rank m)
  | Randomize => True
  end.

Section Mutate.
Context {rng : Type} (getInt : rng -> Z * rng).

Definition apply_mutation (fuel : nat) (g : rng) (d : t) (op : mutation)
  : result (rng * t) :=
  match op with
  | Swap m => '(_, d') ← apply_move d m; Ok (g, d')
  | Randomize => randomize getInt fuel g d
  end.

Fixpoint mutate (fuel : nat) (g : rng) (d : t) (ops : list mutation)
  : result (rng * t) :=
  match ops with
  | [] => Ok (g, d)
  | op :: ops' =>
      '(g', d') ← apply_mutation fuel g d op;
      mutate fuel g' d' ops'
  end.

End Mutate.

End DatedTree.

(** ** The searches over a species tree *)

Module Search.
Import DatedTree.

Definition PerFamLL := list double.

(** [SpeciesTree] owns the rooted tree and the dated tree over it. The
    dated tree refers to the rooted tree, and [DatedTree.t] carries it:
    [getDatedTree()] is the value itself, [getTree()] its
    [rootedTree]. *)
Definition SpeciesTree := DatedTree.t.

(** The collaborators of the searches, none of them in the files
    embedded here: the likelihood evaluator
    ([SpeciesTreeLikelihoodEvaluatorInterface]), the listeners of the
    species tree, the search state ([SpeciesSearchState]), the random
    generator ([Random]), the root operations of [SpeciesTreeOperator]
    and the sinks that record likelihoods. [Env] is the state of all of
    them together; an operation that can fail an assertion returns a
    [result]. The evaluator, the listeners and the search state read the
    species tree and do not write it. *)
Class Collaborators (Env : Type) := {
  (* evaluator.computeLikelihood(&perFamLL) *)
  computeLikelihood : SpeciesTree -> Env -> result (double * PerFamLL * Env);
  (* evaluator.isDated() *)
  isDated : Env -> bool;
  (* evaluator.pushRollback(), evaluator.popAndApplyRollback() *)
  pushRollback : Env -> result Env;
  popAndApplyRollback : Env -> result Env;
  (* speciesTree.onSpeciesDatesChange(): the listeners are notified *)
  onSpeciesDatesChange : SpeciesTree -> Env -> result Env;
  (* searchState.bestLL, searchState.farFromPlausible *)
  searchBestLL : Env -> double;
  farFromPlausible : Env -> bool;
  (* searchState.betterTreeCallback(ll, perFamLL) *)
  betterTreeCallback : double -> PerFamLL -> SpeciesTree -> Env -> result Env;
  (* Random::getInt(), Random::getBool() *)
  getInt : Env -> Z * Env;
  getBool : Env -> bool * Env;
  (* SpeciesTreeOperator *)
  canChangeRoot : SpeciesTree -> Z -> bool;
  changeRoot : Z -> SpeciesTree -> Env -> result (SpeciesTree * Env);
  revertChangeRoot : Z -> SpeciesTree -> Env -> result (SpeciesTree * Env);
  restoreDates : DatedBackup -> SpeciesTree -> Env -> result (SpeciesTree * Env);
  (* treePerFamLLVec->clear(), treePerFamLLVec->push_back(...) *)
  clearTreePerFamLL : Env -> Env;
  recordTreePerFamLL : SpeciesTree -> PerFamLL -> Env -> Env;
  (* rootLikelihoods->saveRootLikelihood, savePerFamilyLikelihoods *)
  recordRootLikelihood : SpeciesTree -> double -> PerFamLL -> Env -> Env
}.

(** Modelled from the spec: [PLLRootedTree::getInnerNodeNumber], the
    number of inner nodes of the tree: the nodes with a left child. *)
Definition getInnerNodeNumber (tr : PLLRootedTree) : Z :=
  wrap_uint (Z.of_nat (length (filter (fun nd => left nd <> None) (nodes tr)))).

(* double(n) for an unsigned int n *)
Definition double_of_uint (n : Z) : double :=
  binary_normalize Double.prec Double.emax n 0 false.

(* static_cast<unsigned int>(x): the fraction is dropped; a value that
   does not fit is undefined behaviour *)
Definition uint_of_double (x : double) : result Z :=
  match x with
  | S754_zero _ => Ok 0
  | S754_finite s m e =>
      let magnitude :=
        if 0 <=? e then Z.pos m * 2 ^ e else Z.pos m / 2 ^ (- e) in
      let value := if s then - magnitude else magnitude in
      if (0 <=? value) && (value <? 2 ^ 32) then Ok value
      else Abort OutOfBounds
  | _ => Abort OutOfBounds
  end.

Definition two : double := S754_finite false 4503599627370496 (-51).
(* the literal 0.1, rounded to binary64 *)
Definition one_tenth : double := S754_finite false 7205759403792794 (-56).

Section Searches.
Context {Env : Type} `{Collaborators Env}.

(** *** DatedSpeciesTreeSearch.cpp *)

(* the for loop of optimizeDatesLocal, entered at [rank] *)
Fixpoint datesLoop (fuel : nat) (searchState : bool) (maxRank rank : Z)
    (bestLL : double) (s : SpeciesTree) (e : Env)
  : result (double * SpeciesTree * Env) :=
  match fuel with
  | O => Abort OutOfFuel
  | S fuel' =>
      if negb (rank <? maxRank) then Ok (bestLL, s, e) else
      '(moved, s1) ← moveUp s rank;
      (* the node with rank gets rank-1 *)
      if negb moved
      then datesLoop fuel' searchState maxRank (wrap_uint (rank + 1)) bestLL s1 e
      else
        e1 ← onSpeciesDatesChange s1 e;
        '(ll, perFamLL, e2) ← computeLikelihood s1 e1;
        e3 ← (if searchState && gtb ll (searchBestLL e2)
              then betterTreeCallback ll perFamLL s1 e2
              else Ok e2);
        if gtb ll bestLL then
          (* the best tree over all performed iterations *)
          datesLoop fuel' searchState maxRank
            (wrap_uint (wrap_uint (rank - Z.min 2 rank) + 1)) ll s1 e3
        else
          (* reversal: the node with rank-1 gets rank *)
          '(_, s2) ← moveUp s1 rank;
          datesLoop fuel' searchState maxRank (wrap_uint (rank + 1)) bestLL s2 e3
  end.

(* the do-while loop of optimizeDatesLocal *)
Fixpoint datesRounds (fuel : nat) (searchState : bool) (maxRank : Z)
    (bestLL : double) (s : SpeciesTree) (e : Env)
  : result (double * SpeciesTree * Env) :=
  match fuel with
  | O => Abort OutOfFuel
  | S fuel' =>
      let initialItLL := bestLL in
      '(bestLL', s', e') ← datesLoop fuel' searchState maxRank 0 bestLL s e;
      (* we'll run another iteration only if the improvement is above 1.0 *)
      if gtb (sub bestLL' initialItLL) one
      then datesRounds fuel' searchState maxRank bestLL' s' e'
      else Ok (bestLL', s', e')
  end.

(* [searchState] tells whether the pointer searchState is not null *)
Definition optimizeDatesLocal (fuel : nat) (searchState : bool)
    (s : SpeciesTree) (e : Env) : result (double * SpeciesTree * Env) :=
  '(bestLL, _, e0) ← computeLikelihood s e;
  let maxRank := getInnerNodeNumber (rootedTree s) in
  '(bestLL', s', e') ← datesRounds fuel searchState maxRank bestLL s e0;
  e'' ← onSpeciesDatesChange s' e';
  Ok (bestLL', s', e'').

(* where the two inner loops of perturbateDates stand *)
Inductive loop_point :=
| AtNodeTest      (* k < nodesToMove is tested next *)
| AtStepTest.     (* j < displacement is tested next *)

(* the loops over k and j of perturbateDates *)
Fixpoint perturbMoves (fuel : nat) (isUp : bool)
    (rank nodesToMove displacement : Z) (at_ : loop_point) (k j : Z)
    (s : SpeciesTree) : result SpeciesTree :=
  match fuel with
  | O => Abort OutOfFuel
  | S fuel' =>
      match at_ with
      | AtNodeTest =>
          if k <? nodesToMove
          then perturbMoves fuel' isUp rank nodesToMove displacement
                 AtStepTest k 0 s
          else Ok s
      | AtStepTest =>
          if j <? displacement then
            '(ok, s') ← (if isUp then moveUp s (wrap_uint (rank + k - j))
                         else moveDown s (wrap_uint (rank - k + j)));
            if (ok : bool)
            then perturbMoves fuel' isUp rank nodesToMove displacement
                   AtStepTest k (wrap_uint (j + 1)) s'
            else (* break both cycles: k = nodesToMove, j = displacement *)
              perturbMoves fuel' isUp rank nodesToMove displacement
                AtStepTest nodesToMove (wrap_uint (displacement + 1)) s'
          else perturbMoves fuel' isUp rank nodesToMove displacement
                 AtNodeTest (wrap_uint (k + 1)) j s
      end
  end.

(* the outer loop of perturbateDates; Random::getInt() is an int *)
Fixpoint perturbations_loop (fuel count : nat) (N maxDisplacement : Z)
    (s : SpeciesTree) (e : Env) : result (SpeciesTree * Env) :=
  match count with
  | O => Ok (s, e)
  | S count' =>
      let '(isUp, e1) := getBool e in
      let '(r1, e2) := getInt e1 in
      if N =? 0 then Abort OutOfBounds else
      let rank := wrap_uint r1 `mod` N in
      let '(r2, e3) := getInt e2 in
      let displacement := wrap_uint (1 + wrap_uint r2 `mod` maxDisplacement) in
      let '(r3, e4) := getInt e3 in
      let nodesToMove := wrap_uint (1 + Z.rem r3 10) in
      s' ← perturbMoves fuel isUp rank nodesToMove displacement AtNodeTest 0 0 s;
      perturbations_loop fuel count' N maxDisplacement s' e4
  end.

Definition perturbateDates (fuel : nat) (perturbation : double)
    (s : SpeciesTree) (e : Env) : result (SpeciesTree * Env) :=
  (* assert(perturbation > 0.0) *)
  if negb (gtb perturbation zero) then Abort NotSupported else
  let N := getInnerNodeNumber (rootedTree s) in
  perturbations ←
    uint_of_double (mul (mul (double_of_uint N) two) perturbation);
  maxDisplacement ←
    uint_of_double (mul (mul (sqrt (double_of_uint N)) two) perturbation);
  let maxDisplacement := Z.max 2 maxDisplacement in
  '(s', e') ← perturbations_loop fuel (Z.to_nat perturbations) N
                maxDisplacement s e;
  e'' ← onSpeciesDatesChange s' e';
  Ok (s', e'').

(* the perturbation-optimization cycles of optimizeDates *)
Fixpoint optimizeDates_trials (fuel : nat) (thorough : bool)
    (unsuccessfulTrials : Z) (bestLL : double) (s : SpeciesTree) (e : Env)
  : result (double * SpeciesTree * Env) :=
  match fuel with
  | O => Abort OutOfFuel
  | S fuel' =>
      if negb (thorough && (unsuccessfulTrials <? 2)) then Ok (bestLL, s, e)
      else
        let backup := getBackup s in
        '(s1, e1) ← perturbateDates fuel' one_tenth s e;
        '(ll, s2, e2) ← optimizeDatesLocal fuel' true s1 e1;
        if gtb ll bestLL
        then optimizeDates_trials fuel' thorough 0 ll s2 e2
        else
          '(s3, e3) ← restoreDates backup s2 e2;
          optimizeDates_trials fuel' thorough
            (wrap_uint (unsuccessfulTrials + 1)) bestLL s3 e3
  end.

Definition optimizeDates (fuel : nat) (thorough : bool)
    (s : SpeciesTree) (e : Env) : result (double * SpeciesTree * Env) :=
  (* initial tree LL (it may differ from searchState.bestLL) *)
  '(initialLL, perFamLL, e1) ← computeLikelihood s e;
  e2 ← (if gtb initialLL (searchBestLL e1)
        then betterTreeCallback initialLL perFamLL s e1
        else Ok e1);
  if negb (isDated e2) then Ok (initialLL, s, e2) else
  (* initial optimization *)
  '(bestLL, s1, e3) ← optimizeDatesLocal fuel true s e2;
  optimizeDates_trials fuel thorough 0 bestLL s1 e3.

(** *** SpeciesRootSearch.cpp *)

(* the variables that rootSearchAux gets by reference *)
Record RootSearch := mk_search {
  movesHistory : list Z;
  bestMovesHistory : list Z;
  bestDatedBackup : DatedBackup;
  bestLL : double
}.

(* the optional sinks; a flag tells whether the pointer is not null *)
Definition record_likelihoods (treePerFamLLVec rootLikelihoods : bool)
    (s : SpeciesTree) (ll : double) (perFamLL : PerFamLL) (e : Env) : Env :=
  let e1 := if treePerFamLLVec then recordTreePerFamLL s perFamLL e else e in
  if rootLikelihoods then recordRootLikelihood s ll perFamLL e1 else e1.

(* the loop over the directions of rootSearchAux; [aux] is the recursive
   call of rootSearchAux and [redate] the call of optimizeDates *)
Fixpoint rootSearchAux_directions
    (aux : RootSearch -> double -> Z -> SpeciesTree -> Env ->
           result (RootSearch * SpeciesTree * Env))
    (redate : bool -> SpeciesTree -> Env -> result (double * SpeciesTree * Env))
    (treePerFamLLVec rootLikelihoods : bool) (maxDepth : Z) (moves : list Z)
    (st : RootSearch) (bestLLStack : double) (s : SpeciesTree) (e : Env)
  : result (RootSearch * SpeciesTree * Env) :=
  match moves with
  | [] => Ok (st, s, e)
  | direction :: moves' =>
      if negb (canChangeRoot s direction)
      then rootSearchAux_directions aux redate treePerFamLLVec rootLikelihoods
             maxDepth moves' st bestLLStack s e
      else
        (* movesHistory.push_back(direction) *)
        let st1 := mk_search (movesHistory st ++ [direction])
                     (bestMovesHistory st) (bestDatedBackup st) (bestLL st) in
        e1 ← pushRollback e;
        let backup := getBackup s in
        '(s2, e2) ← changeRoot direction s e1;
        '(_, s3, e3) ← redate (negb (farFromPlausible e2)) s2 e2;
        '(ll, perFamLL, e4) ← computeLikelihood s3 e3;
        let e5 := record_likelihoods treePerFamLLVec rootLikelihoods
                    s3 ll perFamLL e4 in
        let '(bestLLStack1, newMaxDepth) :=
          if gtb ll bestLLStack
          then (ll, wrap_uint (vec_size (movesHistory st1) + 2))
          else (bestLLStack, maxDepth) in
        let st2 :=
          if gtb ll (bestLL st1)
          then mk_search (movesHistory st1) (movesHistory st1)
                 (getBackup s3) ll
          else st1 in
        '(st3, s4, e6) ← aux st2 bestLLStack1 newMaxDepth s3 e5;
        '(s5, e7) ← revertChangeRoot direction s4 e6;
        '(s6, e8) ← restoreDates backup s5 e7;
        e9 ← popAndApplyRollback e8;
        (* movesHistory.pop_back() *)
        let st4 := mk_search (removelast (movesHistory st3))
                     (bestMovesHistory st3) (bestDatedBackup st3)
                     (bestLL st3) in
        rootSearchAux_directions aux redate treePerFamLLVec rootLikelihoods
          maxDepth moves' st4 bestLLStack1 s6 e9
  end.

Fixpoint rootSearchAux (fuel : nat) (treePerFamLLVec rootLikelihoods : bool)
    (st : RootSearch) (bestLLStack : double) (maxDepth : Z)
    (s : SpeciesTree) (e : Env) {struct fuel}
  : result (RootSearch * SpeciesTree * Env) :=
  match fuel with
  | O => Abort OutOfFuel
  | S fuel' =>
      if vec_size (movesHistory st) >? maxDepth then Ok (st, s, e) else
      back ← of_option (last (movesHistory st));
      let moves := [back `mod` 2; wrap_uint (2 + back `mod` 2)] in
      rootSearchAux_directions
        (rootSearchAux fuel' treePerFamLLVec rootLikelihoods)
        (optimizeDates fuel')
        treePerFamLLVec rootLikelihoods maxDepth moves st bestLLStack s e
  end.

(* the final loop of rootSearch: changeRoot along bestMovesHistory *)
Fixpoint replayMoves (moves : list Z) (s : SpeciesTree) (e : Env)
  : result (SpeciesTree * Env) :=
  match moves with
  | [] => Ok (s, e)
  | direction :: moves' =>
      '(s', e') ← changeRoot direction s e;
      replayMoves moves' s' e'
  end.

(* rootSearch up to the end of the two traversals *)
Definition rootSearch_traversals (fuel : nat)
    (treePerFamLLVec rootLikelihoods : bool) (maxDepth : Z)
    (s : SpeciesTree) (e : Env) : result (RootSearch * SpeciesTree * Env) :=
  '(initialLL, perFamLL, e1) ← computeLikelihood s e;
  let e2 := if treePerFamLLVec
            then recordTreePerFamLL s perFamLL (clearTreePerFamLL e1)
            else e1 in
  let e3 := if rootLikelihoods
            then recordRootLikelihood s initialLL perFamLL e2
            else e2 in
  let st := mk_search [1] [] (getBackup s) initialLL in
  '(st1, s1, e4) ← rootSearchAux fuel treePerFamLLVec rootLikelihoods st
                     initialLL maxDepth s e3;
  (* movesHistory[0] = 0 *)
  hist ← vec_set (movesHistory st1) 0 0;
  let st2 := mk_search hist (bestMovesHistory st1) (bestDatedBackup st1)
               (bestLL st1) in
  rootSearchAux fuel treePerFamLLVec rootLikelihoods st2 initialLL maxDepth
    s1 e4.

Definition rootSearch (fuel : nat) (treePerFamLLVec rootLikelihoods : bool)
    (maxDepth : Z) (s : SpeciesTree) (e : Env)
  : result (double * SpeciesTree * Env) :=
  '(st, s1, e1) ← rootSearch_traversals fuel treePerFamLLVec rootLikelihoods
                    maxDepth s e;
  '(s2, e2) ← replayMoves (drop 1 (bestMovesHistory st)) s1 e1;
  '(s3, e3) ← restoreDates (bestDatedBackup st) s2 e2;
  Ok (bestLL st, s3, e3).

End Searches.

(** *** What the root search expects of its collaborators

    [rollbackStack] reads the stack of checkpoints of the evaluator:
    pushRollback adds a checkpoint, popAndApplyRollback removes the last
    one, and nothing else touches the stack. A change of root keeps the
    dated tree consistent over the same nodes; the rooted tree it leaves
    depends on the rooted tree it finds and on the direction only, and
    revertChangeRoot undoes it. restoreDates restores the dating with
    [DatedTree::restore]. *)
Record RootContract {Env : Type} `{Collaborators Env} {Checkpoint : Type}
    (rollbackStack : Env -> list Checkpoint) : Prop := mk_contract {
  rc_push : forall e e', pushRollback e = Ok e' ->
    exists c, rollbackStack e' = c :: rollbackStack e;
  rc_pop : forall e e', popAndApplyRollback e = Ok e' ->
    rollbackStack e' = tail (rollbackStack e);
  rc_compute : forall s e ll perFamLL e',
    computeLikelihood s e = Ok (ll, perFamLL, e') ->
    rollbackStack e' = rollbackStack e;
  rc_notify : forall s e e', onSpeciesDatesChange s e = Ok e' ->
    rollbackStack e' = rollbackStack e;
  rc_callback : forall ll perFamLL s e e',
    betterTreeCallback ll perFamLL s e = Ok e' ->
    rollbackStack e' = rollbackStack e;
  rc_getInt : forall e, rollbackStack (getInt e).2 = rollbackStack e;
  rc_getBool : forall e, rollbackStack (getBool e).2 = rollbackStack e;
  rc_clear : forall e, rollbackStack (clearTreePerFamLL e) = rollbackStack e;
  rc_recordTree : forall s perFamLL e,
    rollbackStack (recordTreePerFamLL s perFamLL e) = rollbackStack e;
  rc_recordRoot : forall s ll perFamLL e,
    rollbackStack (recordRootLikelihood s ll perFamLL e) = rollbackStack e;
  rc_change_stack : forall dir s e s' e',
    changeRoot dir s e = Ok (s', e') -> rollbackStack e' = rollbackStack e;
  rc_revert_stack : forall dir s e s' e',
    revertChangeRoot dir s e = Ok (s', e') -> rollbackStack e' = rollbackStack e;
  rc_restore_stack : forall backup s e s' e',
    restoreDates backup s e = Ok (s', e') -> rollbackStack e' = rollbackStack e;
  rc_change_tree : forall dir s e s' e',
    consistent s -> changeRoot dir s e = Ok (s', e') ->
    consistent s' /\ size s' = size s /\ fromBL s' = fromBL s;
  rc_revert_tree : forall dir s e s' e',
    consistent s -> revertChangeRoot dir s e = Ok (s', e') ->
    consistent s' /\ size s' = size s /\ fromBL s' = fromBL s;
  rc_change_root : forall dir s1 e1 s1' e1' s2 e2 s2' e2',
    changeRoot dir s1 e1 = Ok (s1', e1') ->
    changeRoot dir s2 e2 = Ok (s2', e2') ->
    rootedTree s1 = rootedTree s2 -> rootedTree s1' = rootedTree s2';
  rc_revert_root : forall dir s e s1 e1 s2 e2 s3 e3,
    changeRoot dir s e = Ok (s1, e1) -> rootedTree s2 = rootedTree s1 ->
    revertChangeRoot dir s2 e2 = Ok (s3, e3) -> rootedTree s3 = rootedTree s;
  rc_restore : forall backup s e s' e',
    restoreDates backup s e = Ok (s', e') -> restore s backup = Ok s'
}.

End Search.

(** ** The transfer score of a dating: getTransferScore *)

Module TransferScore.
Import DatedTree.

(* struct TransferFrequencies { MatrixUint count; VectorString idToLabel; } *)
Record TransferFrequencies := mk_frequencies {
  count : list (list Z);
  idToLabel : list string
}.

(* using StringToUint = std::unordered_map<std::string, unsigned int> *)
Definition StringToUint := gmap string Z.

(* labelToId[label]: for a key that is absent operator[] of the map adds
   the key with the value 0 and returns it *)
Definition at_label (labelToId : StringToUint) (label : string) : Z :=
  default 0 (labelToId !! label).

Section Score.

(** [labelToId] is what [speciesTree.getLabelToId] fills in, and
    [datedTree] is [speciesTree.getDatedTree()]. *)
Variable labelToId : StringToUint.
Variable datedTree : DatedTree.t.
Variable frequencies : TransferFrequencies.

(* the body of the two loops, at the pair (from, to) *)
Definition score_pair (from to : Z) (score : Z) : result Z :=
  row ← vec_get (count frequencies) from;
  cnt ← vec_get row to;
  if cnt =? 0 then Ok score else
  (* check if the current dating permits the precomputed transfer *)
  fromLabel ← vec_get (idToLabel frequencies) from;
  toLabel ← vec_get (idToLabel frequencies) to;
  let src := at_label labelToId fromLabel in
  let dest := at_label labelToId toLabel in
  permitted ← canTransferUnderRelDated datedTree src dest;
  Ok (if (permitted : bool) then wrap_uint (score + cnt) else score).

(* for (unsigned int to = 0; to < N; ++to) *)
Fixpoint score_row (from : Z) (tos : list Z) (score : Z) : result Z :=
  match tos with
  | [] => Ok score
  | to :: rest =>
      score' ← score_pair from to score;
      score_row from rest score'
  end.

(* for (unsigned int from = begin; from < end; ++from) *)
Fixpoint score_rows (N : Z) (froms : list Z) (score : Z) : result Z :=
  match froms with
  | [] => Ok score
  | from :: rest =>
      score' ← score_row from (seqZ 0 N) score;
      score_rows N rest score'
  end.

(** [getTransferScore] up to the call of [ParallelContext::sumUInt]: the
    score that a worker accumulates over the rows from [begin] to [end_],
    the values of [ParallelContext::getBegin(N)] and [getEnd(N)]. *)
Definition getTransferScore (begin end_ : Z) : result Z :=
  let N := vec_size (count frequencies) in
  score_rows N (seqZ begin (end_ - begin)) 0.

End Score.

End TransferScore.

(** ** Datings from the reconciliation: getBestDatingsFromReconciliation *)

Module BestDatings.
Import DatedTree Search TransferScore.

(* struct ScoredBackup { DatedBackup backup; double score; } *)
Record ScoredBackup := mk_scored {
  backup : DatedBackup;
  score : double
}.

(* ScoredBackup::operator< *)
Definition ScoredBackup_lt (a b : ScoredBackup) : bool :=
  ltb (score a) (score b).

(* scoredBackups.resize(n): the vector is cut, or filled up with
   ScoredBackup() *)
Definition resize (v : list ScoredBackup) (n : Z) : list ScoredBackup :=
  take (Z.to_nat n) v
  ++ replicate (Z.to_nat n - length v) (mk_scored [] zero).

Section Datings.
Context {Env : Type} `{Collaborators Env}.

(** What the function gets from code that is not embedded here: the
    transfer frequencies of the evaluator
    ([evaluator.getTransferInformation]), the labels of the species
    ([speciesTree.getLabelToId]), the rows and the sum of the parallel
    context ([ParallelContext::getBegin], [getEnd], [sumUInt]) and the
    sort of the standard library, called on the reverse iterators of the
    vector. *)
Variable getTransferInformation :
  SpeciesTree -> Env -> result (TransferFrequencies * Env).
Variable getLabelToId : SpeciesTree -> StringToUint.
Variables getBegin getEnd : Z -> Z.
Variable sumUInt : Z -> Z.
Variable sort_descending : list ScoredBackup -> list ScoredBackup.

(** [TransferScoreEvaluator]: its likelihood is the transfer score. Its
    other members are [assert(false)]; the search that is run with it,
    [optimizeDatesLocal] without a search state, calls none of them, and
    the members that are not of the evaluator are those of the
    collaborators. *)
Definition TransferScoreEvaluator (frequencies : TransferFrequencies)
  : Collaborators Env := {|
  computeLikelihood s e :=
    let N := vec_size (count frequencies) in
    local ← getTransferScore (getLabelToId s) s frequencies
              (getBegin N) (getEnd N);
    Ok (double_of_uint (sumUInt local), [], e);
  Search.isDated := Search.isDated;
  pushRollback e := Abort NotSupported;
  popAndApplyRollback e := Abort NotSupported;
  onSpeciesDatesChange := onSpeciesDatesChange;
  searchBestLL := searchBestLL;
  farFromPlausible := farFromPlausible;
  betterTreeCallback := betterTreeCallback;
  getInt := getInt;
  getBool := getBool;
  canChangeRoot := canChangeRoot;
  changeRoot := changeRoot;
  revertChangeRoot := revertChangeRoot;
  restoreDates := restoreDates;
  clearTreePerFamLL := clearTreePerFamLL;
  recordTreePerFamLL := recordTreePerFamLL;
  recordRootLikelihood := recordRootLikelihood
|}.

(* the thorough round: the while loop over the unsuccessful trials *)
Fixpoint datings_trials (fuel : nat) (frequencies : TransferFrequencies)
    (unsuccessfulTrials : Z) (bestScore : double) (s : SpeciesTree) (e : Env)
  : result (double * SpeciesTree * Env) :=
  match fuel with
  | O => Abort OutOfFuel
  | S fuel' =>
      if negb (unsuccessfulTrials <? 20) then Ok (bestScore, s, e) else
      let backup := getBackup s in
      (* the perturbation parameter increases with the number of failures *)
      let perturbation :=
        div (double_of_uint (wrap_uint (unsuccessfulTrials + 1)))
            (double_of_uint 20) in
      '(s1, e1) ← perturbateDates fuel' perturbation s e;
      '(score, s2, e2) ←
        @optimizeDatesLocal Env (TransferScoreEvaluator frequencies)
          fuel' false s1 e1;
      if gtb score bestScore
      then (* better tree found, reset the algorithm *)
        datings_trials fuel' frequencies 0 score s2 e2
      else
        (* this tree is worse than the best one, we rollback *)
        '(s3, e3) ← restoreDates backup s2 e2;
        datings_trials fuel' frequencies
          (wrap_uint (unsuccessfulTrials + 1)) bestScore s3 e3
  end.

(* start multiple searches from random datings: the loop over i *)
Fixpoint datings_loop (fuel : nat) (frequencies : TransferFrequencies)
    (toTest : nat) (scoredBackups : list ScoredBackup)
    (s : SpeciesTree) (e : Env)
  : result (list ScoredBackup * SpeciesTree * Env) :=
  match toTest with
  | O => Ok (scoredBackups, s, e)
  | S toTest' =>
      '(e1, s1) ← randomize getInt fuel e s;
      (* first local search to get to a good starting tree *)
      '(bestScore, s2, e2) ←
        @optimizeDatesLocal Env (TransferScoreEvaluator frequencies)
          fuel false s1 e1;
      '(bestScore', s3, e3) ← datings_trials fuel frequencies 0 bestScore s2 e2;
      datings_loop fuel frequencies toTest'
        (scoredBackups ++ [mk_scored (getBackup s3) bestScore']) s3 e3
  end.

(* for each dating compute the real likelihood (not the transfer score)
   and set it as the dating score *)
Fixpoint rescore (scoredBackups : list ScoredBackup) (s : SpeciesTree)
    (e : Env) : result (list ScoredBackup * SpeciesTree * Env) :=
  match scoredBackups with
  | [] => Ok ([], s, e)
  | sb :: rest =>
      '(s1, e1) ← restoreDates (backup sb) s e;
      '(ll, _, e2) ← computeLikelihood s1 e1;
      '(rest', s2, e3) ← rescore rest s1 e2;
      Ok (mk_scored (backup sb) ll :: rest', s2, e3)
  end.

Definition getBestDatingsFromReconciliation (fuel : nat) (toTest toTake : Z)
    (s : SpeciesTree) (e : Env)
  : result (list ScoredBackup * SpeciesTree * Env) :=
  (* assert(toTake <= toTest) *)
  if negb (toTake <=? toTest) then Abort NotSupported else
  let reconciliationDatingBackup := getBackup s in
  (* get the transfers from reconciliations *)
  '(frequencies, e1) ← getTransferInformation s e;
  '(scoredBackups, s1, e2) ←
    datings_loop fuel frequencies (Z.to_nat toTest) [] s e1;
  (* sort the datings by transfer score and take the best ones *)
  let best := resize (sort_descending scoredBackups) toTake in
  '(rescored, s2, e3) ← rescore best s1 e2;
  (* reset the tree to its initial dating *)
  '(s3, e4) ← restoreDates reconciliationDatingBackup s2 e3;
  Ok (sort_descending rescored, s3, e4).

End Datings.

End BestDatings.

(** *** The tree of scenario S1

    [((A:1,B:1):1,(C:1,D:1):1)] with the leaves [A], [B], [C], [D] at the
    indices 0 to 3, the inner nodes [L] and [R] at 4 and 5 and the root
    at 6. *)

Module S1.
Import DatedTree.

Definition leaf (p : Z) : rnode := mk_rnode (Some p) None None.

Definition tree : PLLRootedTree :=
  mk_rooted
    [leaf 4; leaf 4; leaf 5; leaf 5;
     mk_rnode (Some 6) (Some 0) (Some 1);
     mk_rnode (Some 6) (Some 2) (Some 3);
     mk_rnode None (Some 4) (Some 5)]
    6.

(* ranks: root 0, L 1, R 2, then the leaves *)
Definition dated : DatedTree.t :=
  DatedTree.mk true tree [6; 4; 5; 0; 1; 2; 3] [3; 4; 5; 6; 1; 2; 0].

Definition tree_as_shape : shape :=
  SInner 6 (SInner 4 (SLeaf 0) (SLeaf 1)) (SInner 5 (SLeaf 2) (SLeaf 3)).

(* a generator that counts: the n-th draw is n *)
Definition counter (g : Z) : Z * Z := (g, g + 1).

End S1.

(** *** Collaborators to run the searches with

    A scorer that is a function [score] of the species tree, a stack of
    checkpoints, a counting random generator, and a stand-in for the root
    changes: a change of root in direction [dir] moves the root index by
    [dir + 1], and is allowed below the index [limit]. *)

Module Toy.
Import DatedTree Search.

Record env := mk_env { rollback : list Z; seed : Z }.

Definition next (e : env) : env := mk_env (rollback e) (seed e + 1).

Definition move_root (by_ : Z) (s : SpeciesTree) : SpeciesTree :=
  DatedTree.mk (fromBL s)
    (mk_rooted (nodes (rootedTree s)) (root (rootedTree s) + by_))
    (orderedSpeciations s) (ranks s).

Definition collaborators (score : SpeciesTree -> double) (limit : Z)
  : Collaborators env := {|
  computeLikelihood s e := Ok (score s, [], e);
  isDated e := true;
  pushRollback e := Ok (mk_env (seed e :: rollback e) (seed e));
  popAndApplyRollback e :=
    match rollback e with
    | [] => Abort NotSupported
    | _ :: stack => Ok (mk_env stack (seed e))
    end;
  onSpeciesDatesChange s e := Ok e;
  searchBestLL e := zero;
  farFromPlausible e := false;
  betterTreeCallback ll perFamLL s e := Ok e;
  getInt e := (seed e, next e);
  getBool e := (Z.even (seed e), next e);
  canChangeRoot s dir := root (rootedTree s) + 1 + dir <? limit;
  changeRoot dir s e := Ok (move_root (dir + 1) s, e);
  revertChangeRoot dir s e := Ok (move_root (- (dir + 1)) s, e);
  restoreDates backup s e := s' ← restore s backup; Ok (s', e);
  clearTreePerFamLL e := e;
  recordTreePerFamLL s perFamLL e := e;
  recordRootLikelihood s ll perFamLL e := e
|}.

(* a score of the dating: 1 when the node R of S1 has rank 1, else 0 *)
Definition score_of_dating (rk os : list Z) : double :=
  match rk !! 5%nat with
  | Some 1 => one
  | _ => zero
  end.

(* a score of the root: its index *)
Definition score_of_root (s : SpeciesTree) : double :=
  double_of_uint (root (rootedTree s)).

Definition start : env := mk_env [] 0.

End Toy.


(** * Properties *)

(** ** Binary64 facts *)

Section DoubleFacts.

(* comparison of two finite numbers of the same sign, decided *)
Ltac order_cases e e' m m' :=
  change (Pos.compare_cont Eq m m') with (m ?= m')%positive in *;
  change (Pos.compare_cont Eq m' m) with (m' ?= m)%positive in *;
  destruct (Z.compare_spec e e'), (Z.compare_spec e' e); try lia;
  destruct (Pos.compare_spec m m'), (Pos.compare_spec m' m); try lia;
  simpl in *; try discriminate; try reflexivity.

Lemma ltb_irrefl (x : double) : ltb x x = false.
Proof.
  unfold ltb, SFltb.
  destruct x as [[]|[]| |[] m e]; simpl; try reflexivity;
    rewrite Z.compare_refl, Pos.compare_cont_refl; reflexivity.
Qed.

Lemma ltb_not_geb (x y : double) : ltb x y = true -> geb x y = false.
Proof.
  unfold ltb, geb, SFltb, SFleb.
  destruct x as [[]|[]| |[] m e], y as [[]|[]| |[] m' e']; simpl;
    try discriminate; try reflexivity; order_cases e e' m m'.
Qed.

Lemma geb_not_ltb (x y : double) : geb x y = true -> ltb x y = false.
Proof.
  intros H. destruct (ltb x y) eqn:E; [|reflexivity].
  apply ltb_not_geb in E. congruence.
Qed.

Lemma ltb_trans (x y z : double) :
  ltb x y = true -> ltb y z = true -> ltb x z = true.
Proof.
  unfold ltb, SFltb.
  destruct x as [[]|[]| |[] m e], y as [[]|[]| |[] m' e'],
    z as [[]|[]| |[] m'' e'']; simpl;
    try discriminate; try reflexivity;
    change (Pos.compare_cont Eq m m') with (m ?= m')%positive;
    change (Pos.compare_cont Eq m' m'') with (m' ?= m'')%positive;
    change (Pos.compare_cont Eq m m'') with (m ?= m'')%positive;
    destruct (Z.compare_spec e e'), (Z.compare_spec e' e''),
      (Z.compare_spec e e''); try lia; try discriminate; try reflexivity;
    destruct (Pos.compare_spec m m'), (Pos.compare_spec m' m''),
      (Pos.compare_spec m m''); try lia; simpl; try discriminate;
    try reflexivity.
Qed.

Lemma ltb_finite (m m' : positive) (e e' : Z) :
  ltb (S754_finite false m e) (S754_finite false m' e') = true
  <-> e < e' \/ (e = e' /\ Z.pos m < Z.pos m').
Proof.
  unfold ltb, SFltb, SFcompare.
  change (Pos.compare_cont Eq m m') with (Z.pos m ?= Z.pos m').
  destruct (Z.compare_spec e e'); [destruct (Z.compare_spec (Z.pos m) (Z.pos m'))|..];
    split; try discriminate; try lia; reflexivity.
Qed.

Lemma ltb_leb (x y : double) : ltb x y = true -> leb x y = true.
Proof.
  unfold ltb, leb, SFltb, SFleb. destruct (SFcompare x y) as [[]|]; auto.
Qed.

Lemma leb_refl (x : double) : is_nan x = false -> leb x x = true.
Proof.
  unfold leb, SFleb.
  destruct x as [[]|[]| |[] m e]; simpl; try reflexivity; try discriminate;
    intros _; rewrite Z.compare_refl, Pos.compare_cont_refl; reflexivity.
Qed.

Lemma ltb_not_nan (x y : double) : ltb x y = true -> is_nan y = false.
Proof.
  unfold ltb, SFltb.
  destruct x as [[]|[]| |[] m e], y as [[]|[]| |[] m' e']; simpl;
    try discriminate; reflexivity.
Qed.

Lemma leb_ltb_trans (x y z : double) :
  leb x y = true -> ltb y z = true -> leb x z = true.
Proof.
  unfold leb, ltb, SFleb, SFltb.
  destruct x as [[]|[]| |[] m e], y as [[]|[]| |[] m' e'],
    z as [[]|[]| |[] m'' e'']; simpl;
    try discriminate; try reflexivity;
    change (Pos.compare_cont Eq m m') with (Z.pos m ?= Z.pos m');
    change (Pos.compare_cont Eq m' m'') with (Z.pos m' ?= Z.pos m'');
    change (Pos.compare_cont Eq m m'') with (Z.pos m ?= Z.pos m'');
    destruct (Z.compare_spec e e'), (Z.compare_spec e' e''),
      (Z.compare_spec e e''); try lia; try discriminate; try reflexivity;
    destruct (Z.compare_spec (Z.pos m) (Z.pos m')),
      (Z.compare_spec (Z.pos m') (Z.pos m'')),
      (Z.compare_spec (Z.pos m) (Z.pos m'')); try lia; simpl;
    try discriminate; try reflexivity.
Qed.

(** [x - x] is zero or not a number, and never above one. *)
Lemma sub_diag_not_above_one (x : double) : gtb (sub x x) one = false.
Proof.
  unfold gtb, sub, SFsub.
  destruct x as [[]|[]| |s m e]; try reflexivity.
  rewrite Z.sub_diag. reflexivity.
Qed.

Lemma digits2_pos_size (m : positive) : digits2_pos m = Pos.size m.
Proof. induction m; simpl; congruence. Qed.

Lemma digits2_pos_53 (m : positive) :
  digits2_pos m = 53%positive -> 4503599627370496 <= Z.pos m.
Proof.
  intros H. rewrite digits2_pos_size in H.
  pose proof (Pos.size_le m) as Hle. rewrite H in Hle.
  apply Pos2Z.pos_le_pos in Hle.
  change (Z.pos (2 ^ 53)) with 9007199254740992 in Hle. lia.
Qed.

End DoubleFacts.

(** ** ScaledValue *)

Module ScaledValueFacts.
Import ScaledValue.

Lemma pow2_52_mul (m : positive) :
  (4503599627370496 * m)%positive = Pos.iter xO m 52.
Proof. reflexivity. Qed.

Lemma digits2_pos_iter_xO (m : positive) :
  digits2_pos (Pos.iter xO m 52) = (digits2_pos m + 52)%positive.
Proof. simpl. lia. Qed.

Lemma shr_52_iter_xO (m : positive) :
  SpecFloat.iter_pos shr_1 52
    {| shr_m := Z.pos (Pos.iter xO m 52); shr_r := false; shr_s := false |}
  = {| shr_m := Z.pos m; shr_r := false; shr_s := false |}.
Proof. reflexivity. Qed.

(** Multiplying a normal number by [2^256] only moves the exponent. *)
Lemma mul_factor_normal (s : bool) (m : positive) (e : Z) :
  digits2_pos m = 53%positive -> -1330 <= e <= 715 ->
  mul (S754_finite s m e) JS_SCALE_FACTOR = S754_finite s m (e + 256).
Proof.
  intros Hd He.
  unfold mul, JS_SCALE_FACTOR, SFmul, binary_round_aux.
  rewrite xorb_false_r, (Pos.mul_comm m), pow2_52_mul.
  unfold shr_fexp at 1. unfold Zdigits2.
  rewrite digits2_pos_iter_xO, Hd.
  unfold fexp, emin, Double.prec, Double.emax.
  replace (Z.max (Z.pos (53 + 52) + (e + 204) - 53) (3 - 1024 - 53) - (e + 204))
    with 52 by lia.
  cbn [shr_record_of_loc shr]. rewrite shr_52_iter_xO.
  cbn [shr_m loc_of_shr_record round_nearest_even].
  unfold shr_fexp, Zdigits2. rewrite Hd.
  unfold fexp, emin.
  replace (Z.max (53 + (e + 204 + 52) - 53) (3 - 1024 - 53) - (e + 204 + 52))
    with 0 by lia.
  cbn [shr_record_of_loc shr shr_m].
  replace (e + 204 + 52) with (e + 256) by lia.
  destruct (Z.leb_spec (e + 256) (1024 - 53)); [reflexivity | lia].
Qed.

(** Beyond that range the product with [2^256] leaves the finite numbers. *)
Lemma mul_factor_overflow (s : bool) (m : positive) (e : Z) :
  digits2_pos m = 53%positive -> 715 < e ->
  mul (S754_finite s m e) JS_SCALE_FACTOR = S754_infinity s.
Proof.
  intros Hd He.
  unfold mul, JS_SCALE_FACTOR, SFmul, binary_round_aux.
  rewrite xorb_false_r, (Pos.mul_comm m), pow2_52_mul.
  unfold shr_fexp at 1. unfold Zdigits2.
  rewrite digits2_pos_iter_xO, Hd.
  unfold fexp, emin, Double.prec, Double.emax.
  replace (Z.max (Z.pos (53 + 52) + (e + 204) - 53) (3 - 1024 - 53) - (e + 204))
    with 52 by lia.
  cbn [shr_record_of_loc shr]. rewrite shr_52_iter_xO.
  cbn [shr_m loc_of_shr_record round_nearest_even].
  unfold shr_fexp, Zdigits2. rewrite Hd.
  unfold fexp, emin.
  replace (Z.max (53 + (e + 204 + 52) - 53) (3 - 1024 - 53) - (e + 204 + 52))
    with 0 by lia.
  cbn [shr_record_of_loc shr shr_m].
  replace (e + 204 + 52) with (e + 256) by lia.
  destruct (Z.leb_spec (e + 256) (1024 - 53)); [lia | reflexivity].
Qed.

Lemma threshold_value :
  JS_SCALE_THRESHOLD = S754_finite false 4503599627370496 (-308).
Proof. reflexivity. Qed.

Lemma threshold_squared_value :
  JS_SCALE_THRESHOLD_SQUARED = S754_finite false 4503599627370496 (-564).
Proof. reflexivity. Qed.

Lemma null_scaler_value : NULL_SCALER = 1073741822.
Proof. reflexivity. Qed.

(** A canonical finite number that is not below [2^-512] is normal. *)
Lemma normal_above_threshold_squared (m : positive) (e : Z) :
  valid (S754_finite false m e) = true ->
  ltb (S754_finite false m e) JS_SCALE_THRESHOLD_SQUARED = false ->
  digits2_pos m = 53%positive /\ -564 <= e <= 971.
Proof.
  rewrite threshold_squared_value.
  unfold valid, valid_binary, bounded, canonical_mantissa, fexp, emin,
    Double.prec, Double.emax.
  intros Hv Hlt. apply andb_true_iff in Hv as [Hc Hb].
  apply Z.eqb_eq in Hc. apply Z.leb_le in Hb.
  destruct (Z.lt_ge_cases e (-564)) as [He|He].
  - rewrite (proj2 (ltb_finite _ _ _ _)) in Hlt by lia. discriminate.
  - lia.
Qed.

(** [scale] at work on the three kinds of value. *)
Lemma scale_above (x : t) :
  ltb (value x) JS_SCALE_THRESHOLD = false -> scale x = x.
Proof. unfold scale. intros ->. reflexivity. Qed.

Lemma scale_zero (s : bool) (k : Z) :
  scale (mk (S754_zero s) k) = mk (S754_zero s) NULL_SCALER.
Proof. destruct s; reflexivity. Qed.

(** C9, as amended. One call of [scale] multiplies by [2^256] once, so a
    second call is without effect exactly when the first one has reached
    the threshold: for every binary64 value that is zero or not below
    [2^-512] (infinities and NaN included), [scale] is idempotent. *)
Theorem scale_idempotent_from_threshold_squared (x : t) :
  valid (value x) = true ->
  ltb (value x) JS_SCALE_THRESHOLD_SQUARED = false
    \/ eqb (value x) zero = true ->
  scale (scale x) = scale x.
Proof.
  intros Hv Hx. destruct x as [v k].
  destruct v as [s|s| |s m e]; simpl in *.
  - rewrite !scale_zero. reflexivity.
  - destruct s, Hx as [Hx|Hx]; try discriminate Hx; reflexivity.
  - reflexivity.
  - destruct Hx as [Hx|Hx]; [|destruct s; discriminate Hx].
    destruct s; [discriminate Hx|].
    destruct (normal_above_threshold_squared m e Hv Hx) as [Hd He].
    destruct (ltb (S754_finite false m e) JS_SCALE_THRESHOLD) eqn:Hlt.
    + assert (Hm : 4503599627370496 <= Z.pos m)
        by (apply digits2_pos_53, Hd).
      assert (He' : e < -308).
      { rewrite threshold_value in Hlt. apply ltb_finite in Hlt. lia. }
      assert (Hs : scale (mk (S754_finite false m e) k)
                   = mk (S754_finite false m (e + 256)) (wrap_int (k + 1))).
      { unfold scale. cbn [value scaler]. rewrite Hlt.
        rewrite mul_factor_normal by (auto; lia). reflexivity. }
      rewrite Hs. apply scale_above. cbn [value].
      rewrite threshold_value.
      destruct (ltb (S754_finite false m (e + 256)) _) eqn:Hlt2;
        [|reflexivity].
      apply ltb_finite in Hlt2. lia.
    + rewrite (scale_above (mk _ k) Hlt). apply scale_above, Hlt.
Qed.

(* 2^-400 lies between the squared threshold and the threshold: it is
   rescaled once, and the result is left alone by a second call. *)
Lemma scale_idempotent_witness :
  ltb (S754_finite false 4503599627370496 (-452)) JS_SCALE_THRESHOLD = true
  /\ scale (of_double (S754_finite false 4503599627370496 (-452)))
     = mk (S754_finite false 4503599627370496 (-196)) 1
  /\ scale (scale (of_double (S754_finite false 4503599627370496 (-452))))
     = scale (of_double (S754_finite false 4503599627370496 (-452))).
Proof.
  split; [reflexivity | split; [reflexivity |]].
  apply scale_idempotent_from_threshold_squared.
  - reflexivity.
  - left. reflexivity.
Defined.

(** C9, as stated, fails: [2^-600] is lifted to [2^-344] by the first call
    and to [2^-88] by the second. *)
Lemma scale_not_idempotent :
  let x := of_double (S754_finite false 4503599627370496 (-652)) in
  scale x = mk (S754_finite false 4503599627370496 (-396)) 1
  /\ scale (scale x) = mk (S754_finite false 4503599627370496 (-140)) 2
  /\ scale (scale x) <> scale x.
Proof. repeat split. vm_compute. discriminate. Qed.

(** C7, as amended: [a >= b] is the negation of [a < b], and null against
    null is [true]. *)
Theorem ge_is_not_lt (a b : t) :
  ge a b = negb (lt a b)
  /\ (isNull a = true -> isNull b = true -> ge a b = true).
Proof.
  split; [reflexivity|].
  unfold ge, lt. intros -> ->. reflexivity.
Qed.

Lemma ge_is_not_lt_witness :
  ge null null = negb (lt null null) /\ ge null null = true.
Proof.
  destruct (ge_is_not_lt null null) as [H1 H2].
  split; [exact H1 | apply H2; reflexivity].
Defined.

(** C7, as stated, fails on the default-constructed null value. *)
Lemma ge_null_null_is_true :
  isNull null = true /\ ge null null <> false.
Proof. split; [reflexivity | discriminate]. Qed.

(** C10. A value field equal to [0.0] makes the number null whatever the
    scaler: [isNull] holds, it is [<] every number with a non-zero value
    and [<=] every number. *)
Theorem null_decided_by_value (x : t) :
  eqb (value x) zero = true ->
  isNull x = true
  /\ (forall v : t, eqb (value v) zero = false -> lt x v = true)
  /\ (forall v : t, le x v = true).
Proof.
  intros Hx. unfold lt, le, isNull. rewrite Hx.
  split; [reflexivity|]. split; [|reflexivity].
  intros v ->. reflexivity.
Qed.

Lemma null_decided_by_value_witness :
  isNull (of_double zero) = true
  /\ (forall v : t, eqb (value v) zero = false -> lt (of_double zero) v = true)
  /\ (forall v : t, le (of_double zero) v = true).
Proof. apply (null_decided_by_value (of_double zero)). reflexivity. Defined.

(** A difference that is not a number is not negative, and the assertion
    rejects it. *)
Lemma minus_nan (x v : t) :
  scaler v = scaler x -> is_nan (sub (value x) (value v)) = true ->
  minus x v = Abort NegativeSubtraction.
Proof.
  intros He Hn. unfold minus. apply Z.eqb_eq in He. rewrite He.
  destruct (sub (value x) (value v)); try discriminate Hn. reflexivity.
Qed.

(** C8, as amended. The cases of [operator-]. With equal scalers: a
    difference that is negative and within the tolerance gives the null
    value; a difference that is negative beyond the tolerance fails the
    assertion; a difference that is not a number (as between two infinite
    values) fails the assertion too; a difference that is [>= 0] is
    returned with [scale()] applied. With [v.scaler < scaler] the
    assertion fails, and with [v.scaler > scaler] the left operand is
    returned. *)
Theorem minus_cases (x v : t) :
  let d := sub (value x) (value v) in
  (scaler v = scaler x ->
     (ltb d zero = true -> ltb (fabs d) tolerance = true ->
        minus x v = Ok null)
     /\ (ltb d zero = true -> ltb (fabs d) tolerance = false ->
        minus x v = Abort NegativeSubtraction)
     /\ (is_nan d = true -> minus x v = Abort NegativeSubtraction)
     /\ (geb d zero = true ->
        minus x v = Ok (scale (mk d (scaler x)))))
  /\ (scaler v < scaler x -> minus x v = Abort NegativeSubtraction)
  /\ (scaler v > scaler x -> minus x v = Ok x).
Proof.
  intros d. split; [|split].
  - intros He. split; [|split; [|split]].
    + intros Hneg Htol. unfold minus. fold d. apply Z.eqb_eq in He.
      rewrite He, Hneg, Htol. reflexivity.
    + intros Hneg Htol. unfold minus. fold d. apply Z.eqb_eq in He.
      rewrite He, Hneg, Htol, (ltb_not_geb _ _ Hneg). reflexivity.
    + intros Hnan. apply minus_nan; assumption.
    + intros Hpos. unfold minus. fold d. apply Z.eqb_eq in He.
      rewrite He, Hpos, (geb_not_ltb _ _ Hpos). reflexivity.
  - intros Hlt. unfold minus.
    destruct (Z.eqb_spec (scaler v) (scaler x)); [lia|].
    destruct (Z.ltb_spec (scaler v) (scaler x)); [reflexivity | lia].
  - intros Hgt. unfold minus.
    destruct (Z.eqb_spec (scaler v) (scaler x)); [lia|].
    destruct (Z.ltb_spec (scaler v) (scaler x)); [lia | reflexivity].
Qed.

Lemma minus_cases_witness :
  minus (of_double one) (of_double one)
    = Ok (scale (mk (sub one one) 0))
  /\ minus (of_double zero) (of_double tolerance) = Abort NegativeSubtraction
  /\ minus (of_double (S754_infinity false)) (of_double (S754_infinity false))
     = Abort NegativeSubtraction
  /\ minus (mk one 1) (of_double one) = Abort NegativeSubtraction
  /\ minus (of_double one) (mk one 1) = Ok (of_double one).
Proof.
  destruct (minus_cases (of_double one) (of_double one)) as [H1 _].
  destruct (H1 eq_refl) as (_ & _ & _ & H3).
  destruct (minus_cases (of_double zero) (of_double tolerance)) as [H6 _].
  destruct (H6 eq_refl) as (_ & H7 & _).
  destruct (minus_cases (of_double (S754_infinity false))
              (of_double (S754_infinity false))) as [H8 _].
  destruct (H8 eq_refl) as (_ & _ & H9 & _).
  destruct (minus_cases (mk one 1) (of_double one)) as (_ & H4 & _).
  destruct (minus_cases (of_double one) (mk one 1)) as (_ & _ & H5).
  split; [|split; [|split; [|split]]].
  - apply H3. vm_compute. reflexivity.
  - apply H7; vm_compute; reflexivity.
  - apply H9. vm_compute. reflexivity.
  - apply H4. vm_compute. reflexivity.
  - apply H5. vm_compute. reflexivity.
Defined.

(** C8, as stated, fails on the sum of two largest finite values: the sum
    is infinite, its difference with itself is not a number, hence not
    negative, and [operator-] does not return the scaled difference: the
    assertion fails. *)
Lemma minus_of_infinities_aborts :
  exists x : t,
    x = plus (of_double DBL_MAX) (of_double DBL_MAX)
    /\ value x = S754_infinity false
    /\ ltb (sub (value x) (value x)) zero = false
    /\ minus x x <> Ok (scale (mk (sub (value x) (value x)) (scaler x)))
    /\ minus x x = Abort NegativeSubtraction.
Proof.
  exists (plus (of_double DBL_MAX) (of_double DBL_MAX)).
  split; [reflexivity|]. split; [reflexivity|]. split; [reflexivity|].
  split; [vm_compute; discriminate | reflexivity].
Qed.

End ScaledValueFacts.

(** ** Vectors *)

Section VectorFacts.
Context {A : Type}.
Implicit Types (v : list A) (i j : Z) (a : A).

Lemma vec_get_Ok v i a :
  vec_get v i = Ok a <-> 0 <= i /\ v !! Z.to_nat i = Some a.
Proof.
  unfold vec_get. destruct (Z.ltb_spec i 0).
  - split; [discriminate | lia].
  - destruct (v !! Z.to_nat i) eqn:E; simpl; split;
      try intros [_ [=]]; try intros [=]; subst; auto; discriminate.
Qed.

Lemma vec_get_bounds v i a :
  vec_get v i = Ok a -> 0 <= i < Z.of_nat (length v).
Proof.
  intros [H0 H]%vec_get_Ok. apply lookup_lt_Some in H. lia.
Qed.

Lemma vec_get_in_bounds v i :
  0 <= i < Z.of_nat (length v) -> exists a, vec_get v i = Ok a.
Proof.
  intros H. destruct (lookup_lt_is_Some_2 v (Z.to_nat i)) as [a Ha]; [lia|].
  exists a. apply vec_get_Ok. split; [lia | exact Ha].
Qed.

Lemma vec_set_Ok v i a :
  0 <= i < Z.of_nat (length v) -> vec_set v i a = Ok (<[Z.to_nat i := a]> v).
Proof.
  intros H. unfold vec_set.
  destruct (Z.leb_spec 0 i); [|lia].
  destruct (Z.ltb_spec i (Z.of_nat (length v))); [reflexivity | lia].
Qed.

Lemma vec_set_inv v i a v' :
  vec_set v i a = Ok v' ->
  0 <= i < Z.of_nat (length v) /\ v' = <[Z.to_nat i := a]> v.
Proof.
  unfold vec_set.
  destruct (Z.leb_spec 0 i); [|discriminate].
  destruct (Z.ltb_spec i (Z.of_nat (length v))); [|discriminate].
  simpl. intros [= <-]. split; [lia | reflexivity].
Qed.

Lemma vec_get_insert_eq v i a :
  0 <= i < Z.of_nat (length v) -> vec_get (<[Z.to_nat i := a]> v) i = Ok a.
Proof.
  intros H. apply vec_get_Ok. split; [lia|].
  apply list_lookup_insert_eq. lia.
Qed.

Lemma vec_get_insert_ne v i j a :
  0 <= i -> i <> j -> vec_get (<[Z.to_nat i := a]> v) j = vec_get v j.
Proof.
  intros H0 Hne. unfold vec_get. destruct (Z.ltb_spec j 0); [reflexivity|].
  rewrite list_lookup_insert_ne by lia. reflexivity.
Qed.

Lemma vec_get_ext (v w : list A) :
  length v = length w -> (forall i a, vec_get v i = Ok a -> vec_get w i = Ok a) ->
  v = w.
Proof.
  intros Hl H. apply list_eq_same_length with (length v); auto.
  intros k x y Hk Hx Hy.
  specialize (H (Z.of_nat k) x).
  rewrite !vec_get_Ok, !Nat2Z.id in H.
  destruct H as [_ H]; [split; [lia | exact Hx]|]. congruence.
Qed.

End VectorFacts.

Lemma elem_of_indexed {A} (v : list A) (i : Z) (a : A) :
  (i, a) ∈ DatedTree.indexed v <-> vec_get v i = Ok a.
Proof.
  unfold DatedTree.indexed. rewrite elem_of_lookup_imap, vec_get_Ok. split.
  - intros (k & x & [= -> ->] & Hk). rewrite Nat2Z.id. split; [lia | exact Hk].
  - intros [H0 H]. exists (Z.to_nat i), a. split; [f_equal; lia | exact H].
Qed.

(** ** DatedTree: the invariants *)

Module DatedTreeFacts.
Import DatedTree.

Lemma is_ok_eqb (r : result Z) (a : Z) : is_ok Z.eqb r a = true <-> r = Ok a.
Proof.
  destruct r as [a'|e]; simpl; [|split; discriminate].
  rewrite Z.eqb_eq. split; congruence.
Qed.

Lemma consistentb_sound (d : t) : consistentb d = true -> consistent d.
Proof.
  unfold consistentb. rewrite !andb_true_iff, !forallb_forall.
  intros [[[[[H1 H2] H3] H4] H5] H6].
  apply Z.eqb_eq in H1, H2. apply Z.leb_le in H3, H4.
  split; auto.
  - intros i n Hi. apply elem_of_indexed, list_elem_of_In, H5 in Hi.
    apply is_ok_eqb, Hi.
  - intros n r Hn. apply elem_of_indexed, list_elem_of_In, H6 in Hn.
    apply is_ok_eqb, Hn.
Qed.

Lemma parents_firstb_sound (d : t) : parents_firstb d = true -> parents_first d.
Proof.
  unfold parents_firstb. rewrite forallb_forall.
  intros H c nd p Hc Hp.
  apply elem_of_indexed, list_elem_of_In, H in Hc. rewrite Hp in Hc.
  destruct (vec_get (ranks d) p) as [rp|]; [|discriminate].
  destruct (vec_get (ranks d) c) as [rc|]; [|discriminate].
  exists rp, rc. repeat split. apply Z.ltb_lt, Hc.
Qed.

Lemma invariantb_sound (d : t) : invariantb d = true -> invariant d.
Proof.
  unfold invariantb. rewrite andb_true_iff. intros [H1 H2].
  split; [apply consistentb_sound | apply parents_firstb_sound]; assumption.
Qed.

Lemma S1_invariant : invariant S1.dated.
Proof. apply invariantb_sound. reflexivity. Qed.

(** *** One rank swap *)

(* the tree after the swap of [n1] at [rank] with [n2] at [rank + 1] *)
Definition swapped (d : t) (rank n1 n2 : Z) : t :=
  mk (fromBL d) (rootedTree d)
    (<[Z.to_nat rank := n2]> (<[Z.to_nat (rank + 1) := n1]> (orderedSpeciations d)))
    (<[Z.to_nat n2 := rank]> (<[Z.to_nat n1 := rank + 1]> (ranks d))).

Lemma wrap_uint_small (z : Z) : 0 <= z < 2 ^ 32 -> wrap_uint z = z.
Proof. intros H. unfold wrap_uint. apply Z.mod_small. lia. Qed.

Lemma wrap_size_small (z : Z) : 0 <= z < 2 ^ 64 -> wrap_size z = z.
Proof. intros H. unfold wrap_size. apply Z.mod_small. lia. Qed.

Lemma consistent_node (d : t) (i n : Z) :
  consistent d -> vec_get (orderedSpeciations d) i = Ok n ->
  exists nd, getNode (rootedTree d) n = Ok nd.
Proof.
  intros Hc Hi. apply (rank_of_position d Hc), vec_get_bounds in Hi.
  apply vec_get_in_bounds. rewrite (size_ranks d Hc) in Hi. exact Hi.
Qed.

Lemma consistent_injective (d : t) (i j n : Z) :
  consistent d -> vec_get (orderedSpeciations d) i = Ok n ->
  vec_get (orderedSpeciations d) j = Ok n -> i = j.
Proof.
  intros Hc Hi Hj. apply (rank_of_position d Hc) in Hi, Hj. congruence.
Qed.

(* why a call of moveDown at [rank] returns false *)
Definition refused (d : t) (rank : Z) : Prop :=
  size d <= rank + 1
  \/ exists n1 n2 nd1 nd2,
       vec_get (orderedSpeciations d) rank = Ok n1
       /\ vec_get (orderedSpeciations d) (rank + 1) = Ok n2
       /\ getNode (rootedTree d) n1 = Ok nd1
       /\ getNode (rootedTree d) n2 = Ok nd2
       /\ (left nd1 = None \/ left nd2 = None \/ parent nd2 = Some n1).

Lemma moveDown_beyond (d : t) (rank : Z) :
  consistent d -> fromBL d = true -> size d <= rank + 1 ->
  moveDown d rank = Ok (false, d).
Proof.
  intros Hc Hd Hr. pose proof (size_bounds d Hc) as Hsb.
  unfold moveDown, vec_size. rewrite Hd. cbn [negb].
  rewrite (size_order d Hc), (wrap_size_small (size d)) by lia.
  rewrite wrap_size_small by lia.
  destruct (Z.gtb_spec rank (size d - 2)); [reflexivity | lia].
Qed.

Lemma moveDown_within (d : t) (rank n1 n2 : Z) (nd1 nd2 : rnode) :
  consistent d -> fromBL d = true -> 0 <= rank -> rank + 1 < size d ->
  vec_get (orderedSpeciations d) rank = Ok n1 ->
  vec_get (orderedSpeciations d) (rank + 1) = Ok n2 ->
  getNode (rootedTree d) n1 = Ok nd1 ->
  getNode (rootedTree d) n2 = Ok nd2 ->
  moveDown d rank =
    if bool_decide (left nd1 = None) || bool_decide (left nd2 = None)
       || bool_decide (parent nd2 = Some n1)
    then Ok (false, d)
    else Ok (true, swapped d rank n1 n2).
Proof.
  intros Hc Hd Hr0 Hr Hn1 Hn2 Hnd1 Hnd2.
  pose proof (size_order d Hc) as Hso. pose proof (size_ranks d Hc) as Hsr.
  pose proof (size_bounds d Hc) as Hsb.
  pose proof (rank_of_position d Hc _ _ Hn1) as Hr1.
  pose proof (rank_of_position d Hc _ _ Hn2) as Hr2.
  pose proof (vec_get_bounds _ _ _ Hr1) as Hb1.
  pose proof (vec_get_bounds _ _ _ Hr2) as Hb2.
  assert (Hne : n1 <> n2).
  { intros ->. pose proof (consistent_injective d _ _ _ Hc Hn1 Hn2). lia. }
  unfold moveDown, vec_size. rewrite Hd. cbn [negb].
  rewrite Hso, (wrap_size_small (size d)) by lia.
  rewrite wrap_size_small by lia.
  destruct (Z.gtb_spec rank (size d - 2)) as [Hgt|_]; [lia|].
  rewrite (wrap_uint_small (rank + 1)) by lia.
  rewrite Hn1, Hn2. cbn [mbind result_bind].
  rewrite Hnd1. cbn [mbind result_bind].
  case_bool_decide as Hl1; [reflexivity|].
  rewrite Hnd2. cbn [mbind result_bind].
  case_bool_decide as Hl2; [reflexivity|].
  case_bool_decide as Hp; [reflexivity|]. cbn [orb].
  rewrite (vec_set_Ok (orderedSpeciations d)) by lia. cbn [mbind result_bind].
  rewrite vec_set_Ok by (rewrite length_insert; lia). cbn [mbind result_bind].
  rewrite Hr1. cbn [mbind result_bind].
  rewrite (vec_set_Ok (ranks d)) by lia. cbn [mbind result_bind].
  rewrite vec_get_insert_ne, Hr2 by lia. cbn [mbind result_bind].
  rewrite vec_set_Ok by (rewrite length_insert; lia). cbn [mbind result_bind].
  rewrite (wrap_uint_small (rank + 1)) by lia.
  replace (rank + 1 - 1) with rank by lia.
  rewrite (wrap_uint_small rank) by lia.
  unfold swapped. rewrite Hd. reflexivity.
Qed.

Lemma moveDown_cases (d : t) (rank : Z) :
  consistent d -> fromBL d = true -> is_uint rank ->
  (moveDown d rank = Ok (false, d) /\ refused d rank)
  \/ exists n1 n2 nd1 nd2,
       rank + 1 < size d
       /\ vec_get (orderedSpeciations d) rank = Ok n1
       /\ vec_get (orderedSpeciations d) (rank + 1) = Ok n2
       /\ getNode (rootedTree d) n1 = Ok nd1
       /\ getNode (rootedTree d) n2 = Ok nd2
       /\ left nd1 <> None /\ left nd2 <> None /\ parent nd2 <> Some n1
       /\ moveDown d rank = Ok (true, swapped d rank n1 n2).
Proof.
  intros Hc Hd Hr. unfold is_uint in Hr.
  pose proof (size_order d Hc) as Hso.
  destruct (Z.le_gt_cases (size d) (rank + 1)) as [Hbig|Hin].
  { left. split; [apply moveDown_beyond; auto | left; exact Hbig]. }
  destruct (vec_get_in_bounds (orderedSpeciations d) rank) as [n1 Hn1]; [lia|].
  destruct (vec_get_in_bounds (orderedSpeciations d) (rank + 1)) as [n2 Hn2];
    [lia|].
  destruct (consistent_node d _ _ Hc Hn1) as [nd1 Hnd1].
  destruct (consistent_node d _ _ Hc Hn2) as [nd2 Hnd2].
  rewrite (moveDown_within d rank n1 n2 nd1 nd2) by (auto; lia).
  repeat case_bool_decide; cbn [orb];
    try (left; split; [reflexivity|]; right; exists n1, n2, nd1, nd2;
         by auto 10).
  right. exists n1, n2, nd1, nd2.
  repeat (split; [assumption || lia|]). reflexivity.
Qed.

Lemma vec_get_insert2 {A} (v : list A) (a b i : Z) (x y : A) :
  0 <= a < Z.of_nat (length v) -> 0 <= b < Z.of_nat (length v) ->
  vec_get (<[Z.to_nat a := x]> (<[Z.to_nat b := y]> v)) i
  = if decide (i = a) then Ok x
    else if decide (i = b) then Ok y
    else vec_get v i.
Proof.
  intros Ha Hb. destruct (decide (i = a)) as [->|Hia].
  - apply vec_get_insert_eq. rewrite length_insert. lia.
  - rewrite vec_get_insert_ne by lia.
    destruct (decide (i = b)) as [->|Hib].
    + apply vec_get_insert_eq. lia.
    + apply vec_get_insert_ne; lia.
Qed.

Section Swap.
Variables (d : t) (rank n1 n2 : Z).
Hypothesis Hc : consistent d.
Hypothesis Hrank : 0 <= rank /\ rank + 1 < size d.
Hypothesis Hn1 : vec_get (orderedSpeciations d) rank = Ok n1.
Hypothesis Hn2 : vec_get (orderedSpeciations d) (rank + 1) = Ok n2.

Lemma swapped_order (i : Z) :
  vec_get (orderedSpeciations (swapped d rank n1 n2)) i
  = if decide (i = rank) then Ok n2
    else if decide (i = rank + 1) then Ok n1
    else vec_get (orderedSpeciations d) i.
Proof.
  pose proof (size_order d Hc). apply vec_get_insert2; lia.
Qed.

Lemma swapped_distinct : n1 <> n2.
Proof.
  intros ->. pose proof (consistent_injective d _ _ _ Hc Hn1 Hn2). lia.
Qed.

Lemma swapped_ranks (n : Z) :
  vec_get (ranks (swapped d rank n1 n2)) n
  = if decide (n = n2) then Ok rank
    else if decide (n = n1) then Ok (rank + 1)
    else vec_get (ranks d) n.
Proof.
  apply vec_get_insert2.
  - exact (vec_get_bounds _ _ _ (rank_of_position d Hc _ _ Hn2)).
  - exact (vec_get_bounds _ _ _ (rank_of_position d Hc _ _ Hn1)).
Qed.

Lemma swapped_consistent : consistent (swapped d rank n1 n2).
Proof.
  pose proof swapped_distinct as Hne.
  pose proof (rank_of_position d Hc _ _ Hn1) as Hr1.
  pose proof (rank_of_position d Hc _ _ Hn2) as Hr2.
  split.
  - cbn. rewrite !length_insert. apply (size_order d Hc).
  - cbn. rewrite !length_insert. apply (size_ranks d Hc).
  - apply (size_bounds d Hc).
  - intros i n. rewrite swapped_order, swapped_ranks.
    repeat case_decide; subst; intros Hi;
      try (injection Hi as <-); try congruence; try lia.
    + pose proof (consistent_injective d _ _ _ Hc Hi Hn2). lia.
    + pose proof (consistent_injective d _ _ _ Hc Hi Hn1). lia.
    + apply (rank_of_position d Hc), Hi.
  - intros n r. rewrite swapped_order, swapped_ranks.
    repeat case_decide; subst; intros Hn;
      try (injection Hn as <-); try congruence; try lia.
    + apply (position_of_rank d Hc) in Hn. congruence.
    + apply (position_of_rank d Hc) in Hn. congruence.
    + apply (position_of_rank d Hc), Hn.
Qed.

Lemma swapped_parents_first (nd2 : rnode) :
  getNode (rootedTree d) n2 = Ok nd2 -> parent nd2 <> Some n1 ->
  parents_first d -> parents_first (swapped d rank n1 n2).
Proof.
  intros Hnd2 Hp Hpf c nd p Hcnd Hpar.
  pose proof swapped_distinct as Hne.
  pose proof (rank_of_position d Hc _ _ Hn1) as Hr1.
  pose proof (rank_of_position d Hc _ _ Hn2) as Hr2.
  destruct (Hpf c nd p Hcnd Hpar) as (rp & rc & Hrp & Hrc & Hlt).
  assert (Hc2 : c = n2 -> p <> n1).
  { intros -> ->. change (getNode (rootedTree d) n2 = Ok nd) in Hcnd.
    congruence. }
  assert (Hprank : rp = rank -> p = n1).
  { intros ->. apply (position_of_rank d Hc) in Hrp. congruence. }
  assert (Hcrank : rc = rank + 1 -> c = n2).
  { intros ->. apply (position_of_rank d Hc) in Hrc. congruence. }
  rewrite !swapped_ranks.
  repeat case_decide; subst; eexists _, _;
    (split; [reflexivity || eassumption|]);
    (split; [reflexivity || eassumption|]);
    try (specialize (Hc2 eq_refl)); try congruence;
    try assert (rp = rank + 1) by congruence;
    try assert (rc = rank + 1) by congruence;
    try assert (rp = rank) by congruence;
    try assert (rc = rank) by congruence;
    lia.
Qed.

End Swap.

Lemma swapped_twice (d : t) (rank n1 n2 : Z) :
  consistent d -> 0 <= rank /\ rank + 1 < size d ->
  vec_get (orderedSpeciations d) rank = Ok n1 ->
  vec_get (orderedSpeciations d) (rank + 1) = Ok n2 ->
  swapped (swapped d rank n1 n2) rank n2 n1 = d.
Proof.
  intros Hc Hr Hn1 Hn2.
  pose proof (size_order d Hc) as Hso.
  pose proof (rank_of_position d Hc _ _ Hn1) as Hr1.
  pose proof (rank_of_position d Hc _ _ Hn2) as Hr2.
  pose proof (vec_get_bounds _ _ _ Hr1) as Hb1.
  pose proof (vec_get_bounds _ _ _ Hr2) as Hb2.
  destruct d as [bl tr os rk]. unfold swapped. cbn in *. f_equal.
  - apply vec_get_ext; [by rewrite !length_insert|].
    intros i a.
    rewrite !vec_get_insert2 by (rewrite ?length_insert; lia).
    repeat case_decide; subst; congruence.
  - apply vec_get_ext; [by rewrite !length_insert|].
    intros i a.
    rewrite !vec_get_insert2 by (rewrite ?length_insert; lia).
    repeat case_decide; subst; congruence.
Qed.

(** *** moveDown and moveUp *)

Lemma moveDown_false (d d' : t) (rank : Z) :
  moveDown d rank = Ok (false, d') -> d' = d.
Proof.
  unfold moveDown, mbind, result_bind. intros H.
  repeat case_match; simplify_eq; reflexivity.
Qed.

Lemma moveUp_false (d d' : t) (rank : Z) :
  moveUp d rank = Ok (false, d') -> d' = d.
Proof.
  unfold moveUp. intros H.
  repeat case_match; simplify_eq; try reflexivity.
  eapply moveDown_false, H.
Qed.

Lemma moveUp_moveDown (d : t) (rank : Z) :
  fromBL d = true -> is_uint rank -> rank <> 0 ->
  moveUp d rank = moveDown d (rank - 1).
Proof.
  intros Hd Hr H0. unfold moveUp, is_uint in *. rewrite Hd. cbn [negb].
  destruct (Z.eqb_spec rank 0); [lia|].
  rewrite wrap_uint_small by lia. reflexivity.
Qed.

Lemma moveDown_keeps (d : t) (rank : Z) :
  consistent d -> fromBL d = true -> is_uint rank ->
  exists b d', moveDown d rank = Ok (b, d')
    /\ consistent d' /\ (parents_first d -> parents_first d')
    /\ fromBL d' = true /\ rootedTree d' = rootedTree d.
Proof.
  intros Hc Hd Hr.
  destruct (moveDown_cases d rank Hc Hd Hr)
    as [[-> _]|(n1 & n2 & nd1 & nd2 & Hin & Hn1 & Hn2 & _ & Hnd2 & _ & _ & Hp & ->)].
  - exists false, d. auto.
  - exists true, (swapped d rank n1 n2). unfold is_uint in Hr.
    split; [reflexivity|]. split; [|split; [|split]].
    + apply swapped_consistent; auto; lia.
    + apply (swapped_parents_first d rank n1 n2) with nd2; auto; lia.
    + exact Hd.
    + reflexivity.
Qed.

Lemma moveUp_keeps (d : t) (rank : Z) :
  consistent d -> fromBL d = true -> is_uint rank ->
  exists b d', moveUp d rank = Ok (b, d')
    /\ consistent d' /\ (parents_first d -> parents_first d')
    /\ fromBL d' = true /\ rootedTree d' = rootedTree d.
Proof.
  intros Hc Hd Hr. destruct (decide (rank = 0)) as [->|H0].
  - exists false, d. unfold moveUp. rewrite Hd. cbn. auto 10.
  - rewrite moveUp_moveDown by auto.
    apply moveDown_keeps; auto. unfold is_uint in *. lia.
Qed.

Lemma apply_move_keeps (d : t) (m : move) :
  consistent d -> fromBL d = true -> is_uint (move_rank m) ->
  exists b d', apply_move d m = Ok (b, d')
    /\ consistent d' /\ (parents_first d -> parents_first d')
    /\ fromBL d' = true /\ rootedTree d' = rootedTree d.
Proof.
  destruct m; [apply moveUp_keeps | apply moveDown_keeps].
Qed.

Lemma apply_moves_keep (ms : list move) (d : t) :
  invariant d -> fromBL d = true ->
  Forall (fun m => is_uint (move_rank m)) ms ->
  exists d', apply_moves d ms = Ok d' /\ invariant d'
    /\ fromBL d' = true /\ rootedTree d' = rootedTree d.
Proof.
  revert d. induction ms as [|m ms IH]; intros d [Hc Hp] Hd Hms.
  - exists d. split; [reflexivity|]. split; [split; assumption|]. auto.
  - inversion Hms as [|? ? Hm Hms']; subst.
    destruct (apply_move_keeps d m Hc Hd Hm)
      as (b & d1 & Hmv & Hc1 & Hp1 & Hd1 & Ht1).
    destruct (IH d1) as (d' & Hrun & Hinv & Hd' & Ht'); auto.
    { split; auto. }
    exists d'. cbn. rewrite Hmv. cbn. rewrite Hrun.
    split; [reflexivity|]. split; [exact Hinv|]. split; [exact Hd'|].
    congruence.
Qed.

Lemma moveDown_undo (d d1 : t) (rank : Z) :
  invariant d -> fromBL d = true -> is_uint rank ->
  moveDown d rank = Ok (true, d1) -> moveDown d1 rank = Ok (true, d).
Proof.
  intros [Hc Hp] Hd Hr Hmv.
  destruct (moveDown_cases d rank Hc Hd Hr)
    as [[E _]|(n1 & n2 & nd1 & nd2 & Hin & Hn1 & Hn2 & Hnd1 & Hnd2
              & Hl1 & Hl2 & Hpar & E)];
    rewrite E in Hmv; [discriminate|].
  injection Hmv as <-. unfold is_uint in Hr.
  assert (Hrank : 0 <= rank /\ rank + 1 < size d) by lia.
  pose proof (swapped_consistent d rank n1 n2 Hc Hrank Hn1 Hn2) as Hc1.
  rewrite (moveDown_within (swapped d rank n1 n2) rank n2 n1 nd2 nd1);
    auto; try lia.
  - assert (Hpar1 : parent nd1 <> Some n2).
    { intros Hq. destruct (Hp n1 nd1 n2 Hnd1 Hq) as (rp & rc & Hrp & Hrc & Hlt).
      rewrite (rank_of_position d Hc _ _ Hn1) in Hrc.
      rewrite (rank_of_position d Hc _ _ Hn2) in Hrp.
      injection Hrp as <-. injection Hrc as <-. lia. }
    repeat case_bool_decide; try congruence. cbn [orb].
    rewrite swapped_twice; auto.
  - rewrite swapped_order by auto. case_decide; [reflexivity | lia].
  - rewrite swapped_order by auto.
    case_decide; [lia|]. case_decide; [reflexivity | lia].
Qed.

Lemma moveUp_undo (d d1 : t) (rank : Z) :
  invariant d -> fromBL d = true -> is_uint rank ->
  moveUp d rank = Ok (true, d1) -> moveUp d1 rank = Ok (true, d).
Proof.
  intros Hinv Hd Hr Hmv. destruct (decide (rank = 0)) as [->|H0].
  { unfold moveUp in Hmv. rewrite Hd in Hmv. discriminate. }
  rewrite moveUp_moveDown in Hmv by auto.
  assert (Hr' : is_uint (rank - 1)) by (unfold is_uint in *; lia).
  destruct (moveDown_keeps d (rank - 1) (proj1 Hinv) Hd Hr')
    as (b & d' & E & _ & _ & Hd1 & _).
  rewrite E in Hmv. injection Hmv as -> ->.
  rewrite moveUp_moveDown by auto.
  apply moveDown_undo; auto.
Qed.

(** C4. On a dated tree that satisfies the invariants, a successful
    [moveUp(r)] is undone by a second [moveUp(r)]: the second call
    succeeds too and gives back the ranks and the order of speciations of
    before the first call. *)
Theorem moveUp_involutive (d d1 : t) (rank : Z) :
  invariant d -> fromBL d = true -> is_uint rank ->
  moveUp d rank = Ok (true, d1) ->
  exists d2, moveUp d1 rank = Ok (true, d2)
    /\ ranks d2 = ranks d
    /\ orderedSpeciations d2 = orderedSpeciations d
    /\ d2 = d.
Proof.
  intros Hinv Hd Hr Hmv. exists d.
  split; [apply moveUp_undo; assumption | auto].
Qed.

Lemma moveUp_involutive_witness :
  exists d1, moveUp S1.dated 2 = Ok (true, d1)
    /\ moveUp d1 2 = Ok (true, S1.dated).
Proof.
  eexists. split; [vm_compute; reflexivity|].
  edestruct (moveUp_involutive S1.dated) with (rank := 2)
    as (d2 & Hmv & _ & _ & ->).
  - apply invariantb_sound. vm_compute. reflexivity.
  - reflexivity.
  - unfold is_uint. lia.
  - vm_compute. reflexivity.
  - exact Hmv.
Defined.

(** C3. Rank swaps keep the invariants of the dated tree: after any
    sequence of moveUp and moveDown calls, whatever they return, every
    parent has a lower rank than its child and [orderedSpeciations] at
    the rank of a node is that node; a call that returns false leaves the
    tree as it was. *)
Theorem moves_keep_invariants (d : t) (ms : list move) :
  invariant d -> fromBL d = true ->
  Forall (fun m => is_uint (move_rank m)) ms ->
  (exists d', apply_moves d ms = Ok d'
     /\ (forall c nd p,
          getNode (rootedTree d') c = Ok nd -> parent nd = Some p ->
          exists rp rc, vec_get (ranks d') p = Ok rp
            /\ vec_get (ranks d') c = Ok rc /\ rp < rc)
     /\ (forall n, 0 <= n < size d' ->
          exists r, vec_get (ranks d') n = Ok r
            /\ vec_get (orderedSpeciations d') r = Ok n)
     /\ invariant d')
  /\ (forall m d', apply_move d m = Ok (false, d') -> d' = d).
Proof.
  intros Hinv Hd Hms. split.
  - destruct (apply_moves_keep ms d Hinv Hd Hms) as (d' & Hrun & Hinv' & _).
    exists d'. split; [exact Hrun|].
    destruct Hinv' as [Hc' Hp']. split; [exact Hp'|]. split; [|split; auto].
    intros n Hn. rewrite <- (size_ranks d' Hc') in Hn.
    destruct (vec_get_in_bounds _ _ Hn) as [r Hr].
    exists r. split; [exact Hr | apply (position_of_rank d' Hc'), Hr].
  - intros [r|r] d' H; [eapply moveUp_false | eapply moveDown_false]; exact H.
Qed.

Lemma moves_keep_invariants_witness :
  exists d', apply_moves S1.dated [Up 2; Down 0; Up 7; Down 1] = Ok d'
    /\ invariant d'.
Proof.
  destruct (moves_keep_invariants S1.dated [Up 2; Down 0; Up 7; Down 1])
    as [(d' & Hrun & _ & _ & Hinv) _].
  - apply invariantb_sound. vm_compute. reflexivity.
  - reflexivity.
  - repeat constructor; unfold is_uint; cbn; lia.
  - exists d'. split; assumption.
Defined.

(** *** Backup and restore *)

Lemma restore_loop_spec (d0 : t) (speciations acc : list Z) :
  consistent d0 -> Z.of_nat (length acc) = size d0 ->
  (forall n, n ∈ speciations -> 0 <= n < size d0) ->
  exists os, restore_loop (ranks d0) speciations acc = Ok os
    /\ length os = length acc
    /\ (forall i n, n ∈ speciations -> vec_get (ranks d0) n = Ok i ->
          vec_get os i = Ok n)
    /\ (forall i, (forall n, n ∈ speciations -> vec_get (ranks d0) n <> Ok i) ->
          vec_get os i = vec_get acc i).
Proof.
  intros Hc. revert acc.
  induction speciations as [|n rest IH]; intros acc Hlen Hnodes.
  - exists acc. split; [reflexivity|]. split; [reflexivity|].
    split; [intros i n Hn; inversion Hn | reflexivity].
  - assert (Hn : 0 <= n < size d0) by (apply Hnodes; left).
    destruct (vec_get_in_bounds (ranks d0) n) as [r Hr];
      [rewrite (size_ranks d0 Hc); exact Hn|].
    pose proof (vec_get_bounds _ _ _ (position_of_rank d0 Hc _ _ Hr)) as Hrb.
    rewrite (size_order d0 Hc) in Hrb.
    destruct (IH (<[Z.to_nat r := n]> acc)) as (os & Hrun & Hl & Hin & Hout).
    { rewrite length_insert. exact Hlen. }
    { intros m Hm. apply Hnodes. right. exact Hm. }
    exists os. cbn. rewrite Hr. cbn. rewrite vec_set_Ok by lia. cbn.
    split; [exact Hrun|]. split; [rewrite Hl; apply length_insert|]. split.
    + intros i m Hm Hi. destruct (decide (m ∈ rest)) as [Hmr|Hmr].
      { apply Hin; assumption. }
      assert (m = n) as -> by (inversion Hm; subst; tauto).
      assert (i = r) as -> by congruence.
      rewrite Hout.
      * apply vec_get_insert_eq. lia.
      * intros m Hm' Hmr'. apply (position_of_rank d0 Hc) in Hmr', Hr.
        assert (m = n) by congruence. subst. contradiction.
    + intros i Hi. rewrite Hout.
      * apply vec_get_insert_ne; [lia|].
        intros ->. apply (Hi n); [left | exact Hr].
      * intros m Hm. apply Hi. right. exact Hm.
Qed.

(** restore installs the dating of the backup in any consistent tree
    over the same nodes *)
Lemma restore_backup (d0 d : t) :
  consistent d0 -> consistent d -> size d = size d0 ->
  restore d (getBackup d0)
  = Ok (mk (fromBL d) (rootedTree d) (orderedSpeciations d0) (ranks d0)).
Proof.
  intros Hc0 Hc Hsz. unfold restore, getBackup.
  destruct (restore_loop_spec d0 (orderedSpeciations d) (orderedSpeciations d))
    as (os & Hrun & Hl & Hin & _); auto.
  { rewrite (size_order d Hc). exact Hsz. }
  { intros n [i Hi]%list_elem_of_lookup.
    assert (Hi' : vec_get (orderedSpeciations d) (Z.of_nat i) = Ok n)
      by (apply vec_get_Ok; rewrite Nat2Z.id; split; [lia | exact Hi]).
    apply (rank_of_position d Hc), vec_get_bounds in Hi'.
    rewrite (size_ranks d Hc), Hsz in Hi'. exact Hi'. }
  rewrite Hrun. cbn. do 2 f_equal.
  apply vec_get_ext.
  { apply Nat2Z.inj. rewrite Hl, (size_order d Hc), (size_order d0 Hc0). exact Hsz. }
  intros i n Hi.
  assert (Hb : 0 <= i < size d0).
  { apply vec_get_bounds in Hi.
    rewrite Hl, (size_order d Hc), Hsz in Hi. exact Hi. }
  destruct (vec_get_in_bounds (orderedSpeciations d0) i) as [m Hm];
    [rewrite (size_order d0 Hc0); exact Hb|].
  pose proof (rank_of_position d0 Hc0 _ _ Hm) as Hrm.
  assert (Hmb : 0 <= m < size d) .
  { apply vec_get_bounds in Hrm. rewrite (size_ranks d0 Hc0), <- Hsz in Hrm.
    exact Hrm. }
  destruct (vec_get_in_bounds (ranks d) m) as [r Hr];
    [rewrite (size_ranks d Hc); exact Hmb|].
  apply (position_of_rank d Hc) in Hr.
  assert (Hmem : m ∈ orderedSpeciations d).
  { apply vec_get_Ok in Hr as [_ Hr]. eapply list_elem_of_lookup_2, Hr. }
  rewrite (Hin i m Hmem Hrm) in Hi. congruence.
Qed.

(** *** The transfer predicate *)

(** C6. [canTransferUnderRelDated(e, d)] is false when [d = e]; it is
    true when [e] has no parent and [d <> e]; otherwise it is the test
    [ranks[d] > ranks[parent(e)]]. In particular it is true when [d] is a
    child of [e], leaf or not. *)
Theorem canTransferUnderRelDated_spec (dt : t) (e d : Z) (nde : rnode) :
  invariant dt -> 0 <= d < size dt ->
  getNode (rootedTree dt) e = Ok nde ->
  (d = e -> canTransferUnderRelDated dt e d = Ok false)
  /\ (d <> e -> parent nde = None ->
        canTransferUnderRelDated dt e d = Ok true)
  /\ (forall p, d <> e -> parent nde = Some p ->
        exists rd rp, vec_get (ranks dt) d = Ok rd
          /\ vec_get (ranks dt) p = Ok rp
          /\ canTransferUnderRelDated dt e d = Ok (rd >? rp)
          /\ (canTransferUnderRelDated dt e d = Ok true <-> rd > rp))
  /\ (forall ndd, getNode (rootedTree dt) d = Ok ndd -> parent ndd = Some e ->
        canTransferUnderRelDated dt e d = Ok true).
Proof.
  intros [Hc Hp] Hd He.
  assert (Hrd : exists rd, vec_get (ranks dt) d = Ok rd).
  { apply vec_get_in_bounds. rewrite (size_ranks dt Hc). exact Hd. }
  destruct Hrd as [rd Hrd].
  assert (Hroot : d <> e -> parent nde = None ->
                  canTransferUnderRelDated dt e d = Ok true).
  { intros Hne Hpar. unfold canTransferUnderRelDated.
    destruct (Z.eqb_spec d e); [contradiction|].
    rewrite He. cbn. rewrite Hpar. reflexivity. }
  assert (Hinner : forall p, d <> e -> parent nde = Some p ->
            exists rp, vec_get (ranks dt) p = Ok rp
              /\ canTransferUnderRelDated dt e d = Ok (rd >? rp)).
  { intros p Hne Hpar.
    destruct (Hp e nde p He Hpar) as (rp & re & Hrp & _ & _).
    exists rp. split; [exact Hrp|]. unfold canTransferUnderRelDated.
    destruct (Z.eqb_spec d e); [contradiction|].
    rewrite He. cbn. rewrite Hpar, Hrd. cbn. rewrite Hrp. reflexivity. }
  split; [|split; [exact Hroot|split]].
  - intros ->. unfold canTransferUnderRelDated. rewrite Z.eqb_refl. reflexivity.
  - intros p Hne Hpar. destruct (Hinner p Hne Hpar) as (rp & Hrp & E).
    exists rd, rp. repeat split; auto; rewrite E.
    + intros [= H]. apply Z.gtb_gt in H. lia.
    + intros H. f_equal. apply Z.gtb_gt. lia.
  - intros ndd Hndd Hchild.
    destruct (Hp d ndd e Hndd Hchild) as (re & rd' & Hre & Hrd' & Hlt).
    assert (rd' = rd) as -> by congruence.
    assert (Hne : d <> e) by (intros ->; rewrite Hre in Hrd; injection Hrd; lia).
    destruct (parent nde) as [p|] eqn:Hpar; [|by apply Hroot].
    destruct (Hinner p Hne eq_refl) as (rp & Hrp & ->).
    destruct (Hp e nde p He Hpar) as (rp' & re' & Hrp' & Hre' & Hlt').
    assert (rp' = rp) as -> by congruence.
    assert (re' = re) as -> by congruence.
    f_equal. apply Z.gtb_gt. lia.
Qed.

Lemma canTransferUnderRelDated_witness :
  canTransferUnderRelDated S1.dated 4 4 = Ok false
  /\ canTransferUnderRelDated S1.dated 4 1 = Ok true.
Proof.
  assert (Hinv : invariant S1.dated)
    by (apply invariantb_sound; vm_compute; reflexivity).
  split.
  - edestruct (canTransferUnderRelDated_spec S1.dated 4 4) as (H & _);
      [exact Hinv | unfold size; cbn; lia | vm_compute; reflexivity|].
    apply H. reflexivity.
  - edestruct (canTransferUnderRelDated_spec S1.dated 4 1) as (_ & _ & _ & H);
      [exact Hinv | unfold size; cbn; lia | vm_compute; reflexivity|].
    eapply H; vm_compute; reflexivity.
Defined.

End DatedTreeFacts.

(** ** DatedTree: randomize, backup and restore *)

Module RandomizeFacts.
Import DatedTree DatedTreeFacts.

(** *** Lists *)

Section ListFacts.
Context {A : Type}.
Implicit Types (l : list A) (x y : A).

Lemma insert_Permutation l i x y :
  l !! i = Some x -> y :: l ≡ₚ x :: <[i := y]> l.
Proof.
  revert i. induction l as [|a l IH]; intros [|i] H; try discriminate.
  - injection H as ->. cbn. apply Permutation_swap.
  - cbn in *. rewrite (Permutation_swap a y l), (IH i H).
    apply Permutation_swap.
Qed.

Lemma swap_remove_Permutation l i x y :
  l !! i = Some x -> last l = Some y ->
  l ≡ₚ x :: removelast (<[i := y]> l).
Proof.
  intros Hi [l' ->]%last_Some.
  destruct (decide (i < length l')%nat) as [Hlt|Hge].
  - rewrite lookup_app_l in Hi by exact Hlt.
    rewrite insert_app_l by exact Hlt. rewrite removelast_last.
    rewrite <- (insert_Permutation l' i x y Hi).
    symmetry. apply Permutation_cons_append.
  - pose proof (lookup_lt_Some _ _ _ Hi) as Hb.
    rewrite length_app in Hb. cbn in Hb.
    assert (i = length l') as -> by lia.
    rewrite list_lookup_middle in Hi by reflexivity. injection Hi as <-.
    rewrite list_insert_id by (apply list_lookup_middle; reflexivity).
    rewrite removelast_last. symmetry. apply Permutation_cons_append.
Qed.

Lemma swap_remove_length l i y :
  l <> [] -> length (removelast (<[i := y]> l)) = pred (length l).
Proof.
  intros Hl. destruct (exists_last Hl) as (l' & z & ->).
  destruct (decide (i < length l')%nat).
  - rewrite insert_app_l, removelast_last, length_insert, length_app by lia.
    cbn. lia.
  - destruct (decide (i = length l')) as [->|].
    + replace (length l') with (length l' + 0)%nat by lia.
      rewrite insert_app_r. cbn. rewrite removelast_last, length_app. cbn. lia.
    + rewrite list_insert_ge by (rewrite length_app; cbn; lia).
      rewrite removelast_last, length_app. cbn. lia.
Qed.

End ListFacts.

Lemma fmap_removelast {A B} (f : A -> B) (l : list A) :
  f <$> removelast l = removelast (f <$> l).
Proof.
  induction l as [|a [|b l] IH]; try reflexivity.
  cbn in *. f_equal. exact IH.
Qed.

(** *** Shapes *)

Lemma weight_labels (s : shape) : weight s = length (labels s).
Proof.
  induction s as [|n l IHl r IHr]; [reflexivity|].
  cbn. rewrite length_app. congruence.
Qed.

Lemma weight_positive (s : shape) : (1 <= weight s)%nat.
Proof. destruct s; cbn; lia. Qed.

Lemma inners_weight (s : shape) : (length (inners s) < weight s)%nat.
Proof.
  induction s as [|n l IHl r IHr]; cbn; [lia|].
  rewrite length_app. lia.
Qed.

Lemma inners_sublist (s : shape) : inners s `sublist_of` labels s.
Proof.
  induction s as [|n l IHl r IHr]; cbn.
  - apply sublist_nil_l.
  - apply sublist_skip, sublist_app; assumption.
Qed.

Lemma total_weight_length (ps : list shape) :
  (length ps <= total_weight ps)%nat.
Proof.
  unfold total_weight. induction ps as [|p ps IH]; cbn; [lia|].
  pose proof (weight_positive p). lia.
Qed.

Lemma total_weight_Permutation (ps qs : list shape) :
  ps ≡ₚ qs -> total_weight ps = total_weight qs.
Proof. unfold total_weight. intros ->. reflexivity. Qed.

Lemma inners_Permutation (ps qs : list shape) :
  ps ≡ₚ qs -> concat (inners <$> ps) ≡ₚ concat (inners <$> qs).
Proof. intros ->. reflexivity. Qed.

(* an inner node of an embedded shape has a left child *)
Lemma embeds_inner (tr : PLLRootedTree) (p : option Z) (s : shape) (n : Z) :
  embeds tr p s -> n ∈ inners s ->
  exists nd, getNode tr n = Ok nd /\ left nd <> None.
Proof.
  revert p. induction s as [|m l IHl r IHr]; intros p He Hn; cbn in *.
  - inversion Hn.
  - destruct He as (Hm & Hl & Hr).
    apply elem_of_cons in Hn as [->|Hn].
    + eexists. split; [exact Hm | discriminate].
    + apply elem_of_app in Hn as [Hn|Hn]; eauto.
Qed.

Lemma embeds_labels (tr : PLLRootedTree) (p : option Z) (s : shape) (n : Z) :
  embeds tr p s -> n ∈ labels s -> exists nd, getNode tr n = Ok nd.
Proof.
  revert p. induction s as [m|m l IHl r IHr]; intros p He Hn; cbn in *.
  - apply list_elem_of_singleton in Hn as ->. eauto.
  - destruct He as (Hm & Hl & Hr).
    apply elem_of_cons in Hn as [->|Hn]; [eauto|].
    apply elem_of_app in Hn as [Hn|Hn]; eauto.
Qed.

Lemma embeds_with_left (tr : PLLRootedTree) (p : option Z) (s : shape)
    (n : Z) (nd : rnode) :
  embeds tr p s -> n ∈ labels s -> getNode tr n = Ok nd -> left nd <> None ->
  n ∈ inners s.
Proof.
  revert p. induction s as [m|m l IHl r IHr]; intros p He Hn Hnd Hl; cbn in *.
  - apply list_elem_of_singleton in Hn as ->.
    rewrite He in Hnd. injection Hnd as <-. contradiction.
  - destruct He as (Hm & Hel & Her).
    apply elem_of_cons in Hn as [->|Hn]; [left|].
    right. apply elem_of_app.
    apply elem_of_app in Hn as [Hn|Hn]; eauto.
Qed.

(** every node of the table is in the shape *)
Lemma tree_shape_labels (tr : PLLRootedTree) (s : shape) (n : Z) :
  tree_shape tr s -> 0 <= n < Z.of_nat (length (nodes tr)) -> n ∈ labels s.
Proof.
  intros (He & _ & Hnd & Hlen) Hn.
  assert (Hperm : labels s ≡ₚ seqZ 0 (Z.of_nat (length (nodes tr)))).
  { apply submseteq_length_Permutation.
    - apply NoDup_submseteq; [exact Hnd|].
      intros m Hm. destruct (embeds_labels tr None s m He Hm) as [nd Hm'].
      apply vec_get_bounds in Hm'. apply elem_of_seqZ. lia.
    - rewrite length_seqZ. lia. }
  rewrite Hperm. apply elem_of_seqZ. lia.
Qed.

(** the speciations are the nodes with a left child *)
Lemma tree_shape_inners (tr : PLLRootedTree) (s : shape) (n : Z) (nd : rnode) :
  tree_shape tr s -> getNode tr n = Ok nd -> left nd <> None -> n ∈ inners s.
Proof.
  intros Hs Hnd Hl. pose proof Hs as (He & _).
  eapply embeds_with_left; eauto.
  apply (tree_shape_labels tr); [exact Hs|].
  eapply vec_get_bounds, Hnd.
Qed.

(** *** The loop of randomize *)

Section Placing.
Variable d0 : t.

(** [d] is [d0] after the nodes of [placed] have been given the ranks
    0, 1, 2, ... in this order. *)
Record placing (d : t) (placed : list Z) : Prop := mk_placing {
  pl_fromBL : fromBL d = fromBL d0;
  pl_tree : rootedTree d = rootedTree d0;
  pl_length_order :
    length (orderedSpeciations d) = length (orderedSpeciations d0);
  pl_length_ranks : length (ranks d) = length (ranks d0);
  pl_order_new : forall j n,
    placed !! j = Some n -> orderedSpeciations d !! j = Some n;
  pl_order_old : forall j, (length placed <= j)%nat ->
    orderedSpeciations d !! j = orderedSpeciations d0 !! j;
  pl_ranks_new : forall j n,
    placed !! j = Some n -> vec_get (ranks d) n = Ok (Z.of_nat j);
  pl_ranks_old : forall n,
    n ∉ placed -> vec_get (ranks d) n = vec_get (ranks d0) n
}.

Lemma placing_start : placing d0 [].
Proof. split; auto; intros j n Hj; discriminate. Qed.

Lemma placing_next (d : t) (placed : list Z) (n : Z) :
  placing d placed -> n ∉ placed ->
  (length placed < length (orderedSpeciations d0))%nat ->
  0 <= n < Z.of_nat (length (ranks d0)) ->
  placing
    (mk (fromBL d) (rootedTree d)
       (<[length placed := n]> (orderedSpeciations d))
       (<[Z.to_nat n := Z.of_nat (length placed)]> (ranks d)))
    (placed ++ [n]).
Proof.
  intros Hp Hn Hk Hnb. destruct Hp as [H1 H2 H3 H4 H5 H6 H7 H8].
  split; cbn; rewrite ?length_insert; auto.
  - intros j m Hj. apply lookup_app_Some in Hj as [Hj|[Hlen Hj]].
    + rewrite list_lookup_insert_ne; [auto|].
      apply lookup_lt_Some in Hj. lia.
    + apply list_lookup_singleton_Some in Hj as [Hj ->].
      replace j with (length placed) by lia.
      apply list_lookup_insert_eq. lia.
  - intros j Hj. rewrite length_app in Hj. cbn in Hj.
    rewrite list_lookup_insert_ne by lia. apply H6. lia.
  - intros j m Hj. apply lookup_app_Some in Hj as [Hj|[Hlen Hj]].
    + rewrite vec_get_insert_ne; [auto | lia |].
      intros ->. apply Hn. eapply list_elem_of_lookup_2, Hj.
    + apply list_lookup_singleton_Some in Hj as [Hj ->].
      replace j with (length placed) by lia.
      apply vec_get_insert_eq. lia.
  - intros m Hm. rewrite not_elem_of_app, not_elem_of_cons in Hm.
    destruct Hm as [Hm [Hmn _]].
    rewrite vec_get_insert_ne by lia. auto.
Qed.

End Placing.

Section Loop.
Context {rng : Type} (getInt : rng -> Z * rng).
Variables (d0 : t) (s : shape).
Hypothesis Hc0 : consistent d0.
Hypothesis Hs : tree_shape (rootedTree d0) s.

(* the vector toAdd that holds the roots of the shapes still to visit *)
Definition pointers (pending : list shape) : list (option Z) :=
  (fun sh => Some (label sh)) <$> pending.

Lemma random_index (v : Z) (pending : list shape) :
  pending <> [] -> Z.of_nat (length pending) <= 2 ^ 32 ->
  exists i sh,
    wrap_uint (wrap_size v `mod` vec_size (pointers pending)) = Z.of_nat i
    /\ pending !! i = Some sh.
Proof.
  intros Hne Hlen. unfold vec_size, pointers. rewrite length_fmap.
  assert (0 < Z.of_nat (length pending)) by (destruct pending; [done | cbn; lia]).
  rewrite (wrap_size_small (Z.of_nat _)) by lia.
  pose proof (Z.mod_pos_bound (wrap_size v) (Z.of_nat (length pending))) as Hb.
  rewrite wrap_uint_small by lia.
  destruct (lookup_lt_is_Some_2 pending
              (Z.to_nat (wrap_size v `mod` Z.of_nat (length pending))))
    as [sh Hsh]; [lia|].
  eexists _, sh. split; [|exact Hsh]. lia.
Qed.

Lemma pointers_get (pending : list shape) (i : nat) (sh : shape) :
  pending !! i = Some sh ->
  vec_get (pointers pending) (Z.of_nat i) = Ok (Some (label sh)).
Proof.
  intros H. apply vec_get_Ok. split; [lia|].
  rewrite Nat2Z.id. unfold pointers. rewrite list_lookup_fmap, H. reflexivity.
Qed.

Lemma pointers_set (pending : list shape) (i : nat) (sh sh' : shape) :
  pending !! i = Some sh ->
  vec_set (pointers pending) (Z.of_nat i) (Some (label sh'))
  = Ok (pointers (<[i := sh']> pending)).
Proof.
  intros H. apply lookup_lt_Some in H.
  rewrite vec_set_Ok by (unfold pointers; rewrite length_fmap; lia).
  rewrite Nat2Z.id. unfold pointers. rewrite list_fmap_insert. reflexivity.
Qed.

Lemma pointers_last (pending : list shape) (sh : shape) :
  last pending = Some sh -> last (pointers pending) = Some (Some (label sh)).
Proof. intros H. unfold pointers. rewrite fmap_last, H. reflexivity. Qed.

(* a leaf is dropped from toAdd *)
Lemma randomize_step_leaf (g g1 : rng) (v k n : Z) (p : option Z)
    (pending : list shape) (i : nat) (shl : shape) (d : t) :
  getInt g = (v, g1) ->
  wrap_uint (wrap_size v `mod` vec_size (pointers pending)) = Z.of_nat i ->
  pending !! i = Some (SLeaf n) -> last pending = Some shl ->
  getNode (rootedTree d) n = Ok (mk_rnode p None None) ->
  randomize_step getInt g (pointers pending) k d
  = Ok (g1, pointers (removelast (<[i := shl]> pending)), k, d).
Proof.
  intros Hg Hi Hsh Hlast Hn. unfold randomize_step. rewrite Hg, Hi.
  rewrite (pointers_get _ _ _ Hsh). cbn [mbind result_bind of_option label].
  rewrite Hn. cbn [mbind result_bind left].
  rewrite (pointers_last _ _ Hlast). cbn [mbind result_bind of_option].
  rewrite (pointers_set _ _ _ shl Hsh). cbn [mbind result_bind].
  unfold pointers. rewrite fmap_removelast. reflexivity.
Qed.

(* an inner node gets the next rank, its children join toAdd *)
Lemma randomize_step_inner (g g1 : rng) (v n : Z) (p : option Z)
    (pending : list shape) (i : nat) (l r : shape) (d : t) (k : nat) :
  getInt g = (v, g1) ->
  wrap_uint (wrap_size v `mod` vec_size (pointers pending)) = Z.of_nat i ->
  pending !! i = Some (SInner n l r) ->
  getNode (rootedTree d) n
    = Ok (mk_rnode p (Some (label l)) (Some (label r))) ->
  (k < length (orderedSpeciations d))%nat ->
  0 <= n < Z.of_nat (length (ranks d)) ->
  Z.of_nat k + 1 < 2 ^ 32 ->
  randomize_step getInt g (pointers pending) (Z.of_nat k) d
  = Ok (g1, pointers (<[i := l]> pending ++ [r]), Z.of_nat (S k),
        mk (fromBL d) (rootedTree d)
          (<[k := n]> (orderedSpeciations d))
          (<[Z.to_nat n := Z.of_nat k]> (ranks d))).
Proof.
  intros Hg Hi Hsh Hn Hk Hnb Hk32. unfold randomize_step. rewrite Hg, Hi.
  rewrite (pointers_get _ _ _ Hsh). cbn [mbind result_bind of_option label].
  rewrite Hn. cbn [mbind result_bind left right].
  rewrite (vec_set_Ok (orderedSpeciations d)) by lia.
  cbn [mbind result_bind]. rewrite Nat2Z.id.
  rewrite (vec_set_Ok (ranks d)) by lia. cbn [mbind result_bind].
  rewrite (pointers_set _ _ _ l Hsh). cbn [mbind result_bind].
  rewrite wrap_uint_small by lia.
  unfold pointers. rewrite fmap_app.
  replace (Z.of_nat k + 1) with (Z.of_nat (S k)) by lia. reflexivity.
Qed.

Lemma inners_NoDup : NoDup (inners s).
Proof.
  destruct Hs as (_ & _ & Hnd & _).
  eapply sublist_NoDup; [exact Hnd | apply inners_sublist].
Qed.

Lemma size_weight : size d0 = Z.of_nat (weight s).
Proof.
  destruct Hs as (_ & _ & _ & Hlen).
  unfold size. rewrite weight_labels, Hlen. reflexivity.
Qed.

Lemma randomize_loop_places (fuel : nat) :
  forall (g : rng) (pending : list shape) (placed : list Z) (d : t),
  placing d0 d placed ->
  Forall (fun sh => exists p, embeds (rootedTree d0) p sh) pending ->
  placed ++ concat (inners <$> pending) ≡ₚ inners s ->
  (length placed + total_weight pending <= weight s)%nat ->
  (total_weight pending <= fuel)%nat ->
  exists g' d' placed',
    randomize_loop getInt fuel g (pointers pending)
      (Z.of_nat (length placed)) d = Ok (g', d')
    /\ placing d0 d' placed' /\ placed' ≡ₚ inners s.
Proof.
  pose proof (size_bounds d0 Hc0) as Hsb. rewrite size_weight in Hsb.
  pose proof (size_order d0 Hc0) as Hso. rewrite size_weight in Hso.
  pose proof (size_ranks d0 Hc0) as Hsr. rewrite size_weight in Hsr.
  induction fuel as [|fuel IH]; intros g pending placed d Hpl Hemb Hperm Hw Hf.
  - destruct pending as [|sh rest].
    + exists g, d, placed. rewrite app_nil_r in Hperm. auto.
    + pose proof (total_weight_length (sh :: rest)). cbn in *. lia.
  - destruct pending as [|sh0 rest] eqn:Hpend.
    { exists g, d, placed. rewrite app_nil_r in Hperm. auto. }
    rewrite <- Hpend in *.
    assert (Hne : pending <> []) by (rewrite Hpend; discriminate).
    pose proof (total_weight_length pending) as Hlen.
    assert (Hloop : forall k,
      randomize_loop getInt (S fuel) g (pointers pending) k d
      = '(g', toAdd', currentRank', d') ←
          randomize_step getInt g (pointers pending) k d;
        randomize_loop getInt fuel g' toAdd' currentRank' d').
    { intros k. rewrite Hpend. reflexivity. }
    rewrite Hloop. clear Hloop.
    destruct (getInt g) as [v g1] eqn:Hg.
    destruct (random_index v pending Hne) as (i & sh & Hi & Hsh); [lia|].
    assert (Hsh_emb : exists p, embeds (rootedTree d0) p sh).
    { eapply (proj1 (Forall_forall _ _) Hemb), list_elem_of_lookup_2, Hsh. }
    destruct Hsh_emb as [p Hp].
    destruct (exists_last Hne) as (front & shl & Hfront).
    assert (Hlast : last pending = Some shl)
      by (rewrite Hfront; apply last_snoc).
    destruct sh as [n|n l r].
    + (* a leaf *)
      cbn in Hp.
      rewrite (randomize_step_leaf g g1 v _ n p pending i shl d);
        auto; [|rewrite (pl_tree d0 d placed Hpl); exact Hp].
      cbn [mbind result_bind].
      pose proof (swap_remove_Permutation pending i _ shl Hsh Hlast) as Hsr'.
      apply IH; auto.
      * rewrite Hsr' in Hemb. apply Forall_cons in Hemb. tauto.
      * rewrite <- Hperm. rewrite (inners_Permutation _ _ Hsr'). reflexivity.
      * rewrite (total_weight_Permutation _ _ Hsr') in Hw.
        unfold total_weight in *. cbn in Hw. lia.
      * rewrite (total_weight_Permutation _ _ Hsr') in Hf.
        unfold total_weight in *. cbn in Hf. lia.
    + (* a speciation *)
      cbn in Hp. destruct Hp as (Hn & Hl & Hr).
      pose proof (insert_Permutation pending i _ l Hsh) as Hins.
      assert (Hwt : (weight l + total_weight pending
                     = S (weight l + weight r) + total_weight (<[i := l]> pending))%nat).
      { apply total_weight_Permutation in Hins.
        unfold total_weight in *. cbn in Hins. exact Hins. }
      pose proof (weight_positive l). pose proof (weight_positive r).
      assert (Hinn : concat (inners <$> pending)
                     ≡ₚ n :: inners r ++ concat (inners <$> <[i := l]> pending)).
      { apply inners_Permutation in Hins. cbn in Hins.
        rewrite <- !app_assoc in Hins.
        rewrite (Permutation_middle (inners l)) in Hins.
        apply Permutation_app_inv_l in Hins. rewrite Hins.
        constructor. reflexivity. }
      assert (Hfresh : n ∉ placed).
      { pose proof inners_NoDup as Hnd. rewrite <- Hperm, Hinn in Hnd.
        apply NoDup_app in Hnd as (_ & Hdisj & _).
        intros Hin. apply (Hdisj n Hin). left. }
      assert (Hnb : 0 <= n < Z.of_nat (length (ranks d0))).
      { apply vec_get_bounds in Hn. pose proof size_weight as Hsw.
        unfold size in Hsw. lia. }
      rewrite (randomize_step_inner g g1 v n p pending i l r d
                 (length placed)); auto;
        [|rewrite (pl_tree d0 d placed Hpl); exact Hn
         |rewrite (pl_length_order d0 d placed Hpl); lia
         |rewrite (pl_length_ranks d0 d placed Hpl); exact Hnb
         |lia].
      cbn [mbind result_bind].
      replace (S (length placed)) with (length (placed ++ [n]))
        by (rewrite length_app; cbn; lia).
      apply IH.
      * apply placing_next; auto. lia.
      * apply Forall_app. split; [|repeat constructor; eauto].
        apply Forall_insert; eauto.
      * rewrite <- Hperm, Hinn, fmap_app, concat_app. cbn.
        rewrite app_nil_r, <- app_assoc. cbn.
        apply Permutation_app_head. constructor. apply Permutation_app_comm.
      * rewrite length_app. unfold total_weight in *.
        rewrite sum_list_with_app. cbn. lia.
      * unfold total_weight in *. rewrite sum_list_with_app. cbn. lia.
Qed.

End Loop.

(** *** randomize keeps the dated tree consistent *)

Lemma internals_first_alt (d : t) (s : shape) :
  internals_first d s <->
  forall i n, vec_get (orderedSpeciations d) i = Ok n ->
    exists nd, getNode (rootedTree d) n = Ok nd
      /\ (i < Z.of_nat (length (inners s)) <-> left nd <> None).
Proof.
  unfold internals_first. rewrite Forall_forall. split.
  - intros H i n Hi. apply elem_of_indexed, H in Hi.
    destruct (getNode (rootedTree d) n) as [nd|]; [eauto | contradiction].
  - intros H [i n] Hi. apply elem_of_indexed, H in Hi.
    destruct Hi as (nd & -> & Hnd). exact Hnd.
Qed.

Section Placed.
Variables (d0 d : t) (s : shape) (placed : list Z).
Hypothesis Hc0 : consistent d0.
Hypothesis Hs : tree_shape (rootedTree d0) s.
Hypothesis Hif : internals_first d0 s.
Hypothesis Hpl : placing d0 d placed.
Hypothesis Hperm : placed ≡ₚ inners s.

Lemma placed_inner (n : Z) :
  n ∈ placed ->
  exists nd, getNode (rootedTree d0) n = Ok nd /\ left nd <> None.
Proof.
  intros Hn. rewrite Hperm in Hn. destruct Hs as (He & _).
  eapply embeds_inner; eassumption.
Qed.

(* the nodes behind the speciations are leaves, and are not placed *)
Lemma behind_not_placed (i n : Z) :
  Z.of_nat (length placed) <= i ->
  vec_get (orderedSpeciations d0) i = Ok n -> n ∉ placed.
Proof.
  intros Hi Hn Hin.
  destruct (proj1 (internals_first_alt d0 s) Hif i n Hn) as (nd & Hnd & Hiff).
  destruct (placed_inner n Hin) as (nd' & Hnd' & Hl).
  assert (nd' = nd) as -> by congruence.
  apply Hiff in Hl. rewrite <- Hperm in Hl. lia.
Qed.

Lemma placed_order (i : Z) :
  vec_get (orderedSpeciations d) i
  = if decide (i < Z.of_nat (length placed)) then vec_get placed i
    else vec_get (orderedSpeciations d0) i.
Proof.
  unfold vec_get. destruct (Z.ltb_spec i 0).
  { case_decide; reflexivity. }
  case_decide as Hi.
  - destruct (lookup_lt_is_Some_2 placed (Z.to_nat i)) as [n Hn]; [lia|].
    rewrite Hn, (pl_order_new d0 d placed Hpl _ _ Hn). reflexivity.
  - rewrite (pl_order_old d0 d placed Hpl) by lia. reflexivity.
Qed.

Lemma placed_consistent : consistent d.
Proof.
  assert (Hsz : size d = size d0)
    by (unfold size; rewrite (pl_tree d0 d placed Hpl); reflexivity).
  split.
  - rewrite Hsz, (pl_length_order d0 d placed Hpl). apply (size_order d0 Hc0).
  - rewrite Hsz, (pl_length_ranks d0 d placed Hpl). apply (size_ranks d0 Hc0).
  - rewrite Hsz. apply (size_bounds d0 Hc0).
  - intros i n. rewrite placed_order. case_decide as Hi; intros Hn.
    + apply vec_get_Ok in Hn as [H0 Hn].
      rewrite (pl_ranks_new d0 d placed Hpl _ _ Hn). f_equal. lia.
    + rewrite (pl_ranks_old d0 d placed Hpl).
      * apply (rank_of_position d0 Hc0), Hn.
      * eapply behind_not_placed; [|exact Hn]. lia.
  - intros n r Hr. rewrite placed_order.
    destruct (decide (n ∈ placed)) as [Hin|Hout].
    + apply list_elem_of_lookup in Hin as [j Hj].
      rewrite (pl_ranks_new d0 d placed Hpl _ _ Hj) in Hr. injection Hr as <-.
      pose proof (lookup_lt_Some _ _ _ Hj).
      case_decide; [|lia]. apply vec_get_Ok. rewrite Nat2Z.id. split; [lia|auto].
    + rewrite (pl_ranks_old d0 d placed Hpl) in Hr by exact Hout.
      apply (position_of_rank d0 Hc0) in Hr.
      case_decide as Hlt; [|exact Hr]. exfalso.
      destruct (proj1 (internals_first_alt d0 s) Hif r n Hr) as (nd & Hnd & Hiff).
      rewrite <- Hperm in Hiff. apply Hiff in Hlt.
      (* [n] is a speciation, hence among the placed nodes *)
      apply Hout. rewrite Hperm. eapply tree_shape_inners; eassumption.
Qed.

Lemma placed_internals_first : internals_first d s.
Proof.
  apply internals_first_alt. intros i n. rewrite placed_order.
  rewrite (pl_tree d0 d placed Hpl). case_decide as Hi; intros Hn.
  - apply vec_get_Ok in Hn as [_ Hn%list_elem_of_lookup_2].
    destruct (placed_inner n Hn) as (nd & Hnd & Hl).
    exists nd. split; [exact Hnd|]. rewrite <- Hperm. tauto.
  - apply (proj1 (internals_first_alt d0 s) Hif), Hn.
Qed.

End Placed.

(* what every mutation of the dating keeps *)
Definition well_dated (s : shape) (d : t) : Prop :=
  consistent d /\ fromBL d = true /\ tree_shape (rootedTree d) s
  /\ internals_first d s.

Section Mutations.
Context {rng : Type} (getInt : rng -> Z * rng).
Variable s : shape.

Lemma randomize_keeps (fuel : nat) (g : rng) (d : t) :
  well_dated s d -> (length (nodes (rootedTree d)) <= fuel)%nat ->
  exists g' d', randomize getInt fuel g d = Ok (g', d')
    /\ well_dated s d' /\ rootedTree d' = rootedTree d.
Proof.
  intros (Hc & Hd & Hs & Hif) Hfuel.
  pose proof (size_weight d s Hs) as Hsw. unfold size in Hsw.
  destruct (randomize_loop_places getInt d s Hc Hs fuel g [s] [] d)
    as (g' & d' & placed & Hrun & Hpl & Hperm).
  - apply placing_start.
  - repeat constructor. exists None. apply Hs.
  - cbn. rewrite app_nil_r. reflexivity.
  - unfold total_weight. cbn. lia.
  - unfold total_weight. cbn. lia.
  - exists g', d'. unfold randomize. rewrite Hd. cbn [negb].
    destruct Hs as (He & Hroot & Hrest). unfold pointers in Hrun. cbn in Hrun.
    rewrite Hroot in Hrun. split; [exact Hrun|].
    assert (Hs : tree_shape (rootedTree d) s) by (repeat split; tauto).
    split; [|apply (pl_tree d d' placed Hpl)].
    split; [eapply placed_consistent; eassumption|].
    split; [rewrite (pl_fromBL d d' placed Hpl); exact Hd|].
    split; [rewrite (pl_tree d d' placed Hpl); exact Hs|].
    eapply placed_internals_first; eassumption.
Qed.

Lemma swapped_internals_first (d : t) (rank n1 n2 : Z) (nd1 nd2 : rnode) :
  consistent d -> 0 <= rank /\ rank + 1 < size d ->
  vec_get (orderedSpeciations d) rank = Ok n1 ->
  vec_get (orderedSpeciations d) (rank + 1) = Ok n2 ->
  getNode (rootedTree d) n1 = Ok nd1 -> getNode (rootedTree d) n2 = Ok nd2 ->
  left nd1 <> None -> left nd2 <> None ->
  internals_first d s -> internals_first (swapped d rank n1 n2) s.
Proof.
  intros Hc Hr Hn1 Hn2 Hnd1 Hnd2 Hl1 Hl2 Hif.
  rewrite internals_first_alt in *. intros i n.
  rewrite (swapped_order d rank n1 n2 Hc Hr). cbn [rootedTree swapped].
  destruct (Hif _ _ Hn2) as (nd2' & Hnd2' & Hiff2).
  assert (nd2' = nd2) as -> by congruence.
  apply Hiff2 in Hl2 as Hlt.
  repeat case_decide; subst.
  - intros [= <-]. exists nd2. split; [exact Hnd2|]. split; [tauto | lia].
  - intros [= <-]. exists nd1. split; [exact Hnd1|]. tauto.
  - apply Hif.
Qed.

Lemma apply_move_well_dated (d : t) (m : move) :
  well_dated s d -> is_uint (move_rank m) ->
  exists b d', apply_move d m = Ok (b, d')
    /\ well_dated s d' /\ rootedTree d' = rootedTree d.
Proof.
  intros Hwd Hm. pose proof Hwd as (Hc & Hd & Hs & Hif).
  assert (Hdown : forall rank, is_uint rank ->
    exists b d', moveDown d rank = Ok (b, d')
      /\ well_dated s d' /\ rootedTree d' = rootedTree d).
  { intros rank Hr.
    destruct (moveDown_cases d rank Hc Hd Hr)
      as [[-> _]|(n1 & n2 & nd1 & nd2 & Hin & Hn1 & Hn2 & Hnd1 & Hnd2
                  & Hl1 & Hl2 & _ & ->)].
    - exists false, d. auto.
    - exists true, (swapped d rank n1 n2). unfold is_uint in Hr.
      split; [reflexivity|]. split; [|reflexivity].
      split; [apply swapped_consistent; auto; lia|].
      split; [exact Hd|]. split; [exact Hs|].
      eapply swapped_internals_first; eauto. lia. }
  destruct m as [rank|rank]; cbn in *; [|auto].
  destruct (decide (rank = 0)) as [->|H0].
  - exists false, d. unfold moveUp. rewrite Hd. cbn. auto.
  - rewrite moveUp_moveDown by auto. apply Hdown. unfold is_uint in *. lia.
Qed.

Lemma mutate_well_dated (fuel : nat) (ops : list mutation) :
  forall (g : rng) (d : t),
  well_dated s d -> Forall mutation_typed ops ->
  (length (nodes (rootedTree d)) <= fuel)%nat ->
  exists g' d', mutate getInt fuel g d ops = Ok (g', d')
    /\ well_dated s d' /\ rootedTree d' = rootedTree d.
Proof.
  induction ops as [|op ops IH]; intros g d Hwd Hops Hfuel.
  - exists g, d. auto.
  - inversion Hops as [|? ? Hop Hops']; subst.
    assert (Hstep : exists g1 d1, apply_mutation getInt fuel g d op = Ok (g1, d1)
              /\ well_dated s d1 /\ rootedTree d1 = rootedTree d).
    { destruct op as [m|]; cbn in *.
      - destruct (apply_move_well_dated d m Hwd Hop) as (b & d1 & -> & H1 & H2).
        exists g, d1. auto.
      - apply randomize_keeps; auto. }
    destruct Hstep as (g1 & d1 & Hrun1 & Hwd1 & Ht1).
    destruct (IH g1 d1 Hwd1 Hops') as (g' & d' & Hrun & Hwd' & Ht');
      [rewrite Ht1; exact Hfuel|].
    exists g', d'. cbn. rewrite Hrun1. cbn. rewrite Hrun.
    split; [reflexivity|]. split; [exact Hwd' | congruence].
Qed.

(** C5. A backup taken from a dated tree restores it after any sequence
    of moveUp, moveDown and randomize calls: the calls return, and
    [restore] then sets [ranks] to the backup and brings
    [orderedSpeciations] back to what it was when the backup was taken. *)
Theorem backup_restore_round_trip (d : t) (ops : list mutation)
    (g : rng) (fuel : nat) :
  consistent d -> fromBL d = true -> tree_shape (rootedTree d) s ->
  internals_first d s -> Forall mutation_typed ops ->
  (length (nodes (rootedTree d)) <= fuel)%nat ->
  exists g' d' d'',
    mutate getInt fuel g d ops = Ok (g', d')
    /\ restore d' (getBackup d) = Ok d''
    /\ ranks d'' = getBackup d
    /\ orderedSpeciations d'' = orderedSpeciations d
    /\ d'' = d.
Proof.
  intros Hc Hd Hs Hif Hops Hfuel.
  destruct (mutate_well_dated fuel ops g d) as (g' & d' & Hrun & Hwd & Ht);
    auto.
  { unfold well_dated. auto. }
  destruct Hwd as (Hc' & Hd' & _ & _).
  exists g', d', d. split; [exact Hrun|].
  rewrite (restore_backup d d' Hc Hc') by (unfold size; rewrite Ht; reflexivity).
  rewrite Hd', Ht, <- Hd. destruct d; auto.
Qed.

End Mutations.

Lemma S1_shape : tree_shape S1.tree S1.tree_as_shape.
Proof.
  unfold tree_shape. cbn. repeat split; try reflexivity.
  apply (bool_decide_unpack (NoDup _)). vm_compute. exact I.
Qed.

Lemma S1_internals_first : internals_first S1.dated S1.tree_as_shape.
Proof.
  unfold internals_first. cbn.
  repeat constructor; try lia; try discriminate;
    intros H; try lia; exfalso; apply H; reflexivity.
Qed.

Lemma backup_restore_round_trip_witness :
  exists g' d',
    mutate S1.counter 7 0 S1.dated
      [Swap (Up 2); Randomize; Swap (Down 0); Randomize; Swap (Down 1)]
    = Ok (g', d')
    /\ restore d' (getBackup S1.dated) = Ok S1.dated.
Proof.
  destruct (backup_restore_round_trip S1.counter S1.tree_as_shape S1.dated
    [Swap (Up 2); Randomize; Swap (Down 0); Randomize; Swap (Down 1)] 0 7)
    as (g' & d' & d'' & Hrun & Hres & _ & _ & ->).
  - apply consistentb_sound. vm_compute. reflexivity.
  - reflexivity.
  - exact S1_shape.
  - exact S1_internals_first.
  - repeat constructor; unfold is_uint; cbn; lia.
  - cbn. lia.
  - exists g', d'. split; assumption.
Defined.

End RandomizeFacts.

(** ** The dating search *)

Module SearchFacts.
Import DatedTree DatedTreeFacts Search.

(** *** Lists *)

Lemma filter_shrinks {A} (P Q : A -> Prop)
    `{forall x, Decision (P x)} `{forall x, Decision (Q x)}
    (l : list A) (x0 : A) :
  (forall x, x ∈ l -> Q x -> P x) -> x0 ∈ l -> P x0 -> ~ Q x0 ->
  (length (filter Q l) < length (filter P l))%nat.
Proof.
  intros Hsub Hin HP HQ.
  assert (Hle : forall k : list A, (forall x, x ∈ k -> Q x -> P x) ->
                (length (filter Q k) <= length (filter P k))%nat).
  { induction k as [|a k IH]; intros Hk; [reflexivity|].
    rewrite !filter_cons.
    assert (IHk : (length (filter Q k) <= length (filter P k))%nat)
      by (apply IH; intros x Hx; apply Hk; right; exact Hx).
    destruct (decide (Q a)) as [Ha|Ha].
    - rewrite decide_True by (apply Hk; [left | exact Ha]). cbn. lia.
    - destruct (decide (P a)); cbn; lia. }
  induction l as [|a l IH]; [inversion Hin|].
  rewrite !filter_cons.
  assert (Hl : forall x, x ∈ l -> Q x -> P x)
    by (intros x Hx; apply Hsub; right; exact Hx).
  apply elem_of_cons in Hin as [<-|Hin].
  - destruct (decide (Q x0)); [contradiction|].
    destruct (decide (P x0)); [|contradiction].
    cbn. specialize (Hle l Hl). lia.
  - specialize (IH Hl Hin).
    destruct (decide (Q a)) as [Ha|Ha].
    + rewrite decide_True by (apply Hsub; [left | exact Ha]). cbn. lia.
    + destruct (decide (P a)); cbn; lia.
Qed.

Lemma swap_Permutation {A} (l : list A) (a b : nat) (x y : A) :
  a <> b -> l !! a = Some x -> l !! b = Some y ->
  <[a := y]> (<[b := x]> l) ≡ₚ l.
Proof.
  intros Hne Ha Hb.
  pose proof (RandomizeFacts.insert_Permutation l b y x Hb) as H1.
  assert (Ha' : <[b := x]> l !! a = Some x)
    by (rewrite list_lookup_insert_ne by auto; exact Ha).
  pose proof (RandomizeFacts.insert_Permutation _ a x y Ha') as H2.
  rewrite H2 in H1. apply Permutation_cons_inv in H1. symmetry. exact H1.
Qed.

(** *** Rank swaps permute the dating *)

Lemma swapped_Permutation (d : t) (rank n1 n2 : Z) :
  consistent d -> 0 <= rank ->
  vec_get (orderedSpeciations d) rank = Ok n1 ->
  vec_get (orderedSpeciations d) (rank + 1) = Ok n2 ->
  ranks (swapped d rank n1 n2) ≡ₚ ranks d
  /\ orderedSpeciations (swapped d rank n1 n2) ≡ₚ orderedSpeciations d.
Proof.
  intros Hc Hr Hn1 Hn2.
  pose proof (rank_of_position d Hc _ _ Hn1) as Hr1.
  pose proof (rank_of_position d Hc _ _ Hn2) as Hr2.
  assert (Hne : n1 <> n2).
  { intros ->. pose proof (consistent_injective d _ _ _ Hc Hn1 Hn2). lia. }
  apply vec_get_Ok in Hn1 as [? Hn1], Hn2 as [? Hn2], Hr1 as [? Hr1],
    Hr2 as [? Hr2].
  unfold swapped. cbn. split; apply swap_Permutation; auto; lia.
Qed.

Lemma moveUp_Permutation (d d' : t) (rank : Z) (b : bool) :
  consistent d -> fromBL d = true -> is_uint rank ->
  moveUp d rank = Ok (b, d') ->
  ranks d' ≡ₚ ranks d /\ orderedSpeciations d' ≡ₚ orderedSpeciations d.
Proof.
  intros Hc Hd Hr Hmv. destruct b.
  - destruct (decide (rank = 0)) as [->|H0].
    { unfold moveUp in Hmv. rewrite Hd in Hmv. discriminate. }
    rewrite moveUp_moveDown in Hmv by auto.
    assert (Hr' : is_uint (rank - 1)) by (unfold is_uint in *; lia).
    destruct (moveDown_cases d (rank - 1) Hc Hd Hr')
      as [[E _]|(n1 & n2 & nd1 & nd2 & _ & Hn1 & Hn2 & _ & _ & _ & _ & _ & E)];
      rewrite E in Hmv; [discriminate|].
    injection Hmv as <-. unfold is_uint in Hr'.
    apply swapped_Permutation; auto; lia.
  - apply moveUp_false in Hmv as ->. auto.
Qed.

(** *** The local search: optimizeDatesLocal *)

Section LocalSearch.
Context {Env : Type} `{Collaborators Env}.

(** The scorer is a function of the dating, and the collaborators do not
    fail. *)
Variable score : list Z -> list Z -> double.
Hypothesis Hscore : forall s e, exists perFamLL e',
  computeLikelihood s e = Ok (score (ranks s) (orderedSpeciations s), perFamLL, e').
Hypothesis Hnotify : forall s e, exists e', onSpeciesDatesChange s e = Ok e'.
Hypothesis Hcallback : forall ll perFamLL s e, exists e',
  betterTreeCallback ll perFamLL s e = Ok e'.

(* the tree at the entry of the search *)
Variable s0 : SpeciesTree.
Hypothesis Hinv0 : invariant s0.
Hypothesis Hdated0 : fromBL s0 = true.

Definition score_of (s : SpeciesTree) : double :=
  score (ranks s) (orderedSpeciations s).

(* the datings that rank swaps can reach *)
Definition universe : list (list Z * list Z) :=
  cprod (permutations (ranks s0)) (permutations (orderedSpeciations s0)).

Definition better (best : double) (dating : list Z * list Z) : Prop :=
  gtb (score dating.1 dating.2) best = true.

#[local] Instance better_dec best dating : Decision (better best dating).
Proof. unfold better. apply _. Defined.

(* how many datings score above [best] *)
Definition room (best : double) : nat := length (filter (better best) universe).

Record searching (s : SpeciesTree) (best : double) : Prop := mk_searching {
  sr_invariant : invariant s;
  sr_dated : fromBL s = true;
  sr_tree : rootedTree s = rootedTree s0;
  sr_ranks : ranks s ≡ₚ ranks s0;
  sr_order : orderedSpeciations s ≡ₚ orderedSpeciations s0;
  sr_best : score_of s = best
}.

Lemma searching_in_universe (s : SpeciesTree) (best : double) :
  searching s best -> (ranks s, orderedSpeciations s) ∈ universe.
Proof.
  intros Hs. unfold universe. apply list_elem_of_cprod.
  split; apply permutations_Permutation; symmetry;
    [apply (sr_ranks s best Hs) | apply (sr_order s best Hs)].
Qed.

Lemma room_decreases (s : SpeciesTree) (best : double) :
  searching s (score_of s) -> gtb (score_of s) best = true ->
  (room (score_of s) < room best)%nat.
Proof.
  intros Hs Hgt. unfold room.
  apply (filter_shrinks _ _ _ (ranks s, orderedSpeciations s)).
  - intros dating _ Hb. unfold better, gtb in *.
    eapply ltb_trans; [exact Hgt | exact Hb].
  - eapply searching_in_universe, Hs.
  - exact Hgt.
  - unfold better, gtb. cbn. fold (score_of s). rewrite ltb_irrefl. discriminate.
Qed.

(* what a call of moveUp does during the search *)
Lemma moveUp_searching (s : SpeciesTree) (best : double) (rank : Z) :
  searching s best -> is_uint rank ->
  moveUp s rank = Ok (false, s)
  \/ exists s1, moveUp s rank = Ok (true, s1)
       /\ searching s1 (score_of s1) /\ moveUp s1 rank = Ok (true, s).
Proof.
  intros [Hinv Hd Ht Hrk Hos Hb] Hr.
  destruct (moveUp_keeps s rank (proj1 Hinv) Hd Hr)
    as ([] & s1 & Hmv & Hc1 & Hp1 & Hd1 & Ht1).
  - right. exists s1. split; [exact Hmv|].
    destruct (moveUp_Permutation s s1 rank true (proj1 Hinv) Hd Hr Hmv)
      as [Hrk1 Hos1].
    split; [|apply moveUp_undo; auto].
    split; auto.
    + split; [exact Hc1 | apply Hp1, Hinv].
    + congruence.
    + rewrite Hrk1. exact Hrk.
    + rewrite Hos1. exact Hos.
  - left. pose proof (moveUp_false _ _ _ Hmv) as ->. exact Hmv.
Qed.

Section Loops.
Variable searchState : bool.
Variable maxRank : Z.
Hypothesis HmaxRank : is_uint maxRank.

(* the score does not go down *)
Definition improves (best best' : double) : Prop :=
  best' = best \/ (ltb best best' = true /\ (room best' < room best)%nat).

Lemma improves_trans (a b c : double) :
  improves a b -> improves b c -> improves a c.
Proof.
  intros [->|[Hab Hrab]] [->|[Hbc Hrbc]]; unfold improves; auto.
  right. split; [eapply ltb_trans; eassumption | lia].
Qed.

Lemma datesLoop_unfold (fuel : nat) (rank : Z) (best : double)
    (s : SpeciesTree) (e : Env) :
  datesLoop (S fuel) searchState maxRank rank best s e =
  if negb (rank <? maxRank) then Ok (best, s, e) else
  '(moved, s1) ← moveUp s rank;
  if negb moved
  then datesLoop fuel searchState maxRank (wrap_uint (rank + 1)) best s1 e
  else
    e1 ← onSpeciesDatesChange s1 e;
    '(ll, perFamLL, e2) ← computeLikelihood s1 e1;
    e3 ← (if searchState && gtb ll (searchBestLL e2)
          then betterTreeCallback ll perFamLL s1 e2
          else Ok e2);
    if gtb ll best then
      datesLoop fuel searchState maxRank
        (wrap_uint (wrap_uint (rank - Z.min 2 rank) + 1)) ll s1 e3
    else
      '(_, s2) ← moveUp s1 rank;
      datesLoop fuel searchState maxRank (wrap_uint (rank + 1)) best s2 e3.
Proof. reflexivity. Qed.

(* the evaluation of an accepted or rejected candidate *)
Lemma evaluate_candidate (s1 : SpeciesTree) (e : Env) :
  exists e1 perFamLL e2 e3,
    onSpeciesDatesChange s1 e = Ok e1
    /\ computeLikelihood s1 e1 = Ok (score_of s1, perFamLL, e2)
    /\ (if searchState && gtb (score_of s1) (searchBestLL e2)
        then betterTreeCallback (score_of s1) perFamLL s1 e2
        else Ok e2) = Ok e3.
Proof.
  destruct (Hnotify s1 e) as [e1 He1].
  destruct (Hscore s1 e1) as (pf & e2 & He2).
  exists e1, pf, e2.
  destruct (searchState && gtb (score_of s1) (searchBestLL e2)).
  - destruct (Hcallback (score_of s1) pf s1 e2) as [e3 He3]. eauto.
  - eauto.
Qed.

Lemma wrap_uint_is_uint (z : Z) : is_uint (wrap_uint z).
Proof. unfold is_uint, wrap_uint. apply Z.mod_pos_bound. lia. Qed.

(** The for loop returns, with the score of the dating it leaves. *)
Lemma datesLoop_returns (best : double) :
  forall (k : nat) (rank : Z) (s : SpeciesTree) (e : Env),
  searching s best -> is_uint rank -> (Z.to_nat (maxRank - rank) <= k)%nat ->
  exists f0 best' s' e',
    (forall fuel, (f0 <= fuel)%nat ->
       datesLoop fuel searchState maxRank rank best s e = Ok (best', s', e'))
    /\ searching s' best' /\ improves best best'.
Proof.
  remember (room best) as n eqn:Hn. revert best Hn.
  induction n as [n IHn] using lt_wf_ind. intros best Hn.
  induction k as [|k IHk]; intros rank s e Hs Hr Hk.
  - (* the loop is at its end *)
    exists 1%nat, best, s, e. split; [|split; [exact Hs | left; reflexivity]].
    intros [|fuel] Hf; [lia|]. rewrite datesLoop_unfold.
    destruct (Z.ltb_spec rank maxRank); [lia | reflexivity].
  - destruct (Z.ltb_spec rank maxRank) as [Hlt|Hge].
    2:{ exists 1%nat, best, s, e. split; [|split; [exact Hs | left; reflexivity]].
        intros [|fuel] Hf; [lia|]. rewrite datesLoop_unfold.
        destruct (Z.ltb_spec rank maxRank); [lia | reflexivity]. }
    assert (Hnext : wrap_uint (rank + 1) = rank + 1)
      by (apply wrap_uint_small; unfold is_uint in *; lia).
    assert (Hcont : forall e, exists f0 best' s' e',
      (forall fuel, (f0 <= fuel)%nat ->
         datesLoop fuel searchState maxRank (wrap_uint (rank + 1)) best s e
         = Ok (best', s', e'))
      /\ searching s' best' /\ improves best best').
    { intros e0. rewrite Hnext. apply IHk; auto; unfold is_uint in *; lia. }
    destruct (moveUp_searching s best rank Hs Hr)
      as [Hmv|(s1 & Hmv & Hs1 & Hback)].
    + (* the move is refused *)
      destruct (Hcont e) as (f0 & best' & s' & e' & Hrun & Hs' & Himp).
      exists (S f0), best', s', e'. split; [|auto].
      intros [|fuel] Hf; [lia|]. rewrite datesLoop_unfold.
      destruct (Z.ltb_spec rank maxRank); [|lia].
      rewrite Hmv. cbn [mbind result_bind negb]. apply Hrun. lia.
    + destruct (evaluate_candidate s1 e) as (e1 & pf & e2 & e3 & He1 & He2 & He3).
      destruct (gtb (score_of s1) best) eqn:Hgt.
      * (* the move is accepted *)
        pose proof (room_decreases s1 best Hs1 Hgt) as Hroom.
        destruct (IHn (room (score_of s1)) ltac:(lia) (score_of s1) eq_refl
                    (Z.to_nat (maxRank -
                       wrap_uint (wrap_uint (rank - Z.min 2 rank) + 1)))
                    (wrap_uint (wrap_uint (rank - Z.min 2 rank) + 1)) s1 e3)
          as (f0 & best' & s' & e' & Hrun & Hs' & Himp);
          [exact Hs1 | apply wrap_uint_is_uint | lia |].
        exists (S f0), best', s', e'. split; [|split; [exact Hs'|]].
        -- intros [|fuel] Hf; [lia|]. rewrite datesLoop_unfold.
           destruct (Z.ltb_spec rank maxRank); [|lia].
           rewrite Hmv. cbn [mbind result_bind negb].
           rewrite He1. cbn [mbind result_bind].
           rewrite He2. cbn [mbind result_bind].
           rewrite He3. cbn [mbind result_bind].
           rewrite Hgt. apply Hrun. lia.
        -- eapply improves_trans; [|exact Himp].
           right. split; [exact Hgt | lia].
      * (* the move is rejected and undone *)
        destruct (Hcont e3) as (f0 & best' & s' & e' & Hrun & Hs' & Himp).
        exists (S f0), best', s', e'. split; [|auto].
        intros [|fuel] Hf; [lia|]. rewrite datesLoop_unfold.
        destruct (Z.ltb_spec rank maxRank); [|lia].
        rewrite Hmv. cbn [mbind result_bind negb].
        rewrite He1. cbn [mbind result_bind].
        rewrite He2. cbn [mbind result_bind].
        rewrite He3. cbn [mbind result_bind].
        rewrite Hgt, Hback. cbn [mbind result_bind]. apply Hrun. lia.
Qed.

Lemma datesRounds_unfold (fuel : nat) (best : double)
    (s : SpeciesTree) (e : Env) :
  datesRounds (S fuel) searchState maxRank best s e =
  '(best', s', e') ← datesLoop fuel searchState maxRank 0 best s e;
  if gtb (sub best' best) one
  then datesRounds fuel searchState maxRank best' s' e'
  else Ok (best', s', e').
Proof. reflexivity. Qed.

(** The do-while loop returns: every further round has a better score. *)
Lemma datesRounds_returns (best : double) :
  forall (s : SpeciesTree) (e : Env),
  searching s best ->
  exists f0 best' s' e',
    (forall fuel, (f0 <= fuel)%nat ->
       datesRounds fuel searchState maxRank best s e = Ok (best', s', e'))
    /\ searching s' best' /\ improves best best'.
Proof.
  remember (room best) as n eqn:Hn. revert best Hn.
  induction n as [n IHn] using lt_wf_ind. intros best Hn s e Hs.
  destruct (datesLoop_returns best (Z.to_nat maxRank) 0 s e Hs)
    as (f1 & best1 & s1 & e1 & Hrun1 & Hs1 & Himp1).
  { unfold is_uint. lia. }
  { lia. }
  destruct (gtb (sub best1 best) one) eqn:Hagain.
  - (* one more round *)
    destruct Himp1 as [->|[Hlt Hroom]].
    { rewrite sub_diag_not_above_one in Hagain. discriminate. }
    destruct (IHn (room best1) ltac:(lia) best1 eq_refl s1 e1 Hs1)
      as (f2 & best2 & s2 & e2 & Hrun2 & Hs2 & Himp2).
    exists (S (f1 `max` f2)), best2, s2, e2. split; [|split; [exact Hs2|]].
    + intros [|fuel] Hf; [lia|]. rewrite datesRounds_unfold.
      rewrite Hrun1 by lia. cbn [mbind result_bind].
      rewrite Hagain. apply Hrun2. lia.
    + eapply improves_trans; [|exact Himp2]. right. auto.
  - exists (S f1), best1, s1, e1. split; [|auto].
    intros [|fuel] Hf; [lia|]. rewrite datesRounds_unfold.
    rewrite Hrun1 by lia. cbn [mbind result_bind].
    rewrite Hagain. reflexivity.
Qed.

End Loops.

Lemma improves_leb (best best' : double) :
  improves best best' -> is_nan best = false -> leb best best' = true.
Proof.
  intros [->|[Hlt _]] Hnan; [apply leb_refl, Hnan | apply ltb_leb, Hlt].
Qed.

Lemma searching_start : searching s0 (score_of s0).
Proof. split; auto. Qed.

(** The local search returns, never below the score at the entry, and
    leaves the dating that has the score it returns. *)
Lemma optimizeDatesLocal_returns (searchState : bool) (e : Env) :
  exists f0 ll s' e',
    (forall fuel, (f0 <= fuel)%nat ->
       optimizeDatesLocal fuel searchState s0 e = Ok (ll, s', e'))
    /\ searching s' ll /\ improves (score_of s0) ll.
Proof.
  destruct (Hscore s0 e) as (pf & e0 & He0).
  destruct (datesRounds_returns searchState
              (getInnerNodeNumber (rootedTree s0)) (wrap_uint_is_uint _)
              (score_of s0) s0 e0 searching_start)
    as (f0 & ll & s' & e1 & Hrun & Hs' & Himp).
  destruct (Hnotify s' e1) as [e' He'].
  exists f0, ll, s', e'. split; [|auto].
  intros fuel Hf. unfold optimizeDatesLocal.
  rewrite He0. cbn [mbind result_bind]. fold (score_of s0).
  rewrite (Hrun fuel Hf). cbn [mbind result_bind].
  rewrite He'. reflexivity.
Qed.

End LocalSearch.

(** X1. With a scorer that is a function of the dating, and collaborators
    that return, [optimizeDatesLocal] returns a value that is not below
    the score at its entry, and the dating it leaves is the one that has
    the returned score; the tree keeps its invariants and its topology.
    A rejected move is undone by the second [moveUp(rank)], which gives
    back the tree of before the move. *)
Theorem optimizeDatesLocal_improves {Env : Type} `{Collaborators Env}
    (score : list Z -> list Z -> double) (searchState : bool)
    (s0 : SpeciesTree) (e : Env) :
  (forall s e, exists perFamLL e',
     computeLikelihood s e
     = Ok (score (ranks s) (orderedSpeciations s), perFamLL, e')) ->
  (forall s e, exists e', onSpeciesDatesChange s e = Ok e') ->
  (forall ll perFamLL s e, exists e',
     betterTreeCallback ll perFamLL s e = Ok e') ->
  invariant s0 -> fromBL s0 = true ->
  exists f0 ll s' e',
    (forall fuel, (f0 <= fuel)%nat ->
       optimizeDatesLocal fuel searchState s0 e = Ok (ll, s', e'))
    /\ (is_nan (score (ranks s0) (orderedSpeciations s0)) = false ->
        geb ll (score (ranks s0) (orderedSpeciations s0)) = true)
    /\ score (ranks s') (orderedSpeciations s') = ll
    /\ invariant s' /\ rootedTree s' = rootedTree s0
    /\ (forall d rank d1,
          invariant d -> fromBL d = true -> is_uint rank ->
          moveUp d rank = Ok (true, d1) ->
          moveUp d1 rank = Ok (true, d)).
Proof.
  intros Hscore Hnotify Hcallback Hinv0 Hd0.
  destruct (optimizeDatesLocal_returns score Hscore Hnotify Hcallback s0
              Hinv0 Hd0 searchState e)
    as (f0 & ll & s' & e' & Hrun & Hs' & Himp).
  exists f0, ll, s', e'. split; [exact Hrun|].
  split; [intros Hnan; eapply improves_leb; eassumption|].
  split; [apply (sr_best score s0 s' ll Hs')|].
  split; [apply (sr_invariant score s0 s' ll Hs')|].
  split; [apply (sr_tree score s0 s' ll Hs')|].
  intros d rank d1 Hinv Hd Hr Hmv. apply moveUp_undo; assumption.
Qed.

Lemma optimizeDatesLocal_improves_witness :
  exists f0 ll s' e',
    (forall fuel, (f0 <= fuel)%nat ->
       @optimizeDatesLocal Toy.env
         (Toy.collaborators
            (fun s => Toy.score_of_dating (ranks s) (orderedSpeciations s)) 0)
         fuel true S1.dated Toy.start = Ok (ll, s', e'))
    /\ geb ll (Toy.score_of_dating (ranks S1.dated)
                 (orderedSpeciations S1.dated)) = true
    /\ Toy.score_of_dating (ranks s') (orderedSpeciations s') = ll.
Proof.
  destruct (@optimizeDatesLocal_improves Toy.env
              (Toy.collaborators
                 (fun s => Toy.score_of_dating (ranks s) (orderedSpeciations s))
                 0)
              Toy.score_of_dating true S1.dated Toy.start)
    as (f0 & ll & s' & e' & Hrun & Hge & Hbest & _).
  - intros s e. exists [], e. reflexivity.
  - intros s e. exists e. reflexivity.
  - intros ll perFamLL s e. exists e. reflexivity.
  - apply invariantb_sound. vm_compute. reflexivity.
  - reflexivity.
  - exists f0, ll, s', e'. split; [exact Hrun|].
    split; [apply Hge; reflexivity | exact Hbest].
Defined.

(** *** What the dating search keeps *)

Lemma bind_Ok {A B} (m : result A) (k : A -> result B) (r : B) :
  m ≫= k = Ok r -> exists a, m = Ok a /\ k a = Ok r.
Proof. destruct m as [a|]; [eauto | discriminate]. Qed.

(* peel the first call off a run that returns *)
Ltac bind_inv H :=
  let a := fresh "a" in
  let E := fresh "E" in
  apply bind_Ok in H as (a & E & H).

Lemma moveDown_Ok (d d' : t) (rank : Z) (b : bool) :
  moveDown d rank = Ok (b, d') ->
  fromBL d = true /\ rootedTree d' = rootedTree d /\ fromBL d' = fromBL d.
Proof.
  unfold moveDown. destruct (fromBL d) eqn:Hd; [|discriminate].
  unfold mbind, result_bind. cbn [negb]. intros H.
  repeat case_match; simplify_eq; cbn; auto.
Qed.

Lemma moveUp_Ok (d d' : t) (rank : Z) (b : bool) :
  moveUp d rank = Ok (b, d') ->
  fromBL d = true /\ rootedTree d' = rootedTree d /\ fromBL d' = fromBL d.
Proof.
  unfold moveUp. intros H. destruct (fromBL d) eqn:Hd; [|discriminate].
  cbn in H. destruct (rank =? 0); [by simplify_eq|].
  apply moveDown_Ok in H. rewrite Hd in H. exact H.
Qed.

Lemma moveUp_Ok_consistent (d d' : t) (rank : Z) (b : bool) :
  is_uint rank -> moveUp d rank = Ok (b, d') -> consistent d -> consistent d'.
Proof.
  intros Hr Hmv Hc. destruct (moveUp_Ok _ _ _ _ Hmv) as (Hd & _).
  destruct (moveUp_keeps d rank Hc Hd Hr) as (b' & d1 & E & Hc1 & _).
  congruence.
Qed.

Lemma moveDown_Ok_consistent (d d' : t) (rank : Z) (b : bool) :
  is_uint rank -> moveDown d rank = Ok (b, d') -> consistent d -> consistent d'.
Proof.
  intros Hr Hmv Hc. destruct (moveDown_Ok _ _ _ _ Hmv) as (Hd & _).
  destruct (moveDown_keeps d rank Hc Hd Hr) as (b' & d1 & E & Hc1 & _).
  congruence.
Qed.

Lemma consistent_same_dating (d d' : t) :
  consistent d -> size d' = size d ->
  orderedSpeciations d' = orderedSpeciations d -> ranks d' = ranks d ->
  consistent d'.
Proof.
  intros [H1 H2 H3 H4 H5] Hsz Hos Hrk.
  split; rewrite ?Hsz, ?Hos, ?Hrk; auto.
Qed.

Section Kept.
Context {Env : Type} `{Collaborators Env} {Checkpoint : Type}.
Variable rollbackStack : Env -> list Checkpoint.
Hypothesis Hrc : RootContract rollbackStack.

(** A run from [(s, e)] to [(s', e')] keeps the rooted tree, the
    consistency of the dated tree and the stack of checkpoints. *)
Definition kept (s : SpeciesTree) (e : Env) (s' : SpeciesTree) (e' : Env)
  : Prop :=
  (consistent s -> consistent s')
  /\ rootedTree s' = rootedTree s /\ fromBL s' = fromBL s
  /\ rollbackStack e' = rollbackStack e.

Lemma kept_refl s e : kept s e s e.
Proof. unfold kept. auto. Qed.

Lemma kept_trans s1 e1 s2 e2 s3 e3 :
  kept s1 e1 s2 e2 -> kept s2 e2 s3 e3 -> kept s1 e1 s3 e3.
Proof.
  unfold kept. intros (A1 & A2 & A3 & A4) (B1 & B2 & B3 & B4).
  split; [auto|]. split; [congruence|]. split; congruence.
Qed.

Lemma kept_env s e e' :
  rollbackStack e' = rollbackStack e -> kept s e s e'.
Proof. unfold kept. auto. Qed.

Lemma kept_moveUp s s' e rank b :
  is_uint rank -> moveUp s rank = Ok (b, s') -> kept s e s' e.
Proof.
  intros Hr Hmv. destruct (moveUp_Ok _ _ _ _ Hmv) as (_ & Ht & Hd).
  unfold kept. split; [eapply moveUp_Ok_consistent; eauto | auto].
Qed.

Lemma kept_moveDown s s' e rank b :
  is_uint rank -> moveDown s rank = Ok (b, s') -> kept s e s' e.
Proof.
  intros Hr Hmv. destruct (moveDown_Ok _ _ _ _ Hmv) as (_ & Ht & Hd).
  unfold kept. split; [eapply moveDown_Ok_consistent; eauto | auto].
Qed.

Lemma kept_callback (c : bool) ll perFamLL s e e' :
  (if c then betterTreeCallback ll perFamLL s e else Ok e) = Ok e' ->
  kept s e s e'.
Proof.
  destruct c; intros Hc; apply kept_env.
  - eapply rc_callback; eauto.
  - congruence.
Qed.

Lemma datesLoop_kept (searchState : bool) (maxRank : Z) (fuel : nat) :
  forall rank best s e best' s' e',
  is_uint rank ->
  datesLoop fuel searchState maxRank rank best s e = Ok (best', s', e') ->
  kept s e s' e'.
Proof.
  induction fuel as [|fuel IH]; intros rank best s e best' s' e' Hr Hrun;
    [discriminate|].
  rewrite datesLoop_unfold in Hrun.
  destruct (negb (rank <? maxRank)); [simplify_eq; apply kept_refl|].
  bind_inv Hrun. destruct a as [moved s1].
  pose proof (kept_moveUp s s1 e rank moved Hr E) as K1.
  destruct moved; cbn [negb] in Hrun.
  - bind_inv Hrun. rename a into e1.
    bind_inv Hrun. destruct a as [[ll pf] e2].
    bind_inv Hrun. rename a into e3.
    assert (K2 : kept s e s1 e3).
    { eapply kept_trans; [exact K1|].
      eapply kept_trans; [apply kept_env; eapply rc_notify; eauto|].
      eapply kept_trans; [apply kept_env; eapply rc_compute; eauto|].
      eapply kept_callback; eauto. }
    destruct (gtb ll best).
    + eapply kept_trans; [exact K2|].
      eapply IH; [|exact Hrun]. apply wrap_uint_is_uint.
    + bind_inv Hrun. destruct a as [b2 s2].
      eapply kept_trans; [exact K2|].
      eapply kept_trans; [eapply kept_moveUp; eauto|].
      eapply IH; [|exact Hrun]. apply wrap_uint_is_uint.
  - eapply kept_trans; [exact K1|].
    eapply IH; [|exact Hrun]. apply wrap_uint_is_uint.
Qed.

Lemma datesRounds_kept (searchState : bool) (maxRank : Z) (fuel : nat) :
  forall best s e best' s' e',
  datesRounds fuel searchState maxRank best s e = Ok (best', s', e') ->
  kept s e s' e'.
Proof.
  induction fuel as [|fuel IH]; intros best s e best' s' e' Hrun;
    [discriminate|].
  rewrite datesRounds_unfold in Hrun.
  bind_inv Hrun. destruct a as [[best1 s1] e1].
  assert (H0 : is_uint 0) by (unfold is_uint; lia).
  pose proof (datesLoop_kept _ _ _ _ _ _ _ _ _ _ H0 E) as K1.
  destruct (gtb (sub best1 best) one).
  - eapply kept_trans; [exact K1 | eapply IH; eauto].
  - simplify_eq. exact K1.
Qed.

Lemma optimizeDatesLocal_kept (searchState : bool) (fuel : nat) s e ll s' e' :
  optimizeDatesLocal fuel searchState s e = Ok (ll, s', e') -> kept s e s' e'.
Proof.
  unfold optimizeDatesLocal. intros Hrun.
  bind_inv Hrun. destruct a as [[best pf] e0].
  bind_inv Hrun. destruct a as [[best1 s1] e1].
  bind_inv Hrun. simplify_eq.
  eapply kept_trans; [apply kept_env; eapply rc_compute; eauto|].
  eapply kept_trans; [eapply datesRounds_kept; eauto|].
  apply kept_env. eapply rc_notify; eauto.
Qed.

End Kept.

End SearchFacts.
(** ** ScaledValue: the arithmetic and the order *)

Module ScaledValueLaws.
Import ScaledValue.

Lemma add_comm (x y : double) : add x y = add y x.
Proof.
  unfold add, SFadd.
  destruct x as [[]|[]| |sx mx ex], y as [[]|[]| |sy my ey]; try reflexivity.
  rewrite (Z.min_comm ex ey). f_equal. apply Z.add_comm.
Qed.

Lemma mul_comm (x y : double) : mul x y = mul y x.
Proof.
  unfold mul, SFmul.
  destruct x as [sx|sx| |sx mx ex], y as [sy|sy| |sy my ey];
    try reflexivity; rewrite (xorb_comm sx sy); try reflexivity.
  rewrite (Pos.mul_comm mx my), (Z.add_comm ex ey). reflexivity.
Qed.

Lemma leb_not_ltb (x y : double) :
  is_nan x = false -> is_nan y = false -> leb x y = negb (ltb y x).
Proof.
  unfold leb, ltb, SFleb, SFltb.
  destruct x as [[]|[]| |[] m e], y as [[]|[]| |[] m' e']; simpl;
    try discriminate; try reflexivity; intros _ _;
    change (Pos.compare_cont Eq m m') with (Z.pos m ?= Z.pos m');
    change (Pos.compare_cont Eq m' m) with (Z.pos m' ?= Z.pos m);
    destruct (Z.compare_spec e e'), (Z.compare_spec e' e); try lia;
    try reflexivity;
    destruct (Z.compare_spec (Z.pos m) (Z.pos m')),
      (Z.compare_spec (Z.pos m') (Z.pos m)); try lia; reflexivity.
Qed.

Lemma ltb_asym (x y : double) : ltb x y = true -> ltb y x = false.
Proof.
  intros H. pose proof (ltb_not_geb x y H) as G. unfold geb in G.
  destruct (ltb y x) eqn:E; [|reflexivity].
  apply ltb_leb in E. unfold leb in E. congruence.
Qed.

Lemma zero_below_threshold (v : double) :
  eqb v zero = true -> ltb v JS_SCALE_THRESHOLD = true.
Proof. destruct v as [[]|[]| |[] m e]; try discriminate; reflexivity. Qed.

(** X2. The sum and the product of two scaled values do not depend on the
    order of the operands (a NaN is one value in this model of binary64:
    the payload of a NaN is not compared). *)
Theorem plus_times_commute (x v : t) :
  plus x v = plus v x /\ times x v = times v x.
Proof.
  split.
  - unfold plus.
    destruct (Z.eqb_spec (scaler v) (scaler x)) as [E|E].
    + rewrite E, Z.eqb_refl, add_comm. reflexivity.
    + destruct (Z.eqb_spec (scaler x) (scaler v)) as [E'|_]; [congruence|].
      destruct (Z.ltb_spec (scaler v) (scaler x)),
        (Z.ltb_spec (scaler x) (scaler v)); try reflexivity; lia.
  - unfold times. rewrite mul_comm, Z.add_comm. reflexivity.
Qed.

(** X3. The compound assignments leave in [*this] what the binary
    operators return: [a += b] is [a + b], [a *= b] is [a * b], and the
    same for the product and the quotient by a [double]. *)
Theorem assignments_agree (x v : t) (f : double) :
  plus_assign x v = plus x v
  /\ times_assign x v = times x v
  /\ times_double_assign x f = times_double x f
  /\ div_double_assign x f = div_double x f.
Proof.
  split; [|split; [|split]].
  - unfold plus_assign, plus. rewrite add_comm.
    destruct (scaler v =? scaler x); [reflexivity|].
    destruct (scaler v <? scaler x); [destruct v|]; reflexivity.
  - unfold times_assign, times. rewrite mul_comm, Z.add_comm. reflexivity.
  - unfold times_double_assign, times_double. rewrite mul_comm. reflexivity.
  - reflexivity.
Qed.

(** X4. The null value is the neutral element of the sum, on either side,
    for every value whose scaler is below [NULL_SCALER]; and the sum of
    two default-constructed null values is the null value. *)
Theorem plus_null_neutral (x : t) :
  scaler x < NULL_SCALER ->
  plus x null = x /\ plus null x = x /\ plus null null = null.
Proof.
  intros Hx. unfold plus. cbn [scaler value null].
  destruct (Z.eqb_spec NULL_SCALER (scaler x)); [lia|].
  destruct (Z.eqb_spec (scaler x) NULL_SCALER); [lia|].
  destruct (Z.ltb_spec NULL_SCALER (scaler x)); [lia|].
  destruct (Z.ltb_spec (scaler x) NULL_SCALER); [|lia].
  auto.
Qed.

Lemma plus_null_neutral_witness :
  plus (of_double one) null = of_double one
  /\ plus null (of_double one) = of_double one.
Proof.
  destruct (plus_null_neutral (of_double one)) as (H1 & H2 & _).
  - reflexivity.
  - split; assumption.
Defined.

(** X5. [scale] never leaves a zero value with a scaler other than
    [NULL_SCALER]: whenever its result is null, its scaler is the null
    scaler, whatever the argument was. *)
Theorem scale_null_canonical (x : t) :
  isNull (scale x) = true -> scaler (scale x) = NULL_SCALER.
Proof.
  unfold scale, isNull.
  destruct (ltb (value x) JS_SCALE_THRESHOLD) eqn:Hlt.
  - unfold checkNull. cbn [value scaler].
    destruct (eqb (mul (value x) JS_SCALE_FACTOR) zero) eqn:Hz;
      cbn [value scaler]; [reflexivity|].
    rewrite Hz. discriminate.
  - intros Hz. apply zero_below_threshold in Hz. congruence.
Qed.

Lemma scale_null_canonical_witness :
  scaler (scale (of_double zero)) = NULL_SCALER.
Proof. apply (scale_null_canonical (of_double zero)). reflexivity. Defined.

(** X6. Subtracting a finite value from itself returns the
    default-constructed null value: the difference is [+0.0], and [scale]
    gives it the null scaler. *)
Theorem minus_diag (x : t) :
  is_finite (value x) = true -> minus x x = Ok null.
Proof.
  destruct x as [v k]. unfold minus. cbn [value scaler].
  rewrite Z.eqb_refl. intros Hf.
  assert (Hs : sub v v = zero).
  { unfold sub, SFsub.
    destruct v as [[]|[]| |s m e]; try discriminate; try reflexivity.
    rewrite Z.sub_diag. reflexivity. }
  rewrite Hs. reflexivity.
Qed.

Lemma minus_diag_witness : minus (mk one 3) (mk one 3) = Ok null.
Proof. apply (minus_diag (mk one 3)). reflexivity. Defined.

Lemma well_formed_spec (x : t) :
  well_formed x = true ->
  is_nan (value x) = false
  /\ (isNull x = true -> scaler x = NULL_SCALER)
  /\ (isNull x = false -> scaler x < NULL_SCALER).
Proof.
  unfold well_formed. intros H. apply andb_true_iff in H as [Hn Hs].
  apply negb_true_iff in Hn. split; [exact Hn|].
  destruct (isNull x); split; intros; try discriminate; lia.
Qed.

(** X7. On well-formed values [operator<] is a strict order: no value is
    below itself, two values are never each below the other, and the
    relation is transitive. *)
Theorem lt_strict_order (a b c : t) :
  well_formed a = true -> well_formed b = true -> well_formed c = true ->
  lt a a = false
  /\ (lt a b = true -> lt b a = false)
  /\ (lt a b = true -> lt b c = true -> lt a c = true).
Proof.
  intros Ha Hb Hc.
  destruct (well_formed_spec a Ha) as (_ & Ha1 & Ha2).
  destruct (well_formed_spec b Hb) as (_ & Hb1 & Hb2).
  destruct (well_formed_spec c Hc) as (_ & Hc1 & Hc2).
  unfold lt.
  destruct (isNull a) eqn:Na, (isNull b) eqn:Nb, (isNull c) eqn:Nc;
    cbn [negb];
    repeat match goal with
    | H : true = true -> _ |- _ => specialize (H eq_refl)
    | H : false = false -> _ |- _ => specialize (H eq_refl)
    | H : true = false -> _ |- _ => clear H
    | H : false = true -> _ |- _ => clear H
    end;
    (split; [|split]); try reflexivity; try discriminate;
    rewrite ?Z.eqb_refl; cbn [negb]; try apply ltb_irrefl;
    repeat match goal with
    | |- context [?x =? ?y] => destruct (Z.eqb_spec x y)
    | |- context [?x >? ?y] => destruct (Z.gtb_spec x y)
    end; cbn [negb]; try discriminate; try reflexivity; try lia;
    try (intros; exfalso; lia);
    try apply ltb_asym; try apply ltb_trans;
    try (intros H1 H2; exfalso; congruence).
Qed.

Lemma lt_strict_order_witness :
  lt (mk one 1) (mk one 1) = false
  /\ lt (of_double one) (mk one 1) = false
  /\ lt null (of_double one) = true.
Proof.
  destruct (lt_strict_order (mk one 1) (of_double one) (of_double one))
    as (H1 & H2 & _); try reflexivity.
  destruct (lt_strict_order null (mk one 1) (of_double one))
    as (_ & _ & H3); try reflexivity.
  split; [exact H1|].
  split; [apply H2; reflexivity | apply H3; reflexivity].
Defined.

(** X8. On well-formed values the six comparisons describe one order:
    [a > b] is [b < a], [a <= b] is the negation of [b < a], and [a >= b]
    is [b <= a]. *)
Theorem comparisons_agree (a b : t) :
  well_formed a = true -> well_formed b = true ->
  gt a b = lt b a /\ le a b = negb (lt b a) /\ ge a b = le b a.
Proof.
  intros Ha Hb.
  destruct (well_formed_spec a Ha) as (Han & Ha1 & Ha2).
  destruct (well_formed_spec b Hb) as (Hbn & Hb1 & Hb2).
  assert (Hle : forall x y, well_formed x = true -> well_formed y = true ->
                  le x y = negb (lt y x)).
  { clear. intros x y Hx Hy.
    destruct (well_formed_spec x Hx) as (Hxn & Hx1 & Hx2).
    destruct (well_formed_spec y Hy) as (Hyn & Hy1 & Hy2).
    unfold le, lt.
    destruct (isNull x) eqn:Nx, (isNull y) eqn:Ny; cbn [negb];
      repeat match goal with
      | H : true = true -> _ |- _ => specialize (H eq_refl)
      | H : false = false -> _ |- _ => specialize (H eq_refl)
      | H : true = false -> _ |- _ => clear H
      | H : false = true -> _ |- _ => clear H
      end; try reflexivity.
    - destruct (Z.eqb_spec (scaler y) (scaler x)); [lia|]. cbn [negb].
      destruct (Z.gtb_spec (scaler y) (scaler x)); [lia | reflexivity].
    - destruct (Z.eqb_spec (scaler x) (scaler y)); [lia|]. cbn [negb].
      destruct (Z.gtb_spec (scaler x) (scaler y)); [lia | reflexivity].
    - destruct (Z.eqb_spec (scaler x) (scaler y)) as [E|E];
        destruct (Z.eqb_spec (scaler y) (scaler x)); try congruence;
        cbn [negb]; [apply leb_not_ltb; assumption|].
      destruct (Z.gtb_spec (scaler x) (scaler y)),
        (Z.gtb_spec (scaler y) (scaler x)); try reflexivity; lia. }
  split; [|split].
  - unfold gt. rewrite (Hle a b Ha Hb), negb_involutive. reflexivity.
  - apply Hle; assumption.
  - unfold ge. rewrite (Hle b a Hb Ha). reflexivity.
Qed.

Lemma comparisons_agree_witness :
  gt (of_double one) (mk one 1) = lt (mk one 1) (of_double one)
  /\ le (of_double one) (mk one 1) = negb (lt (mk one 1) (of_double one))
  /\ ge (of_double one) (mk one 1) = le (mk one 1) (of_double one).
Proof. apply (comparisons_agree (of_double one) (mk one 1)); reflexivity. Defined.

(** X9. [isProba] answers [*this <= ScaledValue(1.0)] and nothing more:
    its second test, [ScaledValue() <= *this], holds for every value. A
    negative number with scaler 0 is therefore accepted, and so is every
    value with a positive scaler. *)
Theorem isProba_upper_bound_only (x : t) :
  isProba x = le x (of_double one)
  /\ (forall (m : positive) (e : Z),
        isProba (of_double (S754_finite true m e)) = true)
  /\ (0 < scaler x -> isProba x = true).
Proof.
  assert (H : forall y, isProba y = le y (of_double one)).
  { intros y. unfold isProba. apply andb_true_r. }
  split; [apply H|]. split.
  - intros m e. reflexivity.
  - intros Hs. rewrite H. unfold le. cbn [scaler of_double].
    destruct (isNull x); [reflexivity|].
    destruct (Z.eqb_spec (scaler x) 0); [lia|]. cbn [negb].
    destruct (Z.gtb_spec (scaler x) 0); [reflexivity | lia].
Qed.

Lemma isProba_upper_bound_only_witness : isProba (mk one 2) = true.
Proof.
  destruct (isProba_upper_bound_only (mk one 2)) as (_ & _ & H).
  apply H. reflexivity.
Defined.

(** X10. On a normal number below the threshold [scale] multiplies by
    [2^256] and adds one to the scaler. While the magnitude is below
    [2^768] (mantissa exponent at most 715), which covers every positive
    value below the threshold, this is exact: the sign and the mantissa
    are kept and 256 is added to the exponent. Negative numbers are below
    the threshold whatever their magnitude: one of magnitude [2^768] or
    more is negative and becomes minus infinity. *)
Theorem scale_exact (s : bool) (m : positive) (e k : Z) :
  valid (S754_finite s m e) = true -> digits2_pos m = 53%positive ->
  ltb (S754_finite s m e) JS_SCALE_THRESHOLD = true ->
  (e <= 715 ->
   scale (mk (S754_finite s m e) k)
   = mk (S754_finite s m (e + 256)) (wrap_int (k + 1)))
  /\ (715 < e ->
      s = true
      /\ scale (mk (S754_finite s m e) k)
         = mk (S754_infinity true) (wrap_int (k + 1))).
Proof.
  intros Hv Hd Hlt.
  assert (Hlo : -1074 <= e).
  { unfold valid, valid_binary, bounded, canonical_mantissa, fexp, emin,
      Double.prec, Double.emax in Hv.
    apply andb_true_iff in Hv as [Hc _]. apply Z.eqb_eq in Hc.
    unfold Zdigits2 in Hc. rewrite Hd in Hc. lia. }
  split; intros He.
  - unfold scale. cbn [value scaler]. rewrite Hlt.
    rewrite ScaledValueFacts.mul_factor_normal by (auto; lia).
    destruct s; reflexivity.
  - assert (Hs : s = true).
    { destruct s; [reflexivity|]. exfalso.
      rewrite ScaledValueFacts.threshold_value in Hlt.
      unfold ltb, SFltb in Hlt. cbn [SFcompare] in Hlt.
      destruct (Z.compare_spec e (-308)); [lia | lia | discriminate Hlt]. }
    split; [exact Hs|].
    unfold scale. cbn [value scaler]. rewrite Hlt.
    rewrite ScaledValueFacts.mul_factor_overflow by (auto; lia).
    subst s. reflexivity.
Qed.

Lemma scale_exact_witness :
  scale (mk (S754_finite false 4503599627370496 (-400)) 0)
  = mk (S754_finite false 4503599627370496 (-144)) 1
  /\ scale (of_double (S754_finite true 4503599627370496 (-52)))
     = mk (S754_finite true 4503599627370496 204) 1
  /\ scale (of_double (S754_finite true 4503599627370496 900))
     = mk (S754_infinity true) 1.
Proof.
  split; [|split].
  - destruct (scale_exact false 4503599627370496 (-400) 0) as [H _];
      [reflexivity | reflexivity | reflexivity |]. apply H. lia.
  - destruct (scale_exact true 4503599627370496 (-52) 0) as [H _];
      [reflexivity | reflexivity | reflexivity |]. apply H. lia.
  - destruct (scale_exact true 4503599627370496 900 0) as [_ H];
      [reflexivity | reflexivity | reflexivity |]. apply H. lia.
Defined.

(** X26. [operator==] compares a value with itself as equal exactly when
    its value is finite: for an infinity or a NaN the difference is not a
    number, and [a == a] is false ([a != a] is true). *)
Theorem eq_reflexive_when_finite (x : t) :
  eq x x = is_finite (value x) /\ ne x x = negb (is_finite (value x)).
Proof.
  assert (H : eq x x = is_finite (value x)).
  { unfold eq. rewrite Z.eqb_refl. cbn [andb].
    destruct (value x) as [[]|[]| |s m e]; try reflexivity.
    unfold sub, SFsub. rewrite Z.sub_diag. reflexivity. }
  unfold ne. rewrite H. auto.
Qed.


End ScaledValueLaws.

(** ** DatedTree: what the operations do *)

Module DatedTreeLaws.
Import DatedTree DatedTreeFacts.

(** X11. [restore] installs the backup of any consistent dating in any
    other consistent dating of a tree with as many nodes, however the two
    are related: the ranks become the backup and the order of the
    speciations becomes the one the backup was taken from. Restoring a
    tree from its own backup changes nothing. *)
Theorem restore_installs (d0 d : t) :
  consistent d0 -> consistent d -> size d = size d0 ->
  (exists d', restore d (getBackup d0) = Ok d'
     /\ getBackup d' = getBackup d0
     /\ orderedSpeciations d' = orderedSpeciations d0
     /\ rootedTree d' = rootedTree d /\ fromBL d' = fromBL d)
  /\ restore d0 (getBackup d0) = Ok d0.
Proof.
  intros Hc0 Hc Hsz. split.
  - eexists. split; [apply restore_backup; assumption|]. cbn. auto.
  - rewrite restore_backup by auto. destruct d0; reflexivity.
Qed.

Lemma restore_installs_witness :
  exists d1 d',
    apply_moves S1.dated [Up 2] = Ok d1
    /\ restore S1.dated (getBackup d1) = Ok d'
    /\ orderedSpeciations d' = orderedSpeciations d1
    /\ getBackup d' = getBackup d1.
Proof.
  exists (mk true S1.tree [6; 5; 4; 0; 1; 2; 3] [3; 4; 5; 6; 2; 1; 0]).
  destruct (restore_installs
              (mk true S1.tree [6; 5; 4; 0; 1; 2; 3] [3; 4; 5; 6; 2; 1; 0])
              S1.dated) as [(d' & Hrun & Hb & Ho & _) _].
  - apply consistentb_sound. vm_compute. reflexivity.
  - apply consistentb_sound. vm_compute. reflexivity.
  - reflexivity.
  - exists d'. split; [vm_compute; reflexivity|]. auto.
Defined.

(** X12. The moves at the ends of the order, and on an undated tree:
    [moveUp(0)] returns false; [moveDown(rank)] returns false when
    [rank + 1] is not a position of the order (the size is a [size_t],
    the rank an [unsigned int]); both leave the tree as it is. On a tree
    that is not dated ([_fromBL] false) both moves stop at their
    assert. *)
Theorem moves_at_the_ends (d : t) (rank : Z) :
  (fromBL d = false ->
     moveUp d rank = Abort NotDated /\ moveDown d rank = Abort NotDated)
  /\ (fromBL d = true -> moveUp d 0 = Ok (false, d))
  /\ (consistent d -> fromBL d = true -> size d <= rank + 1 ->
      moveDown d rank = Ok (false, d)).
Proof.
  split; [|split].
  - intros Hd. unfold moveUp, moveDown. rewrite Hd. auto.
  - intros Hd. unfold moveUp. rewrite Hd. reflexivity.
  - apply moveDown_beyond.
Qed.

Lemma moves_at_the_ends_witness :
  moveUp S1.dated 0 = Ok (false, S1.dated)
  /\ moveDown S1.dated 6 = Ok (false, S1.dated)
  /\ moveDown S1.dated 4294967295 = Ok (false, S1.dated).
Proof.
  destruct (moves_at_the_ends S1.dated 6) as (_ & H1 & H2).
  destruct (moves_at_the_ends S1.dated 4294967295) as (_ & _ & H3).
  split; [apply H1; reflexivity|]. split.
  - apply H2; [apply consistentb_sound; vm_compute; reflexivity
              | reflexivity | vm_compute; discriminate].
  - apply H3; [apply consistentb_sound; vm_compute; reflexivity
              | reflexivity | vm_compute; discriminate].
Defined.

(** X13. A move that returns true exchanges the speciations at two
    neighbouring ranks and touches nothing else: after [moveDown(rank)]
    the nodes at [rank] and [rank + 1] have changed places, every other
    position and the rank of every other node are as before. The two
    nodes exchanged are speciations (they have a left child), and the
    second is not a child of the first. *)
Theorem moveDown_exchanges (d d' : t) (rank : Z) :
  consistent d -> fromBL d = true -> is_uint rank ->
  moveDown d rank = Ok (true, d') ->
  exists n1 n2 nd1 nd2,
    vec_get (orderedSpeciations d) rank = Ok n1
    /\ vec_get (orderedSpeciations d) (rank + 1) = Ok n2
    /\ vec_get (orderedSpeciations d') rank = Ok n2
    /\ vec_get (orderedSpeciations d') (rank + 1) = Ok n1
    /\ (forall i, i <> rank -> i <> rank + 1 ->
          vec_get (orderedSpeciations d') i = vec_get (orderedSpeciations d) i)
    /\ vec_get (ranks d') n1 = Ok (rank + 1)
    /\ vec_get (ranks d') n2 = Ok rank
    /\ (forall n, n <> n1 -> n <> n2 ->
          vec_get (ranks d') n = vec_get (ranks d) n)
    /\ getNode (rootedTree d) n1 = Ok nd1 /\ left nd1 <> None
    /\ getNode (rootedTree d) n2 = Ok nd2 /\ left nd2 <> None
    /\ parent nd2 <> Some n1
    /\ rootedTree d' = rootedTree d.
Proof.
  intros Hc Hd Hr Hmv. pose proof Hr as [Hr0 _].
  destruct (moveDown_cases d rank Hc Hd Hr)
    as [[E _]|(n1 & n2 & nd1 & nd2 & Hin & Hn1 & Hn2 & Hnd1 & Hnd2
                & Hl1 & Hl2 & Hp & E)]; [congruence|].
  rewrite E in Hmv. injection Hmv as <-.
  assert (Hrank : 0 <= rank /\ rank + 1 < size d) by lia.
  pose proof (swapped_distinct d rank n1 n2 Hc Hn1 Hn2) as Hne.
  exists n1, n2, nd1, nd2.
  split; [exact Hn1|]. split; [exact Hn2|].
  split. { rewrite swapped_order by auto. case_decide; [reflexivity | lia]. }
  split. { rewrite swapped_order by auto. repeat case_decide; (reflexivity || lia). }
  split. { intros i H1 H2. rewrite swapped_order by auto.
           repeat case_decide; (reflexivity || lia). }
  split. { rewrite swapped_ranks by auto.
           repeat case_decide; (reflexivity || congruence). }
  split. { rewrite swapped_ranks by auto. case_decide; (reflexivity || congruence). }
  split. { intros n H1 H2. rewrite swapped_ranks by auto.
           repeat case_decide; (reflexivity || congruence). }
  auto 10.
Qed.

Lemma moveDown_exchanges_witness :
  exists d',
    moveDown S1.dated 1 = Ok (true, d')
    /\ vec_get (orderedSpeciations d') 1 = Ok 5
    /\ vec_get (orderedSpeciations d') 2 = Ok 4
    /\ vec_get (ranks d') 4 = Ok 2 /\ vec_get (ranks d') 5 = Ok 1.
Proof.
  exists (mk true S1.tree [6; 5; 4; 0; 1; 2; 3] [3; 4; 5; 6; 2; 1; 0]).
  destruct (moveDown_exchanges S1.dated
              (mk true S1.tree [6; 5; 4; 0; 1; 2; 3] [3; 4; 5; 6; 2; 1; 0]) 1)
    as (n1 & n2 & nd1 & nd2 & H1 & H2 & H3 & H4 & _ & H5 & H6 & _).
  - apply consistentb_sound. vm_compute. reflexivity.
  - reflexivity.
  - unfold is_uint. lia.
  - vm_compute. reflexivity.
  - vm_compute in H1, H2. injection H1 as <-. injection H2 as <-.
    split; [vm_compute; reflexivity|]. auto.
Defined.

(** *** checkRanks *)

Lemma checkRanks_order_passes (d : t) (positions : list Z) :
  consistent d ->
  (forall i, i ∈ positions -> 0 <= i /\ i + 1 < size d) ->
  checkRanks_order d positions = Ok true.
Proof.
  intros Hc. pose proof (size_order d Hc) as Hso.
  pose proof (size_bounds d Hc) as Hsb.
  induction positions as [|i rest IH]; intros Hin; [reflexivity|].
  destruct (Hin i) as [H0 H1]; [left|].
  destruct (vec_get_in_bounds (orderedSpeciations d) i) as [n1 Hn1]; [lia|].
  destruct (vec_get_in_bounds (orderedSpeciations d) (i + 1)) as [n2 Hn2];
    [lia|].
  cbn [checkRanks_order]. rewrite (wrap_uint_small (i + 1)) by lia.
  rewrite Hn1, Hn2. cbn [mbind result_bind].
  rewrite (rank_of_position d Hc _ _ Hn1), (rank_of_position d Hc _ _ Hn2).
  cbn [mbind result_bind]. rewrite (wrap_uint_small (i + 1)) by lia.
  rewrite Z.eqb_refl. apply IH. intros j Hj. apply Hin. right. exact Hj.
Qed.

Lemma checkRanks_topology_passes (d : t) (nds : list (Z * rnode)) :
  parents_first d ->
  (forall e node, (e, node) ∈ nds -> getNode (rootedTree d) e = Ok node) ->
  checkRanks_topology d nds = Ok true.
Proof.
  intros Hpf. induction nds as [|[e node] rest IH]; intros Hin; [reflexivity|].
  assert (Hrest : checkRanks_topology d rest = Ok true).
  { apply IH. intros e' node' H. apply Hin. right. exact H. }
  cbn [checkRanks_topology]. destruct (parent node) as [p|] eqn:Hp; [|exact Hrest].
  destruct (Hpf e node p) as (rp & re & Hrp & Hre & Hlt); [apply Hin; left|auto|].
  rewrite Hrp, Hre. cbn [mbind result_bind].
  destruct (Z.ltb_spec rp re); [exact Hrest | lia].
Qed.

Lemma checkRanks_topology_true (d : t) (nds : list (Z * rnode)) :
  checkRanks_topology d nds = Ok true ->
  forall e node p, (e, node) ∈ nds -> parent node = Some p ->
    exists rp re, vec_get (ranks d) p = Ok rp /\ vec_get (ranks d) e = Ok re
                  /\ rp < re.
Proof.
  induction nds as [|[e0 node0] rest IH]; intros Hrun e node p Hin Hp.
  { inversion Hin. }
  cbn [checkRanks_topology] in Hrun.
  apply elem_of_cons in Hin as [[= <- <-]|Hin].
  - rewrite Hp in Hrun.
    destruct (vec_get (ranks d) p) as [rp|]; [|discriminate].
    destruct (vec_get (ranks d) e) as [re|]; [|discriminate].
    cbn [mbind result_bind] in Hrun.
    destruct (Z.ltb_spec rp re); [|discriminate]. eauto.
  - apply IH with node; auto.
    destruct (parent node0); [|exact Hrun].
    destruct (vec_get (ranks d) z) as [rp|]; [|discriminate].
    destruct (vec_get (ranks d) e0) as [re|]; [|discriminate].
    cbn [mbind result_bind] in Hrun.
    destruct (rp <? re); [exact Hrun | discriminate].
Qed.

Lemma checkRanks_passes (d : t) : invariant d -> checkRanks d = Ok true.
Proof.
  intros [Hc Hpf]. unfold checkRanks, vec_size.
  pose proof (size_order d Hc) as Hso. pose proof (size_bounds d Hc) as Hsb.
  rewrite checkRanks_order_passes; [| exact Hc |].
  - cbn [mbind result_bind]. apply checkRanks_topology_passes; [exact Hpf|].
    intros e node. apply elem_of_indexed.
  - intros i Hi. apply elem_of_seqZ in Hi.
    rewrite Hso, (wrap_size_small (size d)) in Hi by lia.
    rewrite wrap_size_small in Hi by lia. lia.
Qed.

(** X14. [checkRanks] accepts every dated tree that satisfies the
    invariants of the class, so none of its asserts fails after the moves
    that keep them; and it accepts no tree in which some parent does not
    have a lower rank than its child. *)
Theorem checkRanks_decides (d : t) :
  (invariant d -> checkRanks d = Ok true)
  /\ (checkRanks d = Ok true -> parents_first d).
Proof.
  split; [apply checkRanks_passes|].
  unfold checkRanks. intros Hrun.
  { 
    destruct (checkRanks_order d _) as [[]|]; try discriminate.
    cbn [mbind result_bind] in Hrun.
    intros c node p Hnode Hp.
    eapply checkRanks_topology_true; [exact Hrun | | exact Hp].
    apply elem_of_indexed. exact Hnode. }
Qed.

Lemma checkRanks_decides_witness :
  checkRanks S1.dated = Ok true /\ parents_first S1.dated.
Proof.
  destruct (checkRanks_decides S1.dated) as [H1 H2].
  split; [apply H1, invariantb_sound | apply H2]; vm_compute; reflexivity.
Defined.


(** *** Transfers and the order of time *)

Lemma ancestor_older (d : t) (a c : Z) :
  parents_first d -> ancestor (rootedTree d) a c ->
  exists ra rc, vec_get (ranks d) a = Ok ra /\ vec_get (ranks d) c = Ok rc
                /\ ra < rc.
Proof.
  intros Hpf Hanc.
  induction Hanc as [c p node Hc Hp|a c p node Hc Hp Hanc IH].
  - apply (Hpf c node p Hc Hp).
  - destruct IH as (ra & rp & Hra & Hrp & Hlt).
    destruct (Hpf c node p Hc Hp) as (rp' & rc & Hrp' & Hrc & Hlt').
    exists ra, rc. split; [exact Hra|]. split; [exact Hrc|].
    rewrite Hrp in Hrp'. injection Hrp' as <-. lia.
Qed.

(** X15. Under the invariants of the dated tree a transfer never goes
    back in time along a lineage and can always go forward:
    [canTransferUnderRelDated(e, d)] is false when [d] is an ancestor of
    [e], and true when [d] is a descendant of [e]. *)
Theorem transfers_follow_lineages (dt : t) (e d : Z) :
  invariant dt ->
  (ancestor (rootedTree dt) d e -> canTransferUnderRelDated dt e d = Ok false)
  /\ (ancestor (rootedTree dt) e d -> canTransferUnderRelDated dt e d = Ok true).
Proof.
  intros [Hc Hpf]. split; intros Hanc.
  - destruct (ancestor_older dt d e Hpf Hanc) as (rd & re & Hrd & Hre & Hlt).
    assert (Hne : d <> e) by (intros ->; rewrite Hrd in Hre; injection Hre; lia).
    unfold canTransferUnderRelDated.
    destruct (Z.eqb_spec d e); [contradiction|].
    assert (Hp : exists node p rp, getNode (rootedTree dt) e = Ok node
               /\ parent node = Some p /\ vec_get (ranks dt) p = Ok rp
               /\ rd <= rp).
    { inversion Hanc as [c p node He Hp|a c p node He Hp Hanc']; subst.
      - exists node, d, rd. repeat split; auto. lia.
      - destruct (ancestor_older dt d p Hpf Hanc')
          as (rd' & rp & Hrd' & Hrp & Hlt').
        rewrite Hrd in Hrd'. injection Hrd' as <-.
        exists node, p, rp. repeat split; auto. lia. }
    destruct Hp as (node & p & rp & -> & Hp & Hrp & Hle).
    cbn [mbind result_bind]. rewrite Hp, Hrd, Hrp. cbn [mbind result_bind].
    destruct (Z.gtb_spec rd rp); [lia | reflexivity].
  - destruct (ancestor_older dt e d Hpf Hanc) as (re & rd & Hre & Hrd & Hlt).
    assert (Hne : d <> e) by (intros ->; rewrite Hrd in Hre; injection Hre; lia).
    unfold canTransferUnderRelDated.
    destruct (Z.eqb_spec d e); [contradiction|].
    destruct (vec_get_in_bounds (nodes (rootedTree dt)) e) as [node Hnode].
    { apply vec_get_bounds in Hre. pose proof (size_ranks dt Hc).
      unfold size in *. lia. }
    unfold getNode. rewrite Hnode. cbn [mbind result_bind].
    destruct (parent node) as [p|] eqn:Hp; [|reflexivity].
    destruct (Hpf e node p Hnode Hp) as (rp & re' & Hrp & Hre' & Hlt').
    rewrite Hre in Hre'. injection Hre' as <-.
    rewrite Hrd, Hrp. cbn [mbind result_bind].
    destruct (Z.gtb_spec rd rp); [reflexivity | lia].
Qed.

Lemma transfers_follow_lineages_witness :
  canTransferUnderRelDated S1.dated 0 6 = Ok false
  /\ canTransferUnderRelDated S1.dated 4 0 = Ok true.
Proof.
  split.
  - apply (transfers_follow_lineages S1.dated 0 6).
    + apply invariantb_sound. vm_compute. reflexivity.
    + eapply ancestor_further; [reflexivity | reflexivity |].
      eapply ancestor_parent; reflexivity.
  - apply (transfers_follow_lineages S1.dated 4 0).
    + apply invariantb_sound. vm_compute. reflexivity.
    + eapply ancestor_parent; reflexivity.
Defined.


(** *** The order of the speciations at construction *)





(** *** Bounds that are not checked *)

Lemma restore_loop_short (rk : list Z) (speciations : list Z) :
  forall os : list Z,
  (exists n, n ∈ speciations /\ Z.of_nat (length rk) <= n) ->
  restore_loop rk speciations os = Abort OutOfBounds.
Proof.
  induction speciations as [|node rest IH]; intros os (n & Hin & Hn).
  { inversion Hin. }
  cbn [restore_loop]. unfold vec_get at 1.
  destruct (Z.ltb_spec node 0); [reflexivity|].
  destruct (rk !! Z.to_nat node) as [r|] eqn:Hr; cbn [of_option mbind result_bind];
    [|reflexivity].
  unfold vec_set.
  destruct ((0 <=? r) && (r <? Z.of_nat (length os))); [|reflexivity].
  cbn [mbind result_bind]. apply IH.
  apply elem_of_cons in Hin as [->|Hin]; [|eauto].
  apply lookup_lt_Some in Hr. lia.
Qed.

(** X27. [restore] does not check the length of the backup: with a
    backup that has fewer entries than the tree has nodes it reads the
    backup beyond its end, which aborts the model with [OutOfBounds]. *)
Theorem unchecked_bounds (d : t) (backup : DatedBackup) :
  consistent d -> Z.of_nat (length backup) < size d ->
  restore d backup = Abort OutOfBounds.
Proof.
  intros Hc Hlen. unfold restore.
  rewrite restore_loop_short; [reflexivity|].
  pose proof (size_bounds d Hc) as Hsb. pose proof (size_ranks d Hc) as Hsr.
  destruct (vec_get_in_bounds (ranks d) (size d - 1)) as [r Hr]; [lia|].
  apply (position_of_rank d Hc) in Hr.
  exists (size d - 1). split; [|lia].
  apply vec_get_Ok in Hr as [_ Hr]. eapply list_elem_of_lookup_2, Hr.
Qed.

Lemma unchecked_bounds_witness :
  restore S1.dated [0; 1; 2] = Abort OutOfBounds.
Proof.
  apply (unchecked_bounds S1.dated [0; 1; 2]).
  - apply consistentb_sound. vm_compute. reflexivity.
  - vm_compute. reflexivity.
Defined.


End DatedTreeLaws.

(** ** DatedTree: the order that randomize draws *)

Module RandomizeLaws.
Import DatedTree DatedTreeFacts RandomizeFacts.

(* every node of the list comes after its parent *)
Definition parents_placed (tr : PLLRootedTree) (placed : list Z) : Prop :=
  forall j n node p,
    placed !! j = Some n -> getNode tr n = Ok node -> parent node = Some p ->
    exists i, (i < j)%nat /\ placed !! i = Some p.

(* a subtree still to visit hangs under a node that has its rank *)
Definition hangs (tr : PLLRootedTree) (placed : list Z) (sh : shape) : Prop :=
  exists p, embeds tr p sh /\ forall q, p = Some q -> q ∈ placed.

Lemma hangs_later (tr : PLLRootedTree) (placed : list Z) (n : Z) (sh : shape) :
  hangs tr placed sh -> hangs tr (placed ++ [n]) sh.
Proof.
  intros (p & He & Hq). exists p. split; [exact He|].
  intros q Hp. apply elem_of_app. left. auto.
Qed.

Section Sorting.
Context {rng : Type} (getInt : rng -> Z * rng).
Variables (d0 : t) (s : shape).
Hypothesis Hc0 : consistent d0.
Hypothesis Hs : tree_shape (rootedTree d0) s.

Lemma randomize_loop_sorts (fuel : nat) :
  forall (g : rng) (pending : list shape) (placed : list Z) (d : t),
  placing d0 d placed ->
  Forall (hangs (rootedTree d0) placed) pending ->
  parents_placed (rootedTree d0) placed ->
  placed ++ concat (inners <$> pending) ≡ₚ inners s ->
  (length placed + total_weight pending <= weight s)%nat ->
  (total_weight pending <= fuel)%nat ->
  exists g' d' placed',
    randomize_loop getInt fuel g (pointers pending)
      (Z.of_nat (length placed)) d = Ok (g', d')
    /\ placing d0 d' placed' /\ placed' ≡ₚ inners s
    /\ parents_placed (rootedTree d0) placed'.
Proof.
  pose proof (size_bounds d0 Hc0) as Hsb. rewrite (size_weight d0 s Hs) in Hsb.
  pose proof (size_order d0 Hc0) as Hso. rewrite (size_weight d0 s Hs) in Hso.
  pose proof (size_ranks d0 Hc0) as Hsr. rewrite (size_weight d0 s Hs) in Hsr.
  induction fuel as [|fuel IH];
    intros g pending placed d Hpl Hemb Hord Hperm Hw Hf.
  - destruct pending as [|sh rest].
    + exists g, d, placed. rewrite app_nil_r in Hperm. auto.
    + pose proof (total_weight_length (sh :: rest)). cbn in *. lia.
  - destruct pending as [|sh0 rest] eqn:Hpend.
    { exists g, d, placed. rewrite app_nil_r in Hperm. auto. }
    rewrite <- Hpend in *.
    assert (Hne : pending <> []) by (rewrite Hpend; discriminate).
    pose proof (total_weight_length pending) as Hlen.
    assert (Hloop : forall k,
      randomize_loop getInt (S fuel) g (pointers pending) k d
      = '(g', toAdd', currentRank', d') ←
          randomize_step getInt g (pointers pending) k d;
        randomize_loop getInt fuel g' toAdd' currentRank' d').
    { intros k. rewrite Hpend. reflexivity. }
    rewrite Hloop. clear Hloop.
    destruct (getInt g) as [v g1] eqn:Hg.
    destruct (random_index v pending Hne) as (i & sh & Hi & Hsh); [lia|].
    assert (Hsh_emb : hangs (rootedTree d0) placed sh).
    { eapply (proj1 (Forall_forall _ _) Hemb), list_elem_of_lookup_2, Hsh. }
    destruct Hsh_emb as (p & Hp & Hq).
    destruct (exists_last Hne) as (front & shl & Hfront).
    assert (Hlast : last pending = Some shl)
      by (rewrite Hfront; apply last_snoc).
    destruct sh as [n|n l r].
    + (* a leaf *)
      cbn in Hp.
      rewrite (randomize_step_leaf getInt g g1 v _ n p pending i shl d);
        auto; [|rewrite (pl_tree d0 d placed Hpl); exact Hp].
      cbn [mbind result_bind].
      pose proof (swap_remove_Permutation pending i _ shl Hsh Hlast) as Hsr'.
      apply IH; auto.
      * rewrite Hsr' in Hemb. apply Forall_cons in Hemb. tauto.
      * rewrite <- Hperm. rewrite (inners_Permutation _ _ Hsr'). reflexivity.
      * rewrite (total_weight_Permutation _ _ Hsr') in Hw.
        unfold total_weight in *. cbn in Hw. lia.
      * rewrite (total_weight_Permutation _ _ Hsr') in Hf.
        unfold total_weight in *. cbn in Hf. lia.
    + (* a speciation *)
      cbn in Hp. destruct Hp as (Hn & Hl & Hr).
      pose proof (insert_Permutation pending i _ l Hsh) as Hins.
      assert (Hwt : (weight l + total_weight pending
                     = S (weight l + weight r) + total_weight (<[i := l]> pending))%nat).
      { apply total_weight_Permutation in Hins.
        unfold total_weight in *. cbn in Hins. exact Hins. }
      pose proof (weight_positive l). pose proof (weight_positive r).
      assert (Hinn : concat (inners <$> pending)
                     ≡ₚ n :: inners r ++ concat (inners <$> <[i := l]> pending)).
      { apply inners_Permutation in Hins. cbn in Hins.
        rewrite <- !app_assoc in Hins.
        rewrite (Permutation_middle (inners l)) in Hins.
        apply Permutation_app_inv_l in Hins. rewrite Hins.
        constructor. reflexivity. }
      assert (Hfresh : n ∉ placed).
      { pose proof (inners_NoDup d0 s Hs) as Hnd. rewrite <- Hperm, Hinn in Hnd.
        apply NoDup_app in Hnd as (_ & Hdisj & _).
        intros Hin. apply (Hdisj n Hin). left. }
      assert (Hnb : 0 <= n < Z.of_nat (length (ranks d0))).
      { apply vec_get_bounds in Hn. pose proof (size_weight d0 s Hs) as Hsw.
        unfold size in Hsw. lia. }
      rewrite (randomize_step_inner getInt g g1 v n p pending i l r d
                 (length placed)); auto;
        [|rewrite (pl_tree d0 d placed Hpl); exact Hn
         |rewrite (pl_length_order d0 d placed Hpl); lia
         |rewrite (pl_length_ranks d0 d placed Hpl); exact Hnb
         |lia].
      cbn [mbind result_bind].
      replace (S (length placed)) with (length (placed ++ [n]))
        by (rewrite length_app; cbn; lia).
      assert (Hchild : forall c, embeds (rootedTree d0) (Some n) c ->
                hangs (rootedTree d0) (placed ++ [n]) c).
      { intros c Hc. exists (Some n). split; [exact Hc|].
        intros q [= <-]. apply elem_of_app. right. left. }
      apply IH.
      * apply placing_next; auto. lia.
      * apply Forall_app. split; [|repeat constructor; auto].
        apply Forall_insert; [|auto].
        eapply Forall_impl; [exact Hemb|]. intros sh. apply hangs_later.
      * intros j m node q Hj Hnode Hpar.
        apply lookup_app_Some in Hj as [Hj|[Hge Hj]].
        -- destruct (Hord j m node q Hj Hnode Hpar) as (k & Hk & Hk').
           exists k. split; [exact Hk|]. apply lookup_app_l_Some, Hk'.
        -- apply list_lookup_singleton_Some in Hj as [Hj ->].
           rewrite Hn in Hnode. injection Hnode as <-. cbn in Hpar.
           specialize (Hq q Hpar). apply list_elem_of_lookup in Hq as [k Hk].
           exists k. split; [|apply lookup_app_l_Some, Hk].
           apply lookup_lt_Some in Hk. lia.
      * rewrite <- Hperm, Hinn, fmap_app, concat_app. cbn.
        rewrite app_nil_r, <- app_assoc. cbn.
        apply Permutation_app_head. constructor. apply Permutation_app_comm.
      * rewrite length_app. unfold total_weight in *.
        rewrite sum_list_with_app. cbn. lia.
      * unfold total_weight in *. rewrite sum_list_with_app. cbn. lia.
Qed.

End Sorting.

(* the parent of a node of an embedded shape is a speciation of the shape,
   or is the node the shape hangs under *)
Lemma embeds_parent (tr : PLLRootedTree) (q : option Z) (sh : shape)
    (c p : Z) (node : rnode) :
  embeds tr q sh -> c ∈ labels sh -> getNode tr c = Ok node ->
  parent node = Some p ->
  (c = label sh /\ q = Some p) \/ p ∈ inners sh.
Proof.
  revert q. induction sh as [m|m l IHl r IHr]; intros q He Hc Hnode Hp;
    cbn in *.
  - apply list_elem_of_singleton in Hc as ->.
    rewrite He in Hnode. injection Hnode as <-. cbn in Hp. auto.
  - destruct He as (Hm & Hl & Hr).
    apply elem_of_cons in Hc as [->|Hc].
    { rewrite Hm in Hnode. injection Hnode as <-. cbn in Hp. auto. }
    right. apply elem_of_app in Hc as [Hc|Hc].
    + destruct (IHl _ Hl Hc Hnode Hp) as [[_ [= <-]]|Hin]; [left|].
      right. apply elem_of_app. auto.
    + destruct (IHr _ Hr Hc Hnode Hp) as [[_ [= <-]]|Hin]; [left|].
      right. apply elem_of_app. auto.
Qed.

Lemma tree_shape_parent (tr : PLLRootedTree) (s : shape) (c p : Z)
    (node : rnode) :
  tree_shape tr s -> getNode tr c = Ok node -> parent node = Some p ->
  p ∈ inners s.
Proof.
  intros Hs Hnode Hp. pose proof Hs as (He & _).
  destruct (embeds_parent tr None s c p node He) as [[_ [=]]|H]; auto.
  apply (tree_shape_labels tr); [exact Hs|]. eapply vec_get_bounds, Hnode.
Qed.

Section Drawn.
Variables (d0 d : t) (s : shape) (placed : list Z).
Hypothesis Hc0 : consistent d0.
Hypothesis Hs : tree_shape (rootedTree d0) s.
Hypothesis Hif : internals_first d0 s.
Hypothesis Hpl : placing d0 d placed.
Hypothesis Hperm : placed ≡ₚ inners s.

(* a leaf keeps the rank it had *)
Lemma drawn_leaf_rank (n : Z) (node : rnode) :
  getNode (rootedTree d0) n = Ok node -> left node = None ->
  vec_get (ranks d) n = vec_get (ranks d0) n.
Proof.
  intros Hnode Hl. apply (pl_ranks_old d0 d placed Hpl). intros Hin.
  destruct (placed_inner d0 s placed Hs Hperm n Hin) as (node' & Hnode' & Hl').
  congruence.
Qed.

(* the leaves are behind the speciations *)
Lemma leaf_rank_behind (n rn : Z) (node : rnode) :
  getNode (rootedTree d0) n = Ok node -> left node = None ->
  vec_get (ranks d0) n = Ok rn -> Z.of_nat (length placed) <= rn.
Proof.
  intros Hnode Hl Hrn. apply (position_of_rank d0 Hc0) in Hrn.
  destruct (proj1 (internals_first_alt d0 s) Hif rn n Hrn)
    as (node' & Hnode' & Hiff).
  assert (node' = node) as -> by congruence.
  rewrite <- Hperm in Hiff.
  destruct (Z.lt_ge_cases rn (Z.of_nat (length placed))) as [Hlt|]; [|lia].
  apply Hiff in Hlt. contradiction.
Qed.

Lemma drawn_parents_first :
  parents_placed (rootedTree d0) placed -> parents_first d.
Proof.
  intros Hord c node p Hnode Hp.
  rewrite (pl_tree d0 d placed Hpl) in Hnode.
  assert (Hpin : p ∈ placed).
  { rewrite Hperm. eapply tree_shape_parent; eassumption. }
  apply list_elem_of_lookup in Hpin as [i Hi].
  pose proof (lookup_lt_Some _ _ _ Hi) as Hilt.
  exists (Z.of_nat i). rewrite (pl_ranks_new d0 d placed Hpl _ _ Hi).
  destruct (left node) as [l|] eqn:Hl.
  - assert (Hcin : c ∈ placed).
    { rewrite Hperm. eapply tree_shape_inners; [exact Hs | exact Hnode|].
      rewrite Hl. discriminate. }
    apply list_elem_of_lookup in Hcin as [j Hj].
    exists (Z.of_nat j). rewrite (pl_ranks_new d0 d placed Hpl _ _ Hj).
    destruct (Hord j c node p Hj Hnode Hp) as (i' & Hlt & Hi').
    assert (Hnd : NoDup placed).
    { rewrite Hperm. apply (inners_NoDup d0 s Hs). }
    rewrite (NoDup_lookup placed i i' p Hnd Hi Hi'). repeat split; lia.
  - rewrite (drawn_leaf_rank c node Hnode Hl).
    destruct (vec_get_in_bounds (ranks d0) c) as [rc Hrc].
    { apply vec_get_bounds in Hnode. pose proof (size_ranks d0 Hc0).
      unfold size in *. lia. }
    exists rc. split; [reflexivity|]. split; [exact Hrc|].
    pose proof (leaf_rank_behind c rc node Hnode Hl Hrc). lia.
Qed.

End Drawn.

Section Draws.
Context {rng : Type} (getInt : rng -> Z * rng).
Variable s : shape.

Lemma randomize_places (fuel : nat) (g : rng) (d : t) :
  well_dated s d -> (length (nodes (rootedTree d)) <= fuel)%nat ->
  exists g' d' placed,
    randomize getInt fuel g d = Ok (g', d')
    /\ placing d d' placed /\ placed ≡ₚ inners s
    /\ parents_placed (rootedTree d) placed.
Proof.
  intros (Hc & Hd & Hs & Hif) Hfuel.
  pose proof (size_weight d s Hs) as Hsw. unfold size in Hsw.
  destruct (randomize_loop_sorts getInt d s Hc Hs fuel g [s] [] d)
    as (g' & d' & placed & Hrun & Hpl & Hperm & Hord).
  - apply placing_start.
  - repeat constructor. exists None. split; [apply Hs | discriminate].
  - intros j n node p Hj. discriminate.
  - cbn. rewrite app_nil_r. reflexivity.
  - unfold total_weight. cbn. lia.
  - unfold total_weight. cbn. lia.
  - exists g', d', placed. unfold randomize. rewrite Hd. cbn [negb].
    destruct Hs as (He & Hroot & Hrest). unfold pointers in Hrun. cbn in Hrun.
    rewrite Hroot in Hrun. auto.
Qed.

(** X17. [randomize] returns, and the order it draws is a dating of the
    tree: ranks and order are inverse to each other, every parent has a
    lower rank than its children, and [checkRanks] accepts the result.
    This holds whatever ranks the speciations had before, as long as the
    tree was consistent with its speciations ahead of its leaves. The
    leaves keep their ranks. *)
Theorem randomize_draws_a_dating (fuel : nat) (g : rng) (d : t) :
  consistent d -> fromBL d = true -> tree_shape (rootedTree d) s ->
  internals_first d s -> (length (nodes (rootedTree d)) <= fuel)%nat ->
  exists g' d',
    randomize getInt fuel g d = Ok (g', d')
    /\ invariant d' /\ checkRanks d' = Ok true
    /\ internals_first d' s /\ rootedTree d' = rootedTree d
    /\ (forall n node, getNode (rootedTree d) n = Ok node ->
          left node = None -> vec_get (ranks d') n = vec_get (ranks d) n).
Proof.
  intros Hc Hd Hs Hif Hfuel.
  destruct (randomize_places fuel g d) as (g' & d' & placed & Hrun & Hpl & Hperm & Hord);
    [unfold well_dated; auto | exact Hfuel |].
  assert (Hinv : invariant d').
  { split; [eapply placed_consistent; eassumption|].
    eapply drawn_parents_first; eassumption. }
  exists g', d'. split; [exact Hrun|]. split; [exact Hinv|].
  split; [apply DatedTreeLaws.checkRanks_passes, Hinv|].
  split; [eapply placed_internals_first; eassumption|].
  split; [apply (pl_tree d d' placed Hpl)|].
  intros n node. eapply drawn_leaf_rank; eassumption.
Qed.

End Draws.

(* the speciation L of S1 ahead of the root: consistent, and not a dating *)
Definition S1_unsorted : t :=
  mk true S1.tree [4; 6; 5; 0; 1; 2; 3] [3; 4; 5; 6; 0; 2; 1].

Lemma randomize_draws_a_dating_witness :
  parents_firstb S1_unsorted = false
  /\ exists g' d', randomize S1.counter 7 0 S1_unsorted = Ok (g', d')
       /\ invariant d' /\ checkRanks d' = Ok true.
Proof.
  split; [vm_compute; reflexivity|].
  destruct (randomize_draws_a_dating S1.counter S1.tree_as_shape 7 0 S1_unsorted)
    as (g' & d' & Hrun & Hinv & Hchk & _).
  - apply consistentb_sound. vm_compute. reflexivity.
  - reflexivity.
  - exact S1_shape.
  - unfold internals_first. cbn.
    repeat constructor; try lia; try discriminate;
      intros H; try lia; exfalso; apply H; reflexivity.
  - cbn. lia.
  - exists g', d'. auto.
Defined.


(** *** The leaves and the root stay where they are *)

Lemma apply_move_leaf_rank (d d' : t) (m : move) (b : bool) (n : Z)
    (node : rnode) :
  consistent d -> fromBL d = true -> is_uint (move_rank m) ->
  apply_move d m = Ok (b, d') ->
  getNode (rootedTree d) n = Ok node -> left node = None ->
  vec_get (ranks d') n = vec_get (ranks d) n.
Proof.
  intros Hc Hd Hr Hmv Hnode Hl.
  assert (Hdown : forall rank, is_uint rank ->
            moveDown d rank = Ok (b, d') ->
            vec_get (ranks d') n = vec_get (ranks d) n).
  { intros rank Hrank Hrun.
    destruct (moveDown_cases d rank Hc Hd Hrank)
      as [[E _]|(n1 & n2 & nd1 & nd2 & Hin & Hn1 & Hn2 & Hnd1 & Hnd2
                  & Hl1 & Hl2 & _ & E)];
      rewrite E in Hrun; injection Hrun as <- <-; [reflexivity|].
    unfold is_uint in Hrank. rewrite swapped_ranks by (auto; lia).
    repeat case_decide; subst; congruence. }
  destruct m as [rank|rank]; cbn in Hmv, Hr; [|eauto].
  destruct (decide (rank = 0)) as [->|H0].
  - unfold moveUp in Hmv. rewrite Hd in Hmv. cbn in Hmv.
    injection Hmv as <- <-. reflexivity.
  - rewrite moveUp_moveDown in Hmv by auto.
    apply (Hdown (rank - 1)); [unfold is_uint in *; lia | exact Hmv].
Qed.

Section Leaves.
Context {rng : Type} (getInt : rng -> Z * rng).
Variable s : shape.

Lemma mutate_leaf_ranks (fuel : nat) (ops : list mutation) :
  forall (g : rng) (d : t),
  well_dated s d -> Forall mutation_typed ops ->
  (length (nodes (rootedTree d)) <= fuel)%nat ->
  exists g' d', mutate getInt fuel g d ops = Ok (g', d')
    /\ well_dated s d' /\ rootedTree d' = rootedTree d
    /\ (forall n node, getNode (rootedTree d) n = Ok node ->
          left node = None -> vec_get (ranks d') n = vec_get (ranks d) n).
Proof.
  induction ops as [|op ops IH]; intros g d Hwd Hops Hfuel.
  { exists g, d. auto. }
  inversion Hops as [|? ? Hop Hops']; subst.
  assert (Hstep : exists g1 d1,
            apply_mutation getInt fuel g d op = Ok (g1, d1)
            /\ well_dated s d1 /\ rootedTree d1 = rootedTree d
            /\ (forall n node, getNode (rootedTree d) n = Ok node ->
                  left node = None ->
                  vec_get (ranks d1) n = vec_get (ranks d) n)).
  { destruct op as [m|]; cbn in *.
    - destruct (apply_move_well_dated s d m Hwd Hop)
        as (b & d1 & Hmv & H1 & H2).
      exists g, d1. rewrite Hmv. split; [reflexivity|].
      split; [exact H1|]. split; [exact H2|].
      destruct Hwd as (Hc & Hd & _).
      intros n node. eapply apply_move_leaf_rank; eassumption.
    - pose proof Hwd as (Hc & Hd & Hs & Hif).
      destruct (randomize_places getInt s fuel g d Hwd Hfuel)
        as (g1 & d1 & placed & Hrun & Hpl & Hperm & _).
      destruct (randomize_keeps getInt s fuel g d Hwd Hfuel)
        as (g2 & d2 & Hrun2 & Hwd2 & Ht2).
      rewrite Hrun in Hrun2. injection Hrun2 as <- <-.
      exists g1, d1. split; [exact Hrun|]. split; [exact Hwd2|].
      split; [exact Ht2|].
      intros n node. eapply drawn_leaf_rank; eassumption. }
  destruct Hstep as (g1 & d1 & Hrun1 & Hwd1 & Ht1 & Hleaf1).
  destruct (IH g1 d1 Hwd1 Hops') as (g' & d' & Hrun & Hwd' & Ht' & Hleaf);
    [rewrite Ht1; exact Hfuel|].
  exists g', d'. cbn. rewrite Hrun1. cbn. rewrite Hrun.
  split; [reflexivity|]. split; [exact Hwd'|]. split; [congruence|].
  intros n node Hnode Hl.
  rewrite (Hleaf n node) by (rewrite ?Ht1; assumption). eauto.
Qed.

(** X18. No operation on the dating ever moves a leaf: through any
    sequence of [moveUp], [moveDown] and [randomize] calls every leaf
    keeps its rank, and the speciations stay ahead of the leaves in the
    order. *)
Theorem leaves_keep_their_ranks (fuel : nat) (ops : list mutation)
    (g : rng) (d : t) :
  consistent d -> fromBL d = true -> tree_shape (rootedTree d) s ->
  internals_first d s -> Forall mutation_typed ops ->
  (length (nodes (rootedTree d)) <= fuel)%nat ->
  exists g' d',
    mutate getInt fuel g d ops = Ok (g', d')
    /\ (forall n node, getNode (rootedTree d) n = Ok node ->
          left node = None -> vec_get (ranks d') n = vec_get (ranks d) n)
    /\ internals_first d' s.
Proof.
  intros Hc Hd Hs Hif Hops Hfuel.
  destruct (mutate_leaf_ranks fuel ops g d) as (g' & d' & Hrun & Hwd & _ & Hleaf);
    [unfold well_dated; auto | exact Hops | exact Hfuel |].
  exists g', d'. split; [exact Hrun|]. split; [exact Hleaf|]. apply Hwd.
Qed.

End Leaves.

Lemma leaves_keep_their_ranks_witness :
  exists g' d',
    mutate S1.counter 7 0 S1.dated
      [Swap (Down 2); Randomize; Swap (Up 2); Swap (Down 1)] = Ok (g', d')
    /\ vec_get (ranks d') 0 = Ok 3 /\ vec_get (ranks d') 3 = Ok 6.
Proof.
  destruct (leaves_keep_their_ranks S1.counter S1.tree_as_shape 7
              [Swap (Down 2); Randomize; Swap (Up 2); Swap (Down 1)]
              0 S1.dated)
    as (g' & d' & Hrun & Hleaf & _).
  - apply consistentb_sound. vm_compute. reflexivity.
  - reflexivity.
  - exact S1_shape.
  - exact S1_internals_first.
  - repeat constructor; unfold is_uint; cbn; lia.
  - cbn. lia.
  - exists g', d'. split; [exact Hrun|].
    split; [apply (Hleaf 0 (S1.leaf 4)) | apply (Hleaf 3 (S1.leaf 5))];
      reflexivity.
Defined.

(* the only node without a parent is the one the shape hangs by *)
Lemma embeds_orphan (tr : PLLRootedTree) (q : option Z) (sh : shape)
    (c : Z) (node : rnode) :
  embeds tr q sh -> c ∈ labels sh -> getNode tr c = Ok node ->
  parent node = None -> c = label sh /\ q = None.
Proof.
  revert q. induction sh as [m|m l IHl r IHr]; intros q He Hc Hnode Hp;
    cbn in *.
  - apply list_elem_of_singleton in Hc as ->.
    rewrite He in Hnode. injection Hnode as <-. cbn in Hp. auto.
  - destruct He as (Hm & Hl & Hr).
    apply elem_of_cons in Hc as [->|Hc].
    { rewrite Hm in Hnode. injection Hnode as <-. cbn in Hp. auto. }
    apply elem_of_app in Hc as [Hc|Hc].
    + destruct (IHl _ Hl Hc Hnode Hp) as [_ [=]].
    + destruct (IHr _ Hr Hc Hnode Hp) as [_ [=]].
Qed.

Lemma root_first (d : t) (s : shape) :
  invariant d -> tree_shape (rootedTree d) s ->
  vec_get (orderedSpeciations d) 0 = Ok (root (rootedTree d)).
Proof.
  intros [Hc Hpf] Hs. pose proof (size_bounds d Hc) as Hsb.
  pose proof (size_order d Hc) as Hso.
  destruct (vec_get_in_bounds (orderedSpeciations d) 0) as [n Hn]; [lia|].
  destruct (consistent_node d 0 n Hc Hn) as [node Hnode].
  pose proof (rank_of_position d Hc _ _ Hn) as Hrn.
  destruct (parent node) as [p|] eqn:Hp.
  - destruct (Hpf n node p Hnode Hp) as (rp & rn & Hrp & Hrn' & Hlt).
    rewrite Hrn in Hrn'. injection Hrn' as <-.
    apply (position_of_rank d Hc), vec_get_bounds in Hrp. lia.
  - pose proof Hs as (He & Hroot & _).
    destruct (embeds_orphan _ None s n node He) as [-> _]; auto.
    + apply (tree_shape_labels (rootedTree d)); [exact Hs|].
      eapply vec_get_bounds, Hnode.
    + rewrite <- Hroot. exact Hn.
Qed.

(** X19. The root is the first speciation, and stays so: in a dated tree
    that satisfies the invariants the node at rank 0 is the root of the
    rooted tree, and after any sequence of [moveUp] and [moveDown] calls
    the root still has rank 0. *)
Theorem root_keeps_rank_zero (d : t) (s : shape) (ms : list move) :
  invariant d -> fromBL d = true -> tree_shape (rootedTree d) s ->
  Forall (fun m => is_uint (move_rank m)) ms ->
  vec_get (orderedSpeciations d) 0 = Ok (root (rootedTree d))
  /\ exists d', apply_moves d ms = Ok d'
       /\ vec_get (orderedSpeciations d') 0 = Ok (root (rootedTree d))
       /\ vec_get (ranks d') (root (rootedTree d)) = Ok 0.
Proof.
  intros Hinv Hd Hs Hms. split; [eapply root_first; eassumption|].
  destruct (apply_moves_keep ms d Hinv Hd Hms) as (d' & Hrun & Hinv' & _ & Ht).
  exists d'. split; [exact Hrun|].
  assert (H0 : vec_get (orderedSpeciations d') 0 = Ok (root (rootedTree d))).
  { rewrite <- Ht. apply (root_first d' s); [exact Hinv'|]. rewrite Ht. exact Hs. }
  split; [exact H0|]. destruct Hinv' as [Hc' _].
  apply (rank_of_position d' Hc'), H0.
Qed.

Lemma root_keeps_rank_zero_witness :
  exists d', apply_moves S1.dated [Down 0; Up 1; Up 2; Down 0] = Ok d'
    /\ vec_get (orderedSpeciations d') 0 = Ok 6
    /\ vec_get (ranks d') 6 = Ok 0.
Proof.
  destruct (root_keeps_rank_zero S1.dated S1.tree_as_shape
              [Down 0; Up 1; Up 2; Down 0]) as (_ & d' & Hrun & H1 & H2).
  - apply invariantb_sound. vm_compute. reflexivity.
  - reflexivity.
  - exact S1_shape.
  - repeat constructor; unfold is_uint; cbn; lia.
  - exists d'. auto.
Defined.


End RandomizeLaws.
(** ** The searches over the dating and the root *)

Module RootSearchFacts.
Import DatedTree DatedTreeFacts Search SearchFacts.

Lemma restore_Ok (d d' : t) (backup : DatedBackup) :
  restore d backup = Ok d' ->
  rootedTree d' = rootedTree d /\ fromBL d' = fromBL d /\ ranks d' = backup.
Proof.
  unfold restore. intros H. bind_inv H. injection H as <-. auto.
Qed.

(* restore brings back the very tree the backup was taken from *)
Lemma restore_same_tree (s s' s'' : t) :
  consistent s -> consistent s' -> rootedTree s' = rootedTree s ->
  fromBL s' = fromBL s -> restore s' (getBackup s) = Ok s'' -> s'' = s.
Proof.
  intros Hc Hc' Ht Hd Hres.
  rewrite (restore_backup s s' Hc Hc') in Hres
    by (unfold size; rewrite Ht; reflexivity).
  injection Hres as <-. rewrite Ht, Hd. destruct s; reflexivity.
Qed.

Section Frames.
Context {Env : Type} `{Collaborators Env} {Checkpoint : Type}.
Variable rollbackStack : Env -> list Checkpoint.
Hypothesis Hrc : RootContract rollbackStack.

Lemma perturbMoves_kept (isUp : bool) (rank nodesToMove displacement : Z)
    (e : Env) (fuel : nat) :
  forall (at_ : loop_point) (k j : Z) (s s' : SpeciesTree),
  perturbMoves fuel isUp rank nodesToMove displacement at_ k j s = Ok s' ->
  kept rollbackStack s e s' e.
Proof.
  induction fuel as [|fuel IH]; intros at_ k j s s' Hrun; [discriminate|].
  cbn [perturbMoves] in Hrun. destruct at_.
  - destruct (k <? nodesToMove); [eauto|].
    injection Hrun as <-. apply kept_refl.
  - destruct (j <? displacement); [|eauto].
    bind_inv Hrun. destruct a as [ok s1].
    assert (K1 : kept rollbackStack s e s1 e).
    { destruct isUp; [eapply kept_moveUp | eapply kept_moveDown]; eauto;
        apply wrap_uint_is_uint. }
    eapply kept_trans; [exact K1|]. destruct ok; eauto.
Qed.

Lemma perturbations_loop_kept (fuel : nat) (N maxDisplacement : Z)
    (count : nat) :
  forall (s : SpeciesTree) (e : Env) (s' : SpeciesTree) (e' : Env),
  perturbations_loop fuel count N maxDisplacement s e = Ok (s', e') ->
  kept rollbackStack s e s' e'.
Proof.
  induction count as [|count IH]; intros s e s' e' Hrun.
  { injection Hrun as <- <-. apply kept_refl. }
  cbn [perturbations_loop] in Hrun.
  pose proof (rc_getBool rollbackStack Hrc e) as Hb.
  destruct (getBool e) as [isUp e1]. cbn in Hb.
  pose proof (rc_getInt rollbackStack Hrc e1) as H1.
  destruct (getInt e1) as [r1 e2]. cbn in H1.
  destruct (N =? 0); [discriminate|].
  pose proof (rc_getInt rollbackStack Hrc e2) as H2.
  destruct (getInt e2) as [r2 e3]. cbn in H2.
  pose proof (rc_getInt rollbackStack Hrc e3) as H3.
  destruct (getInt e3) as [r3 e4]. cbn in H3.
  bind_inv Hrun. rename a into s1.
  eapply kept_trans; [eapply (perturbMoves_kept _ _ _ _ e); exact E|].
  eapply kept_trans; [|eapply IH; exact Hrun].
  apply kept_env. congruence.
Qed.

Lemma perturbateDates_kept (fuel : nat) (perturbation : double)
    (s : SpeciesTree) (e : Env) (s' : SpeciesTree) (e' : Env) :
  perturbateDates fuel perturbation s e = Ok (s', e') -> kept rollbackStack s e s' e'.
Proof.
  unfold perturbateDates. intros Hrun.
  destruct (negb (gtb perturbation zero)); [discriminate|].
  bind_inv Hrun. bind_inv Hrun. bind_inv Hrun. destruct a1 as [s1 e1].
  bind_inv Hrun. injection Hrun as <- <-.
  eapply kept_trans; [eapply perturbations_loop_kept; eauto|].
  apply kept_env. eapply rc_notify; eauto.
Qed.

Lemma restoreDates_kept (s0 s : SpeciesTree) (e : Env) (s' : SpeciesTree)
    (e' : Env) :
  consistent s0 -> rootedTree s = rootedTree s0 -> fromBL s = fromBL s0 ->
  restoreDates (getBackup s0) s e = Ok (s', e') ->
  rollbackStack e' = rollbackStack e /\ (consistent s -> s' = s0).
Proof.
  intros Hc0 Ht Hd Hres. split; [eapply rc_restore_stack; eauto|].
  intros Hc. apply (rc_restore rollbackStack Hrc) in Hres.
  eapply restore_same_tree; eauto.
Qed.

Lemma optimizeDates_trials_kept (thorough : bool) (fuel : nat) :
  forall (trials : Z) (best : double) (s : SpeciesTree) (e : Env)
    (ll : double) (s' : SpeciesTree) (e' : Env),
  optimizeDates_trials fuel thorough trials best s e = Ok (ll, s', e') ->
  kept rollbackStack s e s' e'.
Proof.
  induction fuel as [|fuel IH]; intros trials best s e ll s' e' Hrun;
    [discriminate|].
  cbn [optimizeDates_trials] in Hrun.
  destruct (negb (thorough && (trials <? 2))).
  { injection Hrun as <- <- <-. apply kept_refl. }
  bind_inv Hrun. destruct a as [s1 e1].
  bind_inv Hrun. destruct a as [[ll1 s2] e2].
  pose proof (perturbateDates_kept _ _ _ _ _ _ E) as K1.
  pose proof (optimizeDatesLocal_kept rollbackStack Hrc _ _ _ _ _ _ _ E0) as K2.
  pose proof (kept_trans rollbackStack _ _ _ _ _ _ K1 K2) as K12.
  destruct (gtb ll1 best).
  - eapply kept_trans; [exact K12 | eapply IH; exact Hrun].
  - bind_inv Hrun. destruct a as [s3 e3].
    eapply kept_trans; [|eapply IH; exact Hrun].
    pose proof (rc_restore_stack rollbackStack Hrc _ _ _ _ _ E1) as Hst.
    apply (rc_restore rollbackStack Hrc) in E1.
    destruct (restore_Ok _ _ _ E1) as (Ht3 & Hd3 & _).
    destruct K12 as (Hc2 & Ht2 & Hd2 & Hs2).
    unfold SearchFacts.kept. split; [|split; [congruence|split; congruence]].
    intros Hc. rewrite (restore_same_tree s s2 s3); auto.
Qed.

Lemma optimizeDates_kept (thorough : bool) (fuel : nat) (s : SpeciesTree)
    (e : Env) (ll : double) (s' : SpeciesTree) (e' : Env) :
  optimizeDates fuel thorough s e = Ok (ll, s', e') -> kept rollbackStack s e s' e'.
Proof.
  unfold optimizeDates. intros Hrun.
  bind_inv Hrun. destruct a as [[initialLL perFamLL] e1].
  bind_inv Hrun. rename a into e2.
  assert (K1 : kept rollbackStack s e s e2).
  { eapply kept_trans; [apply kept_env; eapply rc_compute; eauto|].
    eapply kept_callback; eauto. }
  destruct (negb (isDated e2)).
  { injection Hrun as <- <- <-. exact K1. }
  bind_inv Hrun. destruct a as [[best s1] e3].
  eapply kept_trans; [exact K1|].
  eapply kept_trans; [eapply optimizeDatesLocal_kept; eauto|].
  eapply optimizeDates_trials_kept; eauto.
Qed.

End Frames.

(** *** The root search *)

(* the likelihood [b] is the likelihood [a], or is above it *)
Definition not_below (a b : double) : Prop := b = a \/ gtb b a = true.

Lemma not_below_trans (a b c : double) :
  not_below a b -> not_below b c -> not_below a c.
Proof.
  unfold not_below, gtb.
  intros [->|Hab] [->|Hbc]; auto. right. eapply ltb_trans; eassumption.
Qed.

Section Root.
Context {Env : Type} `{Collaborators Env} {Checkpoint : Type}.
Variable rollbackStack : Env -> list Checkpoint.
Hypothesis Hrc : RootContract rollbackStack.

(* the tree at the entry of the search, and the directions taken so far *)
Variable s0 : SpeciesTree.
Variable taken : list Z.

(** The rooted trees that changes of root reach from the first one, with
    the directions taken. *)
Inductive reaches : list Z -> PLLRootedTree -> Prop :=
| reaches_nil : reaches taken (rootedTree s0)
| reaches_snoc (moves : list Z) (dir : Z) (s : SpeciesTree) (e : Env)
    (s' : SpeciesTree) (e' : Env) :
    reaches moves (rootedTree s) -> changeRoot dir s e = Ok (s', e') ->
    reaches (moves ++ [dir]) (rootedTree s').

(** The best likelihood was computed on a tree that is known: its root is
    the one that [bestMovesHistory] leads to, and its dating is
    [bestDatedBackup]. *)
Definition known (st : RootSearch) : Prop :=
  exists sb eb perFamLL eb',
    computeLikelihood sb eb = Ok (bestLL st, perFamLL, eb')
    /\ consistent sb /\ fromBL sb = fromBL s0
    /\ reaches (drop 1 (bestMovesHistory st)) (rootedTree sb)
    /\ bestDatedBackup st = getBackup sb.

(* the tree is the one that [movesHistory] leads to *)
Definition on_path (st : RootSearch) (s : SpeciesTree) : Prop :=
  consistent s /\ fromBL s = fromBL s0 /\ movesHistory st <> []
  /\ reaches (drop 1 (movesHistory st)) (rootedTree s).

(* what a call of rootSearchAux leaves behind *)
Definition restored (st : RootSearch) (s : SpeciesTree) (e : Env)
    (st' : RootSearch) (s' : SpeciesTree) (e' : Env) : Prop :=
  s' = s /\ rollbackStack e' = rollbackStack e
  /\ movesHistory st' = movesHistory st
  /\ not_below (bestLL st) (bestLL st')
  /\ (known st -> known st').

Lemma record_likelihoods_stack (tv rl : bool) (s : SpeciesTree) (ll : double)
    (perFamLL : PerFamLL) (e : Env) :
  rollbackStack (record_likelihoods tv rl s ll perFamLL e) = rollbackStack e.
Proof.
  unfold record_likelihoods.
  destruct tv, rl;
    rewrite ?(rc_recordRoot rollbackStack Hrc), ?(rc_recordTree rollbackStack Hrc);
    reflexivity.
Qed.

Lemma known_same_best (st st' : RootSearch) :
  bestMovesHistory st' = bestMovesHistory st ->
  bestDatedBackup st' = bestDatedBackup st -> bestLL st' = bestLL st ->
  known st -> known st'.
Proof. unfold known. intros -> -> ->. auto. Qed.

Lemma rootSearchAux_directions_restore
    (aux : RootSearch -> double -> Z -> SpeciesTree -> Env ->
           result (RootSearch * SpeciesTree * Env))
    (redate : bool -> SpeciesTree -> Env -> result (double * SpeciesTree * Env))
    (tv rl : bool) :
  (forall st bls md s e st' s' e', on_path st s ->
     aux st bls md s e = Ok (st', s', e') -> restored st s e st' s' e') ->
  (forall b s e ll s' e', redate b s e = Ok (ll, s', e') ->
     kept rollbackStack s e s' e') ->
  forall (moves : list Z) (maxDepth : Z) (st : RootSearch) (bls : double)
    (s : SpeciesTree) (e : Env) st' s' e',
  on_path st s ->
  rootSearchAux_directions aux redate tv rl maxDepth moves st bls s e
    = Ok (st', s', e') ->
  restored st s e st' s' e'.
Proof.
  intros Haux Hredate.
  induction moves as [|dir moves IH];
    intros maxDepth st bls s e st' s' e' Hpath Hrun.
  { injection Hrun as <- <- <-. unfold restored, not_below. auto 10. }
  cbn [rootSearchAux_directions] in Hrun.
  destruct (negb (canChangeRoot s dir)); [eauto|].
  destruct Hpath as (Hc & Hd & Hne & Hreach).
  bind_inv Hrun. rename a into e1, E into Epush.
  bind_inv Hrun. destruct a as [s2 e2]. rename E into Echange.
  bind_inv Hrun. destruct a as [[ll0 s3] e3]. rename E into Eredate.
  bind_inv Hrun. destruct a as [[ll perFamLL] e4]. rename E into Ecompute.
  set (st1 := mk_search (movesHistory st ++ [dir]) (bestMovesHistory st)
                (bestDatedBackup st) (bestLL st)) in *.
  set (e5 := record_likelihoods tv rl s3 ll perFamLL e4) in *.
  destruct (rc_push rollbackStack Hrc _ _ Epush) as [c Hst1].
  destruct (rc_change_tree rollbackStack Hrc _ _ _ _ _ Hc Echange)
    as (Hc2 & Hsz2 & Hd2).
  pose proof (rc_change_stack rollbackStack Hrc _ _ _ _ _ Echange) as Hst2.
  destruct (Hredate _ _ _ _ _ _ Eredate) as (Hc3 & Ht3 & Hd3 & Hst3).
  specialize (Hc3 Hc2).
  pose proof (rc_compute rollbackStack Hrc _ _ _ _ _ Ecompute) as Hst4.
  pose proof (record_likelihoods_stack tv rl s3 ll perFamLL e4) as Hst5.
  fold e5 in Hst5.
  assert (Hreach3 : reaches (drop 1 (movesHistory st ++ [dir])) (rootedTree s3)).
  { rewrite Ht3. destruct (movesHistory st) as [|m hist]; [contradiction|].
    change (drop 1 (m :: hist)) with hist in Hreach.
    change (drop 1 ((m :: hist) ++ [dir])) with (hist ++ [dir]).
    eapply reaches_snoc; eassumption. }
  (* the record after the two tests on ll *)
  set (st2 := if gtb ll (bestLL st1)
              then mk_search (movesHistory st1) (movesHistory st1)
                     (getBackup s3) ll
              else st1) in *.
  assert (Hhist2 : movesHistory st2 = movesHistory st ++ [dir])
    by (unfold st2; destruct (gtb ll (bestLL st1)); reflexivity).
  assert (Hbest2 : not_below (bestLL st) (bestLL st2)).
  { unfold st2. destruct (gtb ll (bestLL st1)) eqn:Hgt; [right | left];
      auto. }
  assert (Hknown2 : known st -> known st2).
  { unfold st2. destruct (gtb ll (bestLL st1)); [|auto].
    intros _. exists s3, e3, perFamLL, e4. cbn.
    split; [exact Ecompute|]. split; [exact Hc3|]. split; [congruence|].
    split; [exact Hreach3 | reflexivity]. }
  assert (Hpath2 : on_path st2 s3).
  { unfold on_path. rewrite Hhist2.
    split; [exact Hc3|]. split; [congruence|]. split; [|exact Hreach3].
    intros Habs. apply app_eq_nil in Habs as [_ [=]]. }
  assert (Hrest : exists bls1 md1,
           ('(st3, s4, e6) ← aux st2 bls1 md1 s3 e5;
            '(s5, e7) ← revertChangeRoot dir s4 e6;
            '(s6, e8) ← restoreDates (getBackup s) s5 e7;
            e9 ← popAndApplyRollback e8;
            rootSearchAux_directions aux redate tv rl maxDepth moves
              (mk_search (removelast (movesHistory st3))
                 (bestMovesHistory st3) (bestDatedBackup st3) (bestLL st3))
              bls1 s6 e9) = Ok (st', s', e')).
  { destruct (gtb ll bls); eauto. }
  clear Hrun. destruct Hrest as (bls1 & md1 & Hrun).
  bind_inv Hrun. destruct a as [[st3 s4] e6]. rename E into Eaux.
  bind_inv Hrun. destruct a as [s5 e7]. rename E into Erevert.
  bind_inv Hrun. destruct a as [s6 e8]. rename E into Erestore.
  bind_inv Hrun. rename a into e9, E into Epop.
  destruct (Haux _ _ _ _ _ _ _ _ Hpath2 Eaux)
    as (-> & Hst6 & Hhist3 & Hbest3 & Hknown3).
  destruct (rc_revert_tree rollbackStack Hrc _ _ _ _ _ Hc3 Erevert)
    as (Hc5 & Hsz5 & Hd5).
  pose proof (rc_revert_stack rollbackStack Hrc _ _ _ _ _ Erevert) as Hst7.
  pose proof (rc_revert_root rollbackStack Hrc _ _ _ _ _ _ _ _ _
                Echange Ht3 Erevert) as Ht5.
  destruct (restoreDates_kept rollbackStack Hrc s s5 e7 s6 e8)
    as (Hst8 & Hs6); auto; [congruence|].
  specialize (Hs6 Hc5). subst s6.
  pose proof (rc_pop rollbackStack Hrc _ _ Epop) as Hst9.
  assert (Hstack : rollbackStack e9 = rollbackStack e).
  { rewrite Hst9, Hst8, Hst7, Hst6, Hst5, Hst4, Hst3, Hst2, Hst1.
    reflexivity. }
  set (st4 := mk_search (removelast (movesHistory st3)) (bestMovesHistory st3)
                (bestDatedBackup st3) (bestLL st3)) in *.
  assert (Hhist4 : movesHistory st4 = movesHistory st).
  { unfold st4. cbn. rewrite Hhist3, Hhist2. apply removelast_last. }
  assert (Hpath4 : on_path st4 s).
  { unfold on_path. rewrite Hhist4. auto. }
  destruct (IH _ _ _ _ _ _ _ _ Hpath4 Hrun)
    as (-> & Hst' & Hhist' & Hbest' & Hknown').
  unfold restored. split; [reflexivity|]. split; [congruence|].
  split; [congruence|]. split.
  - eapply not_below_trans; [exact Hbest2|].
    eapply not_below_trans; [exact Hbest3 | exact Hbest'].
  - intros Hk. apply Hknown'.
    apply (known_same_best st3 st4); try reflexivity. auto.
Qed.

Lemma rootSearchAux_restore (tv rl : bool) (fuel : nat) :
  forall (st : RootSearch) (bls : double) (maxDepth : Z) (s : SpeciesTree)
    (e : Env) st' s' e',
  on_path st s ->
  rootSearchAux fuel tv rl st bls maxDepth s e = Ok (st', s', e') ->
  restored st s e st' s' e'.
Proof.
  induction fuel as [|fuel IH]; intros st bls maxDepth s e st' s' e' Hpath Hrun;
    [discriminate|].
  cbn [rootSearchAux] in Hrun.
  destruct (vec_size (movesHistory st) >? maxDepth).
  { injection Hrun as <- <- <-. unfold restored, not_below. auto 10. }
  bind_inv Hrun.
  eapply rootSearchAux_directions_restore; [| |exact Hpath|exact Hrun].
  - intros. eapply IH; eassumption.
  - intros. eapply optimizeDates_kept; eassumption.
Qed.

End Root.


Section RootResult.
Context {Env : Type} `{Collaborators Env} {Checkpoint : Type}.
Variable rollbackStack : Env -> list Checkpoint.
Hypothesis Hrc : RootContract rollbackStack.

Lemma replayMoves_app (m1 m2 : list Z) :
  forall (s : SpeciesTree) (e : Env),
  replayMoves (m1 ++ m2) s e
  = '(s1, e1) ← replayMoves m1 s e; replayMoves m2 s1 e1.
Proof.
  induction m1 as [|dir m1 IH]; intros s e; [reflexivity|].
  cbn [app replayMoves]. destruct (changeRoot dir s e) as [[s1 e1]|]; [|reflexivity].
  cbn [mbind result_bind]. apply IH.
Qed.

(* the final loop of rootSearch walks to the root that the history names *)
Lemma replayMoves_reaches (s0 : SpeciesTree) (moves : list Z)
    (tr : PLLRootedTree) :
  reaches s0 [] moves tr ->
  forall (s : SpeciesTree) (e : Env) (s' : SpeciesTree) (e' : Env),
  rootedTree s = rootedTree s0 -> consistent s ->
  replayMoves moves s e = Ok (s', e') ->
  rootedTree s' = tr /\ consistent s' /\ fromBL s' = fromBL s
  /\ rollbackStack e' = rollbackStack e.
Proof.
  induction 1 as [|moves dir sx ex sx' ex' Hreach IH Hchange];
    intros s e s' e' Ht Hc Hrun.
  - injection Hrun as <- <-. auto.
  - rewrite replayMoves_app in Hrun. bind_inv Hrun. destruct a as [s1 e1].
    cbn [replayMoves] in Hrun. bind_inv Hrun. destruct a as [s2 e2].
    injection Hrun as <- <-.
    destruct (IH _ _ _ _ Ht Hc E) as (Ht1 & Hc1 & Hd1 & Hst1).
    destruct (rc_change_tree rollbackStack Hrc _ _ _ _ _ Hc1 E0)
      as (Hc2 & _ & Hd2).
    split; [eapply (rc_change_root rollbackStack Hrc); eassumption|].
    split; [exact Hc2|]. split; [congruence|].
    rewrite (rc_change_stack rollbackStack Hrc _ _ _ _ _ E0). exact Hst1.
Qed.

End RootResult.

(** X20. [optimizeDates] touches the dating only: whenever it returns,
    the rooted tree is the one it was called with, the dated tree is
    still consistent and still dated, and the rollback stack of the
    evaluator is as it was. The evaluator, the listeners and the search
    state are assumed to leave the rollback stack alone, and
    [restoreDates] to be [restore]. *)
Theorem optimizeDates_keeps {Env : Type} `{Collaborators Env}
    {Checkpoint : Type} (rollbackStack : Env -> list Checkpoint)
    (fuel : nat) (thorough : bool) (s : SpeciesTree) (e : Env)
    (ll : double) (s' : SpeciesTree) (e' : Env) :
  RootContract rollbackStack -> consistent s ->
  optimizeDates fuel thorough s e = Ok (ll, s', e') ->
  rootedTree s' = rootedTree s /\ consistent s' /\ fromBL s' = fromBL s
  /\ rollbackStack e' = rollbackStack e.
Proof.
  intros Hrc Hc Hrun.
  destruct (optimizeDates_kept rollbackStack Hrc _ _ _ _ _ _ _ Hrun)
    as (Hc' & Ht & Hd & Hst).
  auto.
Qed.

(** X21. Every call of [rootSearchAux] that returns has put things back:
    the species tree (its root and its dating) is the one of the entry,
    the rollback stack of the evaluator and the moves history are as at
    the entry, and the best likelihood is the one of the entry or is
    above it. The root operations are assumed to keep the dated tree
    consistent, [revertChangeRoot] to undo [changeRoot], and
    [restoreDates] to be [restore]. *)
Theorem rootSearchAux_restores {Env : Type} `{Collaborators Env}
    {Checkpoint : Type} (rollbackStack : Env -> list Checkpoint)
    (fuel : nat) (treePerFamLLVec rootLikelihoods : bool) (st : RootSearch)
    (bestLLStack : double) (maxDepth : Z) (s : SpeciesTree) (e : Env)
    (st' : RootSearch) (s' : SpeciesTree) (e' : Env) :
  RootContract rollbackStack -> consistent s ->
  rootSearchAux fuel treePerFamLLVec rootLikelihoods st bestLLStack maxDepth
    s e = Ok (st', s', e') ->
  s' = s /\ rollbackStack e' = rollbackStack e
  /\ movesHistory st' = movesHistory st
  /\ (bestLL st' = bestLL st \/ gtb (bestLL st') (bestLL st) = true).
Proof.
  intros Hrc Hc Hrun.
  destruct (movesHistory st) as [|m hist] eqn:Hhist.
  - destruct fuel as [|fuel]; [discriminate|]. cbn [rootSearchAux] in Hrun.
    rewrite Hhist in Hrun.
    destruct (vec_size [] >? maxDepth); [|discriminate].
    injection Hrun as <- <- <-. auto.
  - assert (Hpath : on_path s hist st s).
    { split; [exact Hc|]. split; [reflexivity|]. rewrite Hhist.
      split; [discriminate | apply reaches_nil]. }
    destruct (rootSearchAux_restore rollbackStack Hrc s hist _ _ fuel _ _ _ _ _
                _ _ _ Hpath Hrun) as (Hs & Hst & Hh & Hb & _).
    rewrite <- Hhist. auto.
Qed.

(** X22. When [rootSearch] returns, the likelihood it returns is one that
    the evaluator has computed on exactly the species tree that is left
    (root and dating), and it is the likelihood computed at the entry or
    is above it; the rollback stack of the evaluator is as at the entry.
    The assumptions on the collaborators are those of [rootSearchAux],
    and a change of root is assumed to lead to the same rooted tree
    whenever it starts from the same rooted tree. *)
Theorem rootSearch_returns_the_best {Env : Type} `{Collaborators Env}
    {Checkpoint : Type} (rollbackStack : Env -> list Checkpoint)
    (fuel : nat) (treePerFamLLVec rootLikelihoods : bool) (maxDepth : Z)
    (s : SpeciesTree) (e : Env) (ll : double) (s' : SpeciesTree) (e' : Env) :
  RootContract rollbackStack -> consistent s ->
  rootSearch fuel treePerFamLLVec rootLikelihoods maxDepth s e
    = Ok (ll, s', e') ->
  (exists initialLL perFamLL e0,
     computeLikelihood s e = Ok (initialLL, perFamLL, e0)
     /\ (ll = initialLL \/ gtb ll initialLL = true))
  /\ (exists eb perFamLL eb', computeLikelihood s' eb = Ok (ll, perFamLL, eb'))
  /\ consistent s' /\ fromBL s' = fromBL s
  /\ rollbackStack e' = rollbackStack e.
Proof.
  intros Hrc Hc Hrun. unfold rootSearch, rootSearch_traversals in Hrun.
  bind_inv Hrun. destruct a as [[st3 s2] e5]. rename E into Etrav.
  bind_inv Etrav. destruct a as [[initialLL perFamLL] e1]. rename E into Ecomp.
  set (e3 := if rootLikelihoods then _ else _) in Etrav.
  assert (Hst3 : rollbackStack e3 = rollbackStack e).
  { unfold e3. destruct rootLikelihoods, treePerFamLLVec;
      rewrite ?(rc_recordRoot rollbackStack Hrc),
        ?(rc_recordTree rollbackStack Hrc), ?(rc_clear rollbackStack Hrc);
      eapply rc_compute; eauto. }
  bind_inv Etrav. destruct a as [[st1 s1] e4]. rename E into Efirst.
  bind_inv Etrav. rename a into hist, E into Eset.
  set (st := mk_search [1] [] (getBackup s) initialLL) in *.
  assert (Hknown : known s [] st).
  { exists s, e, perFamLL, e1. split; [exact Ecomp|].
    split; [exact Hc|]. split; [reflexivity|].
    split; [apply reaches_nil | reflexivity]. }
  assert (Hpath : on_path s [] st s).
  { split; [exact Hc|]. split; [reflexivity|]. split; [discriminate|].
    apply reaches_nil. }
  destruct (rootSearchAux_restore rollbackStack Hrc s [] _ _ _ _ _ _ _ _ _ _ _
              Hpath Efirst) as (-> & Hst4 & Hh1 & Hb1 & Hk1).
  specialize (Hk1 Hknown).
  apply vec_set_inv in Eset as [_ ->]. rewrite Hh1 in Etrav. cbn in Etrav.
  set (st2 := mk_search [0] (bestMovesHistory st1) (bestDatedBackup st1)
                (bestLL st1)) in *.
  assert (Hpath2 : on_path s [] st2 s).
  { split; [exact Hc|]. split; [reflexivity|]. split; [discriminate|].
    apply reaches_nil. }
  destruct (rootSearchAux_restore rollbackStack Hrc s [] _ _ _ _ _ _ _ _ _ _ _
              Hpath2 Etrav) as (-> & Hst5 & Hh2 & Hb2 & Hk2).
  assert (Hknown3 : known s [] st3).
  { apply Hk2. apply (known_same_best s [] st1 st2); auto. }
  destruct Hknown3 as (sb & eb & pfb & eb' & Ebest & Hcb & Hdb & Hreach & Hbackup).
  bind_inv Hrun. destruct a as [s4 e6]. rename E into Ereplay.
  bind_inv Hrun. destruct a as [s5 e7]. rename E into Erestore.
  injection Hrun as <- <- <-.
  destruct (replayMoves_reaches rollbackStack Hrc s _ _ Hreach _ _ _ _
              eq_refl Hc Ereplay) as (Ht4 & Hc4 & Hd4 & Hst6).
  rewrite Hbackup in Erestore.
  destruct (restoreDates_kept rollbackStack Hrc sb s4 e6 s5 e7)
    as (Hst7 & Hs5); auto; [congruence|].
  specialize (Hs5 Hc4). subst s5.
  split.
  { exists initialLL, perFamLL, e1. split; [exact Ecomp|].
    apply (not_below_trans _ _ _ Hb1 Hb2). }
  split; [exists eb, pfb, eb'; exact Ebest|].
  split; [exact Hcb|]. split; [exact Hdb|]. congruence.
Qed.


(** *** The likelihood that the dating search returns *)

(* peel the first call off a run that returns, with names *)
Ltac bind_as H x Hx := apply bind_Ok in H as (x & Hx & H).

Section Dating.
Context {Env : Type} `{Collaborators Env}.

(** The likelihood is a function of the dating, and [restoreDates] is
    [restore]. *)
Variable score : list Z -> list Z -> double.
Hypothesis Hscore : forall s e ll perFamLL e',
  computeLikelihood s e = Ok (ll, perFamLL, e') ->
  ll = score (ranks s) (orderedSpeciations s).
Hypothesis Hrestore : forall backup s e s' e',
  restoreDates backup s e = Ok (s', e') -> restore s backup = Ok s'.

(* a dated tree with its likelihood *)
Definition scored (best : double) (s : SpeciesTree) : Prop :=
  invariant s /\ fromBL s = true
  /\ score (ranks s) (orderedSpeciations s) = best.

(* where a search that started from [s] with [best] has arrived *)
Definition arrived (best : double) (s : SpeciesTree) (best' : double)
    (s' : SpeciesTree) : Prop :=
  scored best' s' /\ not_below best best' /\ rootedTree s' = rootedTree s.

Lemma arrived_refl (best : double) (s : SpeciesTree) :
  scored best s -> arrived best s best s.
Proof. unfold arrived, not_below. auto. Qed.

Lemma arrived_trans (b1 b2 b3 : double) (s1 s2 s3 : SpeciesTree) :
  arrived b1 s1 b2 s2 -> arrived b2 s2 b3 s3 -> arrived b1 s1 b3 s3.
Proof.
  intros (_ & Hb12 & Ht12) (Hs3 & Hb23 & Ht23).
  split; [exact Hs3|]. split; [eapply not_below_trans; eauto | congruence].
Qed.

Lemma moveUp_scored (s s1 : SpeciesTree) (rank : Z) (moved : bool) :
  invariant s -> fromBL s = true -> is_uint rank ->
  moveUp s rank = Ok (moved, s1) ->
  invariant s1 /\ fromBL s1 = true /\ rootedTree s1 = rootedTree s.
Proof.
  intros [Hc Hpf] Hd Hr Hmv.
  destruct (moveUp_keeps s rank Hc Hd Hr) as (b & d' & E & Hc' & Hpf' & Hd' & Ht').
  rewrite E in Hmv. injection Hmv as <- <-.
  split; [split; auto | auto].
Qed.

Lemma moveDown_scored (s s1 : SpeciesTree) (rank : Z) (moved : bool) :
  invariant s -> fromBL s = true -> is_uint rank ->
  moveDown s rank = Ok (moved, s1) ->
  invariant s1 /\ fromBL s1 = true /\ rootedTree s1 = rootedTree s.
Proof.
  intros [Hc Hpf] Hd Hr Hmv.
  destruct (moveDown_keeps s rank Hc Hd Hr) as (b & d' & E & Hc' & Hpf' & Hd' & Ht').
  rewrite E in Hmv. injection Hmv as <- <-.
  split; [split; auto | auto].
Qed.

Lemma datesLoop_sound (searchState : bool) (maxRank : Z) (fuel : nat) :
  forall rank best s e best' s' e',
  scored best s -> is_uint rank ->
  datesLoop fuel searchState maxRank rank best s e = Ok (best', s', e') ->
  arrived best s best' s'.
Proof.
  induction fuel as [|fuel IH]; intros rank best s e best' s' e' Hs Hr Hrun;
    [discriminate|].
  cbn [datesLoop] in Hrun.
  destruct (negb (rank <? maxRank)).
  { injection Hrun as <- <- <-. apply arrived_refl, Hs. }
  bind_as Hrun a Emove. destruct a as [moved s1].
  destruct Hs as (Hinv & Hd & Hsc).
  destruct (moveUp_scored s s1 rank moved Hinv Hd Hr Emove) as (Hinv1 & Hd1 & Ht1).
  destruct moved; cbn [negb] in Hrun.
  - bind_as Hrun e1 Enotify.
    bind_as Hrun a Ecomp. destruct a as [[ll perFamLL] e2].
    bind_as Hrun e3 Ecall.
    apply Hscore in Ecomp.
    destruct (gtb ll best) eqn:Hgt.
    + apply IH in Hrun; [|unfold scored; auto | apply wrap_uint_is_uint].
      destruct Hrun as (Hs' & Hb' & Ht').
      split; [exact Hs'|]. split; [|congruence].
      eapply not_below_trans; [right; exact Hgt | exact Hb'].
    + bind_as Hrun a Eback. destruct a as [moved2 s2].
      rewrite (moveUp_undo s s1 rank Hinv Hd Hr Emove) in Eback.
      injection Eback as _ <-.
      eapply IH; [|apply wrap_uint_is_uint | exact Hrun].
      unfold scored. auto.
  - apply moveUp_false in Emove as ->.
    eapply IH; [|apply wrap_uint_is_uint | exact Hrun].
    unfold scored. auto.
Qed.

Lemma datesRounds_sound (searchState : bool) (maxRank : Z) (fuel : nat) :
  forall best s e best' s' e',
  scored best s ->
  datesRounds fuel searchState maxRank best s e = Ok (best', s', e') ->
  arrived best s best' s'.
Proof.
  induction fuel as [|fuel IH]; intros best s e best' s' e' Hs Hrun;
    [discriminate|].
  cbn [datesRounds] in Hrun.
  bind_as Hrun a Eloop. destruct a as [[best1 s1] e1].
  assert (H0 : is_uint 0) by (unfold is_uint; lia).
  pose proof (datesLoop_sound _ _ _ _ _ _ _ _ _ _ Hs H0 Eloop) as A1.
  destruct (gtb (sub best1 best) one).
  - eapply arrived_trans; [exact A1|]. eapply IH; [apply A1 | exact Hrun].
  - injection Hrun as <- <- <-. exact A1.
Qed.

Lemma optimizeDatesLocal_sound (searchState : bool) (fuel : nat)
    (s : SpeciesTree) (e : Env) (ll : double) (s' : SpeciesTree) (e' : Env) :
  invariant s -> fromBL s = true ->
  optimizeDatesLocal fuel searchState s e = Ok (ll, s', e') ->
  arrived (score (ranks s) (orderedSpeciations s)) s ll s'.
Proof.
  intros Hinv Hd Hrun. unfold optimizeDatesLocal in Hrun.
  bind_as Hrun a Ecomp. destruct a as [[best perFamLL] e0].
  apply Hscore in Ecomp.
  bind_as Hrun a Erounds. destruct a as [[best1 s1] e1].
  bind_as Hrun e2 Enotify. injection Hrun as <- <- <-. subst best.
  eapply datesRounds_sound; [|exact Erounds]. unfold scored. auto.
Qed.

(* the perturbation keeps the tree a dated tree *)
Definition still_dated (s s' : SpeciesTree) : Prop :=
  invariant s' /\ fromBL s' = true /\ rootedTree s' = rootedTree s.

Lemma perturbMoves_dated (isUp : bool) (rank nodesToMove displacement : Z)
    (fuel : nat) :
  forall (at_ : loop_point) (k j : Z) (s s' : SpeciesTree),
  invariant s -> fromBL s = true ->
  perturbMoves fuel isUp rank nodesToMove displacement at_ k j s = Ok s' ->
  still_dated s s'.
Proof.
  induction fuel as [|fuel IH]; intros at_ k j s s' Hinv Hd Hrun;
    [discriminate|].
  cbn [perturbMoves] in Hrun. destruct at_.
  - destruct (k <? nodesToMove); [eauto|].
    injection Hrun as <-. unfold still_dated. auto.
  - destruct (j <? displacement); [|eauto].
    bind_as Hrun a Emove. destruct a as [ok s1].
    assert (K1 : still_dated s s1).
    { destruct isUp; [eapply moveUp_scored | eapply moveDown_scored]; eauto;
        apply wrap_uint_is_uint. }
    destruct K1 as (Hinv1 & Hd1 & Ht1).
    assert (K2 : still_dated s1 s') by (destruct ok; eauto).
    destruct K2 as (Hinv' & Hd' & Ht').
    unfold still_dated. split; [auto|]. split; [auto | congruence].
Qed.

Lemma perturbations_loop_dated (fuel : nat) (N maxDisplacement : Z)
    (count : nat) :
  forall (s : SpeciesTree) (e : Env) (s' : SpeciesTree) (e' : Env),
  invariant s -> fromBL s = true ->
  perturbations_loop fuel count N maxDisplacement s e = Ok (s', e') ->
  still_dated s s'.
Proof.
  induction count as [|count IH]; intros s e s' e' Hinv Hd Hrun.
  { injection Hrun as <- <-. unfold still_dated. auto. }
  cbn [perturbations_loop] in Hrun.
  destruct (getBool e) as [isUp e1]. destruct (getInt e1) as [r1 e2].
  destruct (N =? 0); [discriminate|].
  destruct (getInt e2) as [r2 e3]. destruct (getInt e3) as [r3 e4].
  bind_as Hrun s1 Emoves.
  destruct (perturbMoves_dated _ _ _ _ _ _ _ _ _ _ Hinv Hd Emoves)
    as (Hinv1 & Hd1 & Ht1).
  destruct (IH _ _ _ _ Hinv1 Hd1 Hrun) as (Hinv' & Hd' & Ht').
  unfold still_dated. split; [auto|]. split; [auto | congruence].
Qed.

Lemma perturbateDates_dated (fuel : nat) (perturbation : double)
    (s : SpeciesTree) (e : Env) (s' : SpeciesTree) (e' : Env) :
  invariant s -> fromBL s = true ->
  perturbateDates fuel perturbation s e = Ok (s', e') -> still_dated s s'.
Proof.
  unfold perturbateDates. intros Hinv Hd Hrun.
  destruct (negb (gtb perturbation zero)); [discriminate|].
  bind_as Hrun n1 E1. bind_as Hrun n2 E2.
  bind_as Hrun a Eloop. destruct a as [s1 e1].
  bind_as Hrun e2 Enotify. injection Hrun as <- <-.
  eapply perturbations_loop_dated; eauto.
Qed.

Lemma optimizeDates_trials_sound (thorough : bool) (fuel : nat) :
  forall (trials : Z) (best : double) (s : SpeciesTree) (e : Env)
    (ll : double) (s' : SpeciesTree) (e' : Env),
  scored best s ->
  optimizeDates_trials fuel thorough trials best s e = Ok (ll, s', e') ->
  arrived best s ll s'.
Proof.
  induction fuel as [|fuel IH]; intros trials best s e ll s' e' Hs Hrun;
    [discriminate|].
  cbn [optimizeDates_trials] in Hrun.
  destruct (negb (thorough && (trials <? 2))).
  { injection Hrun as <- <- <-. apply arrived_refl, Hs. }
  bind_as Hrun a Eperturb. destruct a as [s1 e1].
  bind_as Hrun a Elocal. destruct a as [[ll1 s2] e2].
  pose proof Hs as (Hinv & Hd & Hsc).
  destruct (perturbateDates_dated _ _ _ _ _ _ Hinv Hd Eperturb)
    as (Hinv1 & Hd1 & Ht1).
  destruct (optimizeDatesLocal_sound _ _ _ _ _ _ _ Hinv1 Hd1 Elocal)
    as (Hs2 & _ & Ht2).
  destruct (gtb ll1 best) eqn:Hgt.
  - apply IH in Hrun; [|exact Hs2]. destruct Hrun as (Hs' & Hb' & Ht').
    split; [exact Hs'|]. split; [|congruence].
    eapply not_below_trans; [right; exact Hgt | exact Hb'].
  - bind_as Hrun a Eres. destruct a as [s3 e3]. apply Hrestore in Eres.
    destruct Hs2 as ((Hc2 & _) & Hd2 & _). destruct Hinv as [Hc Hpf].
    assert (s3 = s) as ->.
    { apply (restore_same_tree s s2 s3 Hc Hc2); [congruence | congruence|].
      exact Eres. }
    eapply IH; [exact Hs | exact Hrun].
Qed.

Lemma optimizeDates_sound (thorough : bool) (fuel : nat) (s : SpeciesTree)
    (e : Env) (ll : double) (s' : SpeciesTree) (e' : Env) :
  invariant s -> fromBL s = true ->
  optimizeDates fuel thorough s e = Ok (ll, s', e') ->
  arrived (score (ranks s) (orderedSpeciations s)) s ll s'.
Proof.
  intros Hinv Hd Hrun. unfold optimizeDates in Hrun.
  bind_as Hrun a Ecomp. destruct a as [[initialLL perFamLL] e1].
  apply Hscore in Ecomp.
  bind_as Hrun e2 Ecall. subst initialLL.
  destruct (negb (isDated e2)).
  { injection Hrun as <- <- <-. apply arrived_refl. unfold scored. auto. }
  bind_as Hrun a Elocal. destruct a as [[best s1] e3].
  pose proof (optimizeDatesLocal_sound _ _ _ _ _ _ _ Hinv Hd Elocal) as A1.
  eapply arrived_trans; [exact A1|].
  eapply optimizeDates_trials_sound; [apply A1 | exact Hrun].
Qed.

End Dating.

(** X23. With a likelihood that is a function of the dating,
    [optimizeDates] returns the likelihood of the dating it leaves, and
    this likelihood is the one of the dating at the entry or is above it:
    a perturbation that the local search could not turn into a better
    dating is taken back. The tree keeps its invariants and its rooted
    tree. [restoreDates] is assumed to be [restore]. *)
Theorem optimizeDates_returns_the_best {Env : Type} `{Collaborators Env}
    (score : list Z -> list Z -> double) (fuel : nat) (thorough : bool)
    (s : SpeciesTree) (e : Env) (ll : double) (s' : SpeciesTree) (e' : Env) :
  (forall s e ll perFamLL e',
     computeLikelihood s e = Ok (ll, perFamLL, e') ->
     ll = score (ranks s) (orderedSpeciations s)) ->
  (forall backup s e s' e',
     restoreDates backup s e = Ok (s', e') -> restore s backup = Ok s') ->
  invariant s -> fromBL s = true ->
  optimizeDates fuel thorough s e = Ok (ll, s', e') ->
  score (ranks s') (orderedSpeciations s') = ll
  /\ (ll = score (ranks s) (orderedSpeciations s)
      \/ gtb ll (score (ranks s) (orderedSpeciations s)) = true)
  /\ invariant s' /\ rootedTree s' = rootedTree s.
Proof.
  intros Hscore Hrestore Hinv Hd Hrun.
  destruct (optimizeDates_sound score Hscore Hrestore _ _ _ _ _ _ _ Hinv Hd Hrun)
    as ((Hinv' & _ & Hsc) & Hb & Ht).
  auto.
Qed.


(** *** The collaborators of the examples honour the contract *)

Lemma Toy_move_root_consistent (k : Z) (s : SpeciesTree) :
  consistent s -> consistent (Toy.move_root k s).
Proof. intros [H1 H2 H3 H4 H5]. split; auto. Qed.

Lemma Toy_contract (score : SpeciesTree -> double) (limit : Z) :
  @RootContract Toy.env (Toy.collaborators score limit) Z Toy.rollback.
Proof.
  split; cbn.
  - intros e e' [= <-]. eexists. reflexivity.
  - intros e e'. destruct (Toy.rollback e); [discriminate|].
    intros [= <-]. reflexivity.
  - intros s e ll perFamLL e' [= _ _ <-]. reflexivity.
  - intros s e e' [= <-]. reflexivity.
  - intros ll perFamLL s e e' [= <-]. reflexivity.
  - reflexivity.
  - reflexivity.
  - reflexivity.
  - reflexivity.
  - reflexivity.
  - intros dir s e s' e' [= _ <-]. reflexivity.
  - intros dir s e s' e' [= _ <-]. reflexivity.
  - intros backup s e s' e' Hrun. bind_inv Hrun. injection Hrun as _ <-.
    reflexivity.
  - intros dir s e s' e' Hc [= <- _].
    split; [apply Toy_move_root_consistent, Hc | auto].
  - intros dir s e s' e' Hc [= <- _].
    split; [apply Toy_move_root_consistent, Hc | auto].
  - intros dir s1 e1 s1' e1' s2 e2 s2' e2' [= <- _] [= <- _] Ht.
    unfold Toy.move_root. cbn. rewrite Ht. reflexivity.
  - intros dir s e s1 e1 s2 e2 s3 e3 [= <- _] Ht [= <- _].
    unfold Toy.move_root in *. cbn in *. rewrite Ht. cbn.
    destruct (rootedTree s) as [nds rt]. cbn. f_equal. lia.
  - intros backup s e s' e' Hrun. bind_inv Hrun. injection Hrun as <- _.
    exact E.
Qed.

(* a scorer of the dating, and a scorer of the root *)
Definition Toy_by_dating : Collaborators Toy.env :=
  Toy.collaborators
    (fun s => Toy.score_of_dating (ranks s) (orderedSpeciations s)) 0.
Definition Toy_by_root : Collaborators Toy.env :=
  Toy.collaborators Toy.score_of_root 11.

Lemma optimizeDates_keeps_witness :
  exists ll s' e',
    @optimizeDates Toy.env Toy_by_dating 30 true S1.dated Toy.start
      = Ok (ll, s', e')
    /\ rootedTree s' = S1.tree /\ consistent s'.
Proof.
  destruct (@optimizeDates Toy.env Toy_by_dating 30 true S1.dated Toy.start)
    as [[[ll s'] e']|err] eqn:Hrun.
  - exists ll, s', e'. split; [reflexivity|].
    destruct (@optimizeDates_keeps Toy.env Toy_by_dating Z Toy.rollback 30
                true S1.dated Toy.start ll s' e') as (Ht & Hc & _).
    + apply Toy_contract.
    + apply consistentb_sound. vm_compute. reflexivity.
    + exact Hrun.
    + auto.
  - vm_compute in Hrun. discriminate.
Defined.

Lemma rootSearchAux_restores_witness :
  exists st' e',
    @rootSearchAux Toy.env Toy_by_root 40 false false
      (mk_search [1] [] (getBackup S1.dated) zero) zero 1
      S1.dated Toy.start = Ok (st', S1.dated, e')
    /\ Toy.rollback e' = [] /\ movesHistory st' = [1].
Proof.
  destruct (@rootSearchAux Toy.env Toy_by_root 40 false false
              (mk_search [1] [] (getBackup S1.dated) zero) zero 1
              S1.dated Toy.start)
    as [[[st' s'] e']|err] eqn:Hrun.
  - destruct (@rootSearchAux_restores Toy.env Toy_by_root Z Toy.rollback
                _ _ _ _ _ _ _ _ _ _ _ (Toy_contract Toy.score_of_root 11)
                (consistentb_sound S1.dated eq_refl) Hrun)
      as (-> & Hst & Hh & _).
    exists st', e'. auto.
  - vm_compute in Hrun. discriminate.
Defined.

Lemma rootSearch_returns_the_best_witness :
  exists ll s' e',
    @rootSearch Toy.env Toy_by_root 40 false false 1 S1.dated Toy.start
      = Ok (ll, s', e')
    /\ (ll = Toy.score_of_root S1.dated
        \/ gtb ll (Toy.score_of_root S1.dated) = true)
    /\ Toy.score_of_root s' = ll.
Proof.
  destruct (@rootSearch Toy.env Toy_by_root 40 false false 1 S1.dated
              Toy.start)
    as [[[ll s'] e']|err] eqn:Hrun.
  - destruct (@rootSearch_returns_the_best Toy.env Toy_by_root Z Toy.rollback
                _ _ _ _ _ _ _ _ _ (Toy_contract Toy.score_of_root 11)
                (consistentb_sound S1.dated eq_refl) Hrun)
      as ((ll0 & pf & e0 & Hinit & Hbest) & (eb & pfb & eb' & Hcomp) & _).
    exists ll, s', e'. split; [reflexivity|].
    cbn in Hinit, Hcomp. injection Hinit as <- _ _. injection Hcomp as <- _.
    auto.
  - vm_compute in Hrun. discriminate.
Defined.

Lemma optimizeDates_returns_the_best_witness :
  exists ll s' e',
    @optimizeDates Toy.env Toy_by_dating 30 true S1.dated Toy.start
      = Ok (ll, s', e')
    /\ Toy.score_of_dating (ranks s') (orderedSpeciations s') = ll
    /\ (ll = Toy.score_of_dating (ranks S1.dated) (orderedSpeciations S1.dated)
        \/ gtb ll (Toy.score_of_dating (ranks S1.dated)
                     (orderedSpeciations S1.dated)) = true).
Proof.
  destruct (@optimizeDates Toy.env Toy_by_dating 30 true S1.dated Toy.start)
    as [[[ll s'] e']|err] eqn:Hrun.
  - exists ll, s', e'. split; [reflexivity|].
    destruct (@optimizeDates_returns_the_best Toy.env Toy_by_dating
                Toy.score_of_dating 30 true S1.dated Toy.start ll s' e')
      as (Hsc & Hb & _).
    + intros s e ll0 perFamLL e0 [= <- _ _]. reflexivity.
    + intros backup s e s1 e1 Hres. cbn in Hres.
      destruct (restore s backup); [|discriminate].
      injection Hres as <- _. reflexivity.
    + apply invariantb_sound. vm_compute. reflexivity.
    + reflexivity.
    + exact Hrun.
    + auto.
  - vm_compute in Hrun. discriminate.
Defined.


End RootSearchFacts.
(** ** The transfer score *)

Module TransferScoreFacts.
Import DatedTree DatedTreeFacts TransferScore.

Lemma wrap_uint_shift (r s1 s2 : Z) :
  wrap_uint (wrap_uint r + s2 - s1) = wrap_uint (r + s2 - s1).
Proof.
  unfold wrap_uint. rewrite <- Z.add_sub_assoc, Zplus_mod_idemp_l.
  f_equal. lia.
Qed.

Lemma shift_compose (r1 m1 s1 s2 : Z) :
  wrap_uint (r1 + wrap_uint (m1 + s2 - s1) - m1) = wrap_uint (r1 + s2 - s1).
Proof.
  unfold wrap_uint.
  replace (r1 + (m1 + s2 - s1) `mod` 2 ^ 32 - m1)
    with ((m1 + s2 - s1) `mod` 2 ^ 32 + (r1 - m1)) by lia.
  rewrite Zplus_mod_idemp_l. f_equal. lia.
Qed.

Section Shift.
Variable labelToId : StringToUint.
Variable datedTree : DatedTree.t.
Variable frequencies : TransferFrequencies.

(* a loop that starts from another score arrives at a score that differs
   by as much *)
Definition shifts (run : Z -> result Z) : Prop :=
  forall s1 s2 r1, is_uint s1 -> is_uint s2 -> run s1 = Ok r1 ->
    is_uint r1 /\ run s2 = Ok (wrap_uint (r1 + s2 - s1)).

Lemma score_pair_shifts (from to : Z) :
  shifts (score_pair labelToId datedTree frequencies from to).
Proof.
  intros s1 s2 r1 H1 H2. unfold score_pair.
  destruct (vec_get (count frequencies) from) as [row|]; [|discriminate].
  cbn [mbind result_bind].
  destruct (vec_get row to) as [cnt|]; [|discriminate].
  cbn [mbind result_bind].
  assert (Hsame : wrap_uint (s1 + s2 - s1) = s2).
  { replace (s1 + s2 - s1) with s2 by lia. apply wrap_uint_small, H2. }
  destruct (cnt =? 0).
  { intros [= <-]. rewrite Hsame. auto. }
  destruct (vec_get (idToLabel frequencies) from) as [fromLabel|];
    [|discriminate].
  destruct (vec_get (idToLabel frequencies) to) as [toLabel|]; [|discriminate].
  cbn [mbind result_bind].
  destruct (canTransferUnderRelDated _ _ _) as [[]|]; [| |discriminate];
    cbn [mbind result_bind]; intros [= <-].
  - split; [apply SearchFacts.wrap_uint_is_uint|].
    rewrite wrap_uint_shift. do 2 f_equal. lia.
  - rewrite Hsame. auto.
Qed.

Lemma score_row_shifts (from : Z) (tos : list Z) :
  shifts (score_row labelToId datedTree frequencies from tos).
Proof.
  induction tos as [|to rest IH]; intros s1 s2 r1 H1 H2 Hrun.
  - injection Hrun as <-. cbn. replace (s1 + s2 - s1) with s2 by lia.
    rewrite wrap_uint_small by exact H2. auto.
  - cbn [score_row] in *.
    destruct (score_pair _ _ _ from to s1) as [m1|] eqn:E1; [|discriminate].
    destruct (score_pair_shifts from to s1 s2 m1 H1 H2 E1) as [Hm1 ->].
    cbn [mbind result_bind] in *.
    destruct (IH m1 (wrap_uint (m1 + s2 - s1)) r1 Hm1
                (SearchFacts.wrap_uint_is_uint _) Hrun) as [Hr1 ->].
    split; [exact Hr1|]. rewrite shift_compose. reflexivity.
Qed.

Lemma score_rows_shifts (N : Z) (froms : list Z) :
  shifts (score_rows labelToId datedTree frequencies N froms).
Proof.
  induction froms as [|from rest IH]; intros s1 s2 r1 H1 H2 Hrun.
  - injection Hrun as <-. cbn. replace (s1 + s2 - s1) with s2 by lia.
    rewrite wrap_uint_small by exact H2. auto.
  - cbn [score_rows] in *.
    destruct (score_row _ _ _ from (seqZ 0 N) s1) as [m1|] eqn:E1;
      [|discriminate].
    destruct (score_row_shifts from _ s1 s2 m1 H1 H2 E1) as [Hm1 ->].
    cbn [mbind result_bind] in *.
    destruct (IH m1 (wrap_uint (m1 + s2 - s1)) r1 Hm1
                (SearchFacts.wrap_uint_is_uint _) Hrun) as [Hr1 ->].
    split; [exact Hr1|]. rewrite shift_compose. reflexivity.
Qed.

Lemma score_rows_app (N : Z) (l1 l2 : list Z) (s : Z) :
  score_rows labelToId datedTree frequencies N (l1 ++ l2) s
  = s1 ← score_rows labelToId datedTree frequencies N l1 s;
    score_rows labelToId datedTree frequencies N l2 s1.
Proof.
  revert s. induction l1 as [|from l1 IH]; intros s; [reflexivity|].
  cbn [app score_rows].
  destruct (score_row _ _ _ from (seqZ 0 N) s); [|reflexivity].
  cbn [mbind result_bind]. apply IH.
Qed.

End Shift.

(** X24. The transfer score adds up over the rows: the score accumulated
    over the rows from [begin] to [end] is the sum, as an [unsigned int],
    of the scores accumulated over the rows from [begin] to [mid] and
    from [mid] to [end]. So the sum of the workers' scores does not
    depend on how the parallel context splits the rows among them. Over
    an empty range the score is 0. *)
Theorem getTransferScore_adds_up (labelToId : StringToUint)
    (datedTree : DatedTree.t) (frequencies : TransferFrequencies)
    (begin mid end_ : Z) (x y : Z) :
  begin <= mid <= end_ ->
  getTransferScore labelToId datedTree frequencies begin mid = Ok x ->
  getTransferScore labelToId datedTree frequencies mid end_ = Ok y ->
  getTransferScore labelToId datedTree frequencies begin end_
    = Ok (wrap_uint (x + y))
  /\ getTransferScore labelToId datedTree frequencies begin begin = Ok 0.
Proof.
  intros Hb Hx Hy. unfold getTransferScore in *. split.
  - replace (end_ - begin) with ((mid - begin) + (end_ - mid)) by lia.
    rewrite seqZ_app by lia. rewrite score_rows_app, Hx.
    cbn [mbind result_bind].
    replace (begin + (mid - begin)) with mid by lia.
    assert (H0 : is_uint 0) by (unfold is_uint; lia).
    destruct (score_rows_shifts labelToId datedTree frequencies _ _ 0 0 x
                H0 H0 Hx) as [Hux _].
    destruct (score_rows_shifts labelToId datedTree frequencies _ _ 0 x y
                H0 Hux Hy) as [_ ->].
    do 2 f_equal. lia.
  - rewrite Z.sub_diag. reflexivity.
Qed.

(* three species of S1, and the transfers counted between them *)
Definition S1_labels : StringToUint :=
  <["a" := 0]> (<["b" := 2]> (<["ab" := 4]> ∅)).

Definition S1_frequencies : TransferFrequencies :=
  mk_frequencies [[0; 3; 1]; [2; 0; 7]; [5; 4; 0]] ["a"; "b"; "ab"].

Lemma getTransferScore_adds_up_witness :
  getTransferScore S1_labels S1.dated S1_frequencies 0 1 = Ok 3
  /\ getTransferScore S1_labels S1.dated S1_frequencies 1 3 = Ok 11
  /\ getTransferScore S1_labels S1.dated S1_frequencies 0 3 = Ok 14.
Proof.
  assert (H1 : getTransferScore S1_labels S1.dated S1_frequencies 0 1 = Ok 3)
    by (vm_compute; reflexivity).
  assert (H2 : getTransferScore S1_labels S1.dated S1_frequencies 1 3 = Ok 11)
    by (vm_compute; reflexivity).
  split; [exact H1|]. split; [exact H2|].
  apply (getTransferScore_adds_up S1_labels S1.dated S1_frequencies 0 1 3 3 11);
    [lia | exact H1 | exact H2].
Defined.

End TransferScoreFacts.

(** ** The datings from the reconciliation *)

Module BestDatingsFacts.
Import DatedTree DatedTreeFacts RandomizeFacts Search SearchFacts.
Import RootSearchFacts TransferScore BestDatings.

(** *** What rank swaps keep, the searches keep *)

Section Preserved.
Context {Env : Type} `{Collaborators Env}.
Variable P : SpeciesTree -> Prop.
Hypothesis Hup : forall s rank moved s',
  P s -> is_uint rank -> moveUp s rank = Ok (moved, s') -> P s'.
Hypothesis Hdown : forall s rank moved s',
  P s -> is_uint rank -> moveDown s rank = Ok (moved, s') -> P s'.

Lemma datesLoop_preserves (searchState : bool) (maxRank : Z) (fuel : nat) :
  forall rank best s e best' s' e',
  P s -> is_uint rank ->
  datesLoop fuel searchState maxRank rank best s e = Ok (best', s', e') ->
  P s'.
Proof.
  induction fuel as [|fuel IH]; intros rank best s e best' s' e' Hs Hr Hrun;
    [discriminate|].
  cbn [datesLoop] in Hrun.
  destruct (negb (rank <? maxRank)); [congruence|].
  bind_as Hrun a Emove. destruct a as [moved s1].
  pose proof (Hup _ _ _ _ Hs Hr Emove) as Hs1.
  pose proof (wrap_uint_is_uint (rank + 1)) as Hnext.
  destruct moved; cbn [negb] in Hrun; [|eauto].
  bind_as Hrun e1 Enotify.
  bind_as Hrun a Ecomp. destruct a as [[ll perFamLL] e2].
  bind_as Hrun e3 Ecall.
  destruct (gtb ll best).
  - eapply IH; [exact Hs1 | apply wrap_uint_is_uint | exact Hrun].
  - bind_as Hrun a Eback. destruct a as [moved2 s2].
    eapply IH; [|exact Hnext | exact Hrun]. eauto.
Qed.

Lemma datesRounds_preserves (searchState : bool) (maxRank : Z) (fuel : nat) :
  forall best s e best' s' e',
  P s -> datesRounds fuel searchState maxRank best s e = Ok (best', s', e') ->
  P s'.
Proof.
  induction fuel as [|fuel IH]; intros best s e best' s' e' Hs Hrun;
    [discriminate|].
  cbn [datesRounds] in Hrun.
  bind_as Hrun a Eloop. destruct a as [[best1 s1] e1].
  assert (H0 : is_uint 0) by (unfold is_uint; lia).
  pose proof (datesLoop_preserves _ _ _ _ _ _ _ _ _ _ Hs H0 Eloop) as Hs1.
  destruct (gtb (sub best1 best) one); [eauto | congruence].
Qed.

Lemma optimizeDatesLocal_preserves (searchState : bool) (fuel : nat)
    (s : SpeciesTree) (e : Env) (ll : double) (s' : SpeciesTree) (e' : Env) :
  P s -> optimizeDatesLocal fuel searchState s e = Ok (ll, s', e') -> P s'.
Proof.
  intros Hs Hrun. unfold optimizeDatesLocal in Hrun.
  bind_as Hrun a Ecomp. destruct a as [[best perFamLL] e0].
  bind_as Hrun a Erounds. destruct a as [[best1 s1] e1].
  bind_as Hrun e2 Enotify. injection Hrun as <- <- <-.
  eapply datesRounds_preserves; eauto.
Qed.

Lemma perturbMoves_preserves (isUp : bool) (rank nodesToMove displacement : Z)
    (fuel : nat) :
  forall (at_ : loop_point) (k j : Z) (s s' : SpeciesTree),
  P s ->
  perturbMoves fuel isUp rank nodesToMove displacement at_ k j s = Ok s' ->
  P s'.
Proof.
  induction fuel as [|fuel IH]; intros at_ k j s s' Hs Hrun; [discriminate|].
  cbn [perturbMoves] in Hrun. destruct at_.
  - destruct (k <? nodesToMove); [eauto | congruence].
  - destruct (j <? displacement); [|eauto].
    bind_as Hrun a Emove. destruct a as [ok s1].
    assert (Hs1 : P s1).
    { destruct isUp; [eapply Hup | eapply Hdown]; eauto;
        apply wrap_uint_is_uint. }
    destruct ok; eauto.
Qed.

Lemma perturbations_loop_preserves (fuel : nat) (N maxDisplacement : Z)
    (count : nat) :
  forall (s : SpeciesTree) (e : Env) (s' : SpeciesTree) (e' : Env),
  P s -> perturbations_loop fuel count N maxDisplacement s e = Ok (s', e') ->
  P s'.
Proof.
  induction count as [|count IH]; intros s e s' e' Hs Hrun;
    [cbn in Hrun; congruence|].
  cbn [perturbations_loop] in Hrun.
  destruct (getBool e) as [isUp e1]. destruct (getInt e1) as [r1 e2].
  destruct (N =? 0); [discriminate|].
  destruct (getInt e2) as [r2 e3]. destruct (getInt e3) as [r3 e4].
  bind_as Hrun s1 Emoves.
  eapply IH; [|exact Hrun]. eapply perturbMoves_preserves; eauto.
Qed.

Lemma perturbateDates_preserves (fuel : nat) (perturbation : double)
    (s : SpeciesTree) (e : Env) (s' : SpeciesTree) (e' : Env) :
  P s -> perturbateDates fuel perturbation s e = Ok (s', e') -> P s'.
Proof.
  unfold perturbateDates. intros Hs Hrun.
  destruct (negb (gtb perturbation zero)); [discriminate|].
  bind_as Hrun n1 E1. bind_as Hrun n2 E2.
  bind_as Hrun a Eloop. destruct a as [s1 e1].
  bind_as Hrun e2 Enotify. injection Hrun as <- <-.
  eapply perturbations_loop_preserves; eauto.
Qed.

End Preserved.

(** *** The tree comes back, the datings are datings of the tree *)

Section Datings.
Context {Env : Type} `{Collaborators Env}.
Variable getTransferInformation :
  SpeciesTree -> Env -> result (TransferFrequencies * Env).
Variable getLabelToId : SpeciesTree -> StringToUint.
Variables getBegin getEnd : Z -> Z.
Variable sumUInt : Z -> Z.
Variable sort_descending : list ScoredBackup -> list ScoredBackup.

Hypothesis Hrestore : forall backup s e s' e',
  restoreDates backup s e = Ok (s', e') -> restore s backup = Ok s'.
Hypothesis Hsort : forall l, sort_descending l ≡ₚ l.

(* the tree at the entry, and its shape *)
Variables (s0 : SpeciesTree) (sh : shape).

(* a dating of the tree of the entry *)
Definition dating (s : SpeciesTree) : Prop :=
  well_dated sh s /\ rootedTree s = rootedTree s0.

(* the backup of a dating of the tree *)
Definition dated_backup (sb : ScoredBackup) : Prop :=
  exists sd, dating sd /\ backup sb = getBackup sd.

(* the backup of a dating of the tree, with the likelihood of this dating *)
Definition scored_backup (sb : ScoredBackup) : Prop :=
  exists sd eb perFamLL eb',
    dating sd /\ backup sb = getBackup sd
    /\ computeLikelihood sd eb = Ok (score sb, perFamLL, eb').

Lemma dating_moveUp s rank moved s' :
  dating s -> is_uint rank -> moveUp s rank = Ok (moved, s') -> dating s'.
Proof.
  intros [Hwd Ht] Hr Hmv.
  destruct (apply_move_well_dated sh s (Up rank) Hwd Hr)
    as (b & d' & E & Hwd' & Ht').
  cbn in E. rewrite E in Hmv. injection Hmv as <- <-.
  split; [exact Hwd' | congruence].
Qed.

Lemma dating_moveDown s rank moved s' :
  dating s -> is_uint rank -> moveDown s rank = Ok (moved, s') -> dating s'.
Proof.
  intros [Hwd Ht] Hr Hmv.
  destruct (apply_move_well_dated sh s (Down rank) Hwd Hr)
    as (b & d' & E & Hwd' & Ht').
  cbn in E. rewrite E in Hmv. injection Hmv as <- <-.
  split; [exact Hwd' | congruence].
Qed.

(* restoreDates brings back the dating that the backup was taken from *)
Lemma dating_restore (sd s : SpeciesTree) (e : Env) (s' : SpeciesTree)
    (e' : Env) :
  dating sd -> dating s -> restoreDates (getBackup sd) s e = Ok (s', e') ->
  s' = sd.
Proof.
  intros [(Hcd & Hdd & _) Htd] [(Hc & Hd & _) Ht] Hres.
  apply Hrestore in Hres.
  apply (restore_same_tree sd s s'); auto; congruence.
Qed.

Lemma datings_trials_dating (frequencies : TransferFrequencies) (fuel : nat) :
  forall (trials : Z) (best : double) (s : SpeciesTree) (e : Env)
    (best' : double) (s' : SpeciesTree) (e' : Env),
  dating s ->
  datings_trials getLabelToId getBegin getEnd sumUInt fuel frequencies
    trials best s e = Ok (best', s', e') ->
  dating s'.
Proof.
  induction fuel as [|fuel IH]; intros trials best s e best' s' e' Hs Hrun;
    [discriminate|].
  cbn [datings_trials] in Hrun.
  destruct (negb (trials <? 20)); [congruence|].
  bind_as Hrun a Eperturb. destruct a as [s1 e1].
  bind_as Hrun a Elocal. destruct a as [[sc s2] e2].
  pose proof (perturbateDates_preserves dating dating_moveUp dating_moveDown
                _ _ _ _ _ _ Hs Eperturb) as Hs1.
  pose proof (optimizeDatesLocal_preserves dating dating_moveUp
                _ _ _ _ _ _ _ Hs1 Elocal) as Hs2.
  destruct (gtb sc best); [eauto|].
  bind_as Hrun a Eres. destruct a as [s3 e3].
  rewrite (dating_restore s s2 e2 s3 e3 Hs Hs2 Eres) in Hrun. eauto.
Qed.

Lemma datings_loop_dating (frequencies : TransferFrequencies) (fuel : nat)
    (toTest : nat) :
  forall (acc : list ScoredBackup) (s : SpeciesTree) (e : Env)
    (out : list ScoredBackup) (s' : SpeciesTree) (e' : Env),
  (length (nodes (rootedTree s0)) <= fuel)%nat ->
  dating s -> Forall dated_backup acc ->
  datings_loop getLabelToId getBegin getEnd sumUInt fuel frequencies toTest
    acc s e = Ok (out, s', e') ->
  dating s' /\ Forall dated_backup out
  /\ length out = (length acc + toTest)%nat.
Proof.
  induction toTest as [|toTest IH]; intros acc s e out s' e' Hfuel Hs Hacc Hrun.
  { cbn in Hrun. injection Hrun as <- <- <-. auto. }
  cbn [datings_loop] in Hrun.
  bind_as Hrun a Erandom. destruct a as [e1 s1].
  bind_as Hrun a Elocal. destruct a as [[sc s2] e2].
  bind_as Hrun a Etrials. destruct a as [[sc' s3] e3].
  assert (Hs1 : dating s1).
  { destruct Hs as [Hwd Ht].
    destruct (randomize_keeps getInt sh fuel e s Hwd) as (g' & d' & E & Hwd' & Ht');
      [rewrite Ht; exact Hfuel|].
    rewrite E in Erandom. injection Erandom as <- <-.
    split; [exact Hwd' | congruence]. }
  pose proof (optimizeDatesLocal_preserves dating dating_moveUp
                _ _ _ _ _ _ _ Hs1 Elocal) as Hs2.
  pose proof (datings_trials_dating _ _ _ _ _ _ _ _ _ Hs2 Etrials) as Hs3.
  assert (Hacc' : Forall dated_backup
                    (acc ++ [mk_scored (getBackup s3) sc'])).
  { apply Forall_app. split; [exact Hacc|]. constructor; [|constructor].
    exists s3. split; [exact Hs3 | reflexivity]. }
  destruct (IH _ _ _ _ _ _ Hfuel Hs3 Hacc' Hrun) as (Hs' & Hout & Hlen).
  split; [exact Hs'|]. split; [exact Hout|].
  rewrite Hlen, length_app. cbn. lia.
Qed.

Lemma rescore_dating (sbs : list ScoredBackup) :
  forall (s : SpeciesTree) (e : Env) (out : list ScoredBackup)
    (s' : SpeciesTree) (e' : Env),
  dating s -> Forall dated_backup sbs ->
  rescore sbs s e = Ok (out, s', e') ->
  dating s' /\ Forall scored_backup out /\ length out = length sbs.
Proof.
  induction sbs as [|sb rest IH]; intros s e out s' e' Hs Hall Hrun.
  { cbn in Hrun. injection Hrun as <- <- <-. auto. }
  cbn [rescore] in Hrun. apply Forall_cons in Hall as [(sd & Hsd & Hb) Hrest].
  bind_as Hrun a Eres. destruct a as [s1 e1].
  bind_as Hrun a Ecomp. destruct a as [[ll perFamLL] e2].
  bind_as Hrun a Erest. destruct a as [[rest' s2] e3].
  injection Hrun as <- <- <-.
  rewrite Hb in Eres.
  pose proof (dating_restore sd s e s1 e1 Hsd Hs Eres) as ->.
  destruct (IH _ _ _ _ _ Hsd Hrest Erest) as (Hs2 & Hout & Hlen).
  split; [exact Hs2|]. split; [|cbn; lia].
  constructor; [|exact Hout].
  exists sd, e1, perFamLL, e2. auto.
Qed.

Lemma resize_cut (v : list ScoredBackup) (n : Z) :
  (Z.to_nat n <= length v)%nat ->
  resize v n = take (Z.to_nat n) v /\ length (resize v n) = Z.to_nat n.
Proof.
  intros Hn. unfold resize.
  replace (Z.to_nat n - length v)%nat with 0%nat by lia.
  cbn. rewrite app_nil_r. split; [reflexivity|].
  rewrite length_take. lia.
Qed.

End Datings.

(** X25. [getBestDatingsFromReconciliation] leaves the species tree as
    it found it, and what it returns are datings of this tree: whenever
    it returns, the tree has the dating of the entry, the vector has
    [toTake] entries, and every entry holds the backup of a consistent
    dating of the tree together with a likelihood that the evaluator has
    computed on this dating. [restoreDates] is assumed to be [restore],
    and the sort to permute its argument. *)
Theorem getBestDatingsFromReconciliation_returns_datings
    {Env : Type} `{Collaborators Env}
    (getTransferInformation :
       SpeciesTree -> Env -> result (TransferFrequencies * Env))
    (getLabelToId : SpeciesTree -> StringToUint) (getBegin getEnd : Z -> Z)
    (sumUInt : Z -> Z)
    (sort_descending : list ScoredBackup -> list ScoredBackup)
    (sh : shape) (fuel : nat) (toTest toTake : Z) (s : SpeciesTree) (e : Env)
    (datings : list ScoredBackup) (s' : SpeciesTree) (e' : Env) :
  (forall backup s e s' e',
     restoreDates backup s e = Ok (s', e') -> restore s backup = Ok s') ->
  (forall l, sort_descending l ≡ₚ l) ->
  consistent s -> fromBL s = true -> tree_shape (rootedTree s) sh ->
  internals_first s sh -> (length (nodes (rootedTree s)) <= fuel)%nat ->
  0 <= toTake ->
  getBestDatingsFromReconciliation getTransferInformation getLabelToId
    getBegin getEnd sumUInt sort_descending fuel toTest toTake s e
    = Ok (datings, s', e') ->
  s' = s
  /\ length datings = Z.to_nat toTake
  /\ Forall (fun sb => exists sd eb perFamLL eb',
               consistent sd /\ rootedTree sd = rootedTree s
               /\ backup sb = getBackup sd
               /\ computeLikelihood sd eb = Ok (score sb, perFamLL, eb'))
       datings.
Proof.
  intros Hrestore Hsort Hc Hd Hs Hif Hfuel Htake Hrun.
  unfold getBestDatingsFromReconciliation in Hrun.
  destruct (Z.leb_spec toTake toTest) as [Hle|]; [|discriminate].
  cbn [negb] in Hrun.
  bind_as Hrun a Einfo. destruct a as [frequencies e1].
  bind_as Hrun a Eloop. destruct a as [[scoredBackups s1] e2].
  bind_as Hrun a Escore. destruct a as [[rescored s2] e3].
  bind_as Hrun a Eres. destruct a as [s3 e4].
  injection Hrun as <- <- <-.
  assert (Hs0 : dating s sh s) by (unfold dating, well_dated; auto).
  destruct (datings_loop_dating getLabelToId getBegin getEnd sumUInt Hrestore
              s sh frequencies fuel _ [] s e1 _ _ _ Hfuel Hs0 (Forall_nil_2 _) Eloop)
    as (Hs1 & Hall & Hlen).
  cbn in Hlen.
  assert (Hlen' : (Z.to_nat toTake <= length (sort_descending scoredBackups))%nat).
  { rewrite (Permutation_length (Hsort scoredBackups)), Hlen. lia. }
  destruct (resize_cut _ toTake Hlen') as [Hcut Hlcut].
  assert (Hbest : Forall (dated_backup s sh)
                    (resize (sort_descending scoredBackups) toTake)).
  { rewrite Hcut. apply Forall_take. rewrite (Hsort scoredBackups).
    exact Hall. }
  destruct (rescore_dating Hrestore s sh _ _ _ _ _ _ Hs1 Hbest Escore)
    as (Hs2 & Hout & Hlout).
  split; [eapply (dating_restore Hrestore s sh); eassumption|].
  split; [rewrite (Permutation_length (Hsort rescored)); congruence|].
  rewrite (Hsort rescored).
  eapply Forall_impl; [exact Hout|].
  intros sb (sd & eb & perFamLL & eb' & [(Hcd & _) Htd] & Hb & Hcomp).
  exists sd, eb, perFamLL, eb'. auto.
Qed.

(* the sort of the example: by descending score *)
#[local] Instance ScoredBackup_gt_dec (a b : ScoredBackup) :
  Decision (ScoredBackup_lt b a = true).
Proof. apply _. Defined.

Definition sort_by_score : list ScoredBackup -> list ScoredBackup :=
  merge_sort (fun a b => ScoredBackup_lt b a = true).

Lemma getBestDatingsFromReconciliation_witness :
  exists datings e',
    @getBestDatingsFromReconciliation Toy.env Toy_by_dating
      (fun s e => Ok (TransferScoreFacts.S1_frequencies, e))
      (fun _ => TransferScoreFacts.S1_labels) (fun _ => 0) (fun N => N)
      (fun x => x) sort_by_score 60 3 2 S1.dated Toy.start
    = Ok (datings, S1.dated, e')
    /\ length datings = 2%nat.
Proof.
  destruct (@getBestDatingsFromReconciliation Toy.env Toy_by_dating
              (fun s e => Ok (TransferScoreFacts.S1_frequencies, e))
              (fun _ => TransferScoreFacts.S1_labels) (fun _ => 0)
              (fun N => N) (fun x => x) sort_by_score 60 3 2 S1.dated
              Toy.start)
    as [[[datings s'] e']|err] eqn:Hrun.
  - assert (Hres : forall backup s e s1 e1,
              @restoreDates Toy.env Toy_by_dating backup s e = Ok (s1, e1) ->
              restore s backup = Ok s1).
    { intros backup s e s1 e1 Hres. cbn in Hres.
      destruct (restore s backup); [|discriminate].
      injection Hres as <- _. reflexivity. }
    destruct (@getBestDatingsFromReconciliation_returns_datings
                Toy.env Toy_by_dating
                (fun s e => Ok (TransferScoreFacts.S1_frequencies, e))
                (fun _ => TransferScoreFacts.S1_labels) (fun _ => 0)
                (fun N => N) (fun x => x) sort_by_score S1.tree_as_shape
                60 3 2 S1.dated Toy.start datings s' e' Hres)
      as (-> & Hlen & _).
    + intros l. apply merge_sort_Permutation.
    + apply consistentb_sound. vm_compute. reflexivity.
    + reflexivity.
    + exact S1_shape.
    + exact S1_internals_first.
    + cbn. lia.
    + lia.
    + exact Hrun.
    + exists datings, e'. auto.
  - vm_compute in Hrun. discriminate.
Defined.


End BestDatingsFacts.
